(** * MelodyRnn: the generation loop of [music_rnn/src/model.ts]

    A shallow embedding of the [MelodyRnn] class (constructor, [initialize],
    [dispose], [continueSequence]) together with the part of the tensor
    library it drives.  Tensors live in a heap of tensor objects, so that
    aliasing between the model's fields and [rawVars], disposal, and the
    read-only use of the parameters are all visible in the model. *)

From Stdlib Require Import ZArith List Bool Lia PrimFloat SpecFloat FloatOps.
From stdpp Require Import base list strings gmap.

Set Implicit Arguments.
Local Open Scope nat_scope.

(** ** JavaScript numbers *)

(** A JavaScript [number] is an IEEE 754 binary64 value. *)
Definition number : Type := float.

(** [ToBoolean] on a value of type [number | undefined]: [undefined], [+0],
    [-0] and [NaN] are the falsy ones. *)
Definition truthy (temperature : option number) : bool :=
  match temperature with
  | None => false
  | Some t => negb (is_zero t || is_nan t)
  end.

(** ** Errors and results *)

Inductive error : Type :=
| TypeError                        (* property access on [undefined] *)
| ShapeError                       (* an assertion of the tensor library failed *)
| TensorDisposed                   (* "Tensor is disposed." *)
| ConversionError (msg : string).  (* thrown by the melody converter *)

Inductive res (A : Type) : Type :=
| Ok (a : A)
| Throw (e : error).
Arguments Ok {A} a.
Arguments Throw {A} e.

Definition bindR {A B} (x : res A) (k : A -> res B) : res B :=
  match x with
  | Ok a => k a
  | Throw e => Throw e
  end.

Notation "x <~ m ;; k" := (bindR m (fun x => k))
  (at level 20, m at level 99, k at level 200, only parsing).
Notation "' p <~ m ;; k" := (bindR m (fun p => k))
  (at level 20, p pattern, m at level 99, k at level 200, only parsing).

(** ** The numeric backend

    The element type of float tensors and the scalar operations of the tensor
    library are an interface: the program is the same on every backend. *)
Class Numeric (F : Type) : Type := {
  of_number : number -> F;     (* a JavaScript number stored in a tensor *)
  of_int : Z -> F;
  to_int : F -> Z;
  fadd : F -> F -> F;
  fmul : F -> F -> F;
  fdiv : F -> F -> F;
  fsigmoid : F -> F;
  ftanh : F -> F;
  fgtb : F -> F -> bool;       (* [a > b] *)
  fltb : F -> F -> bool;       (* [a < b] *)
  softmax : list F -> list F;
}.

Section Tensors.
Context {F : Type} {NF : Numeric F}.

(** ** Tensor values

    Modelled from the spec: the tensor primitives (matrix multiply,
    element-wise add, sigmoid and tanh, slicing, one-hot encoding, arg-max,
    multinomial sampling) belong to the tensor library, whose code is not
    among the sources; the spec's sections 1 and 4.3 name them and treat them
    as a numeric library with well-defined semantics.  They are written here
    on values, with the shape assertions of the library as [ShapeError].

    A tensor is a shape and its elements in row-major order.  The element
    kind is kept to tell index tensors (the results of [argMax] and
    [multinomial]) from float tensors. *)
Inductive TData : Type :=
| F32 (v : list F)
| I32 (v : list Z).

Record Tensor : Type := mkTensor { shape : list nat; tdata : TData }.

Definition floats (t : Tensor) : list F :=
  match tdata t with
  | F32 v => v
  | I32 v => map of_int v
  end.

Definition ints (t : Tensor) : list Z :=
  match tdata t with
  | I32 v => v
  | F32 v => map to_int v
  end.

Definition sizeFromShape (s : list nat) : nat := fold_right Nat.mul 1 s.
Definition size (t : Tensor) : nat := sizeFromShape (shape t).

(** [values[k]] read as a float. *)
Definition at_ (t : Tensor) (k : nat) : F := nth k (floats t) (of_int 0).

Definition tabulate {A} (n : nat) (f : nat -> A) : list A := map f (seq 0 n).

Definition tabulate2 {A} (r c : nat) (f : nat -> nat -> A) : list A :=
  flat_map (fun i => tabulate c (f i)) (seq 0 r).

(** [dl.scalar(x)] and [dl.zeros(shape)]. *)
Definition t_scalar (x : F) : Tensor := mkTensor [] (F32 [x]).
Definition t_zeros (s : list nat) : Tensor :=
  mkTensor s (F32 (repeat (of_int 0) (sizeFromShape s))).

(** [t.slice([b0, b1], [s0, s1])] on a rank 2 tensor. *)
Definition t_slice (t : Tensor) (b0 b1 s0 s1 : nat) : res Tensor :=
  match shape t with
  | [r; c] =>
      if (b0 + s0 <=? r) && (b1 + s1 <=? c)
      then Ok (mkTensor [s0; s1]
                 (F32 (tabulate2 s0 s1 (fun i j => at_ t ((b0 + i) * c + (b1 + j))))))
      else Throw ShapeError
  | _ => Throw ShapeError
  end.

(** [as2D], [as1D], [asScalar]: reshapes, which assert that the size is kept. *)
Definition t_reshape (t : Tensor) (s : list nat) : res Tensor :=
  if sizeFromShape s =? size t then Ok (mkTensor s (tdata t)) else Throw ShapeError.
Definition t_as2D (t : Tensor) (r c : nat) : res Tensor := t_reshape t [r; c].
Definition t_as1D (t : Tensor) : res Tensor := t_reshape t [size t].
Definition t_asScalar (t : Tensor) : res Tensor := t_reshape t [].

(** [a.matMul(b)]: the inner dimensions must agree; each entry accumulates
    the products from [0]. *)
Definition dot (k : nat) (x y : nat -> F) : F :=
  fold_left (fun acc l => fadd acc (fmul (x l) (y l))) (seq 0 k) (of_int 0).

Definition t_matMul (a b : Tensor) : res Tensor :=
  match shape a, shape b with
  | [m; k], [k'; n] =>
      if k =? k'
      then Ok (mkTensor [m; n]
                 (F32 (tabulate2 m n (fun i j =>
                         dot k (fun l => at_ a (i * k + l)) (fun l => at_ b (l * n + j))))))
      else Throw ShapeError
  | _, _ => Throw ShapeError
  end.

(** [a.concat(b, 1)] on rank 2 tensors: the rows are put side by side. *)
Definition t_concat (a b : Tensor) : res Tensor :=
  match shape a, shape b with
  | [r; ca], [r'; cb] =>
      if r =? r'
      then Ok (mkTensor [r; ca + cb]
                 (F32 (tabulate2 r (ca + cb) (fun i j =>
                         if j <? ca then at_ a (i * ca + j) else at_ b (i * cb + (j - ca))))))
      else Throw ShapeError
  | _, _ => Throw ShapeError
  end.

(** Element-wise binary operations with broadcasting ([add], [div]).  The
    shapes the program produces are covered: equal shapes, a scalar operand,
    and a matrix with a vector as long as its rows; other combinations are
    rejected. *)
Definition t_broadcast (f : F -> F -> F) (a b : Tensor) : res Tensor :=
  if decide (shape a = shape b)
  then Ok (mkTensor (shape a) (F32 (tabulate (size a) (fun k => f (at_ a k) (at_ b k)))))
  else
    match shape a, shape b with
    | _, [] => Ok (mkTensor (shape a) (F32 (tabulate (size a) (fun k => f (at_ a k) (at_ b 0)))))
    | [], _ => Ok (mkTensor (shape b) (F32 (tabulate (size b) (fun k => f (at_ a 0) (at_ b k)))))
    | [r; c], [c'] =>
        if c =? c'
        then Ok (mkTensor [r; c] (F32 (tabulate2 r c (fun i j => f (at_ a (i * c + j)) (at_ b j)))))
        else Throw ShapeError
    | [c'], [r; c] =>
        if c =? c'
        then Ok (mkTensor [r; c] (F32 (tabulate2 r c (fun i j => f (at_ a j) (at_ b (i * c + j))))))
        else Throw ShapeError
    | _, _ => Throw ShapeError
    end.

Definition t_add : Tensor -> Tensor -> res Tensor := t_broadcast fadd.
Definition t_div : Tensor -> Tensor -> res Tensor := t_broadcast fdiv.

(** [addStrict], [mulStrict]: element-wise, on equal shapes only. *)
Definition t_strict (f : F -> F -> F) (a b : Tensor) : res Tensor :=
  if decide (shape a = shape b)
  then Ok (mkTensor (shape a) (F32 (tabulate (size a) (fun k => f (at_ a k) (at_ b k)))))
  else Throw ShapeError.

Definition t_addStrict : Tensor -> Tensor -> res Tensor := t_strict fadd.
Definition t_mulStrict : Tensor -> Tensor -> res Tensor := t_strict fmul.

(** [sigmoid], [tanh], [toFloat]. *)
Definition t_map (f : F -> F) (t : Tensor) : Tensor :=
  mkTensor (shape t) (F32 (tabulate (size t) (fun k => f (at_ t k)))).
Definition t_sigmoid : Tensor -> Tensor := t_map fsigmoid.
Definition t_tanh : Tensor -> Tensor := t_map ftanh.
Definition t_toFloat (t : Tensor) : Tensor := mkTensor (shape t) (F32 (floats t)).

(** Modelled from the spec: [t.argMax(1)] on a rank 2 tensor selects, per
    row, "the index of the maximum logit" (section 4.3): the first largest
    element (the running maximum starts at column 0 and is replaced on
    [value > max]). *)
Fixpoint argmax_from (l : list F) (j : nat) (best : F) (bi : nat) : nat :=
  match l with
  | [] => bi
  | x :: l' => if fgtb x best then argmax_from l' (S j) x j else argmax_from l' (S j) best bi
  end.

Definition argmax_row (l : list F) : nat :=
  match l with
  | [] => 0
  | x :: l' => argmax_from l' 1 x 0
  end.

Definition row (t : Tensor) (c i : nat) : list F := tabulate c (fun j => at_ t (i * c + j)).

Definition t_argMax (t : Tensor) : res Tensor :=
  match shape t with
  | [r; c] => Ok (mkTensor [r] (I32 (tabulate r (fun i => Z.of_nat (argmax_row (row t c i))))))
  | _ => Throw ShapeError
  end.

(** Modelled from the spec: [dl.multinomial(logits, numSamples)] draws "one
    index from the induced categorical distribution" (section 4.3), here with
    the random number [u] of the draw: at least two outcomes are required;
    the logits are normalised by [softmax], the cumulative distribution over
    all events but the last is built, and the first event whose cumulative
    probability exceeds [u] is taken, the last event by default. *)
Fixpoint cumsum (acc : F) (l : list F) : list F :=
  match l with
  | [] => []
  | x :: l' => let a := fadd acc x in a :: cumsum a l'
  end.

Definition cdf (probs : list F) : list F :=
  match probs with
  | [] => []
  | p :: rest => firstn (length probs - 1) (p :: cumsum p rest)
  end.

Fixpoint pick_event (cdf : list F) (u : F) (event last : nat) : nat :=
  match cdf with
  | [] => last
  | p :: cdf' => if fltb u p then event else pick_event cdf' u (S event) last
  end.

Definition draw (logits : list F) (u : F) : nat :=
  let probs := firstn (length logits) (softmax logits) in
  pick_event (cdf probs) u 0 (length logits - 1).

Definition t_multinomial (t : Tensor) (numSamples : nat) (u : F) : res Tensor :=
  if size t <? 2 then Throw ShapeError
  else
    match shape t with
    | [b; n] =>
        Ok (mkTensor [b; numSamples]
              (I32 (tabulate2 b numSamples (fun i _ => Z.of_nat (draw (row t n i) u)))))
    | [n] =>
        Ok (mkTensor [numSamples]
              (I32 (tabulate numSamples (fun _ => Z.of_nat (draw (row t n 0) u)))))
    | _ => Throw ShapeError
    end.

(** Modelled from the spec: [dl.oneHot(indices, depth)] encodes an index "as
    a one-hot row vector" of the given width (section 4.3): one row per index,
    with a one in the column of the index when it is below [depth]. *)
Definition t_oneHot (indices : Tensor) (depth : nat) : res Tensor :=
  match shape indices with
  | [n] =>
      Ok (mkTensor [n; depth]
            (F32 (tabulate2 n depth (fun i j =>
                    if (Z.of_nat j =? nth i (ints indices) 0%Z)%Z then of_int 1 else of_int 0))))
  | _ => Throw ShapeError
  end.

End Tensors.

(** ** The heap of tensor objects

    Modelled from the spec: tensor objects and their disposal belong to the
    tensor library, whose code is not among the sources; after disposal any
    further read of a tensor fails (sections 4.1 and 7).  Every operation of
    the library returns a new tensor object; an existing one changes only when
    it is disposed.  A reference is the position of the object in the heap. *)
Section Heap.
Context {F : Type} {NF : Numeric F}.

Record TensorObj : Type := mkObj { tval : Tensor (F := F); isDisposed : bool }.

#[local] Abbreviation ref := nat.
#[local] Abbreviation Heap := (list TensorObj).

(** Computations that read and extend the heap and may throw. *)
Definition M (A : Type) : Type := Heap -> res A * Heap.

Definition ret {A} (a : A) : M A := fun w => (Ok a, w).
Definition throw {A} (e : error) : M A := fun w => (Throw e, w).
Definition lift {A} (x : res A) : M A := fun w => (x, w).
Definition bind {A B} (m : M A) (k : A -> M B) : M B :=
  fun w =>
    match m w with
    | (Ok a, w') => k a w'
    | (Throw e, w') => (Throw e, w')
    end.

Definition alloc (t : Tensor) : M ref :=
  fun w => (Ok (length w), w ++ [mkObj t false]).

(** Reading the elements of a tensor checks that it is not disposed. *)
Definition read (r : ref) : M Tensor :=
  fun w =>
    match w !! r with
    | Some o => if isDisposed o then (Throw TensorDisposed, w) else (Ok (tval o), w)
    | None => (Throw TypeError, w)
    end.

(** [t.shape] is a plain property: it is readable after disposal too. *)
Definition shapeOf (r : ref) : M (list nat) :=
  fun w =>
    match w !! r with
    | Some o => (Ok (shape (tval o)), w)
    | None => (Throw TypeError, w)
    end.

(** [t.dispose()]. *)
Definition tensor_dispose (r : ref) : M unit :=
  fun w => (Ok tt, alter (fun o => mkObj (tval o) true) r w).

End Heap.

(** A reference is a position in the heap, a list of tensor objects. *)
Abbreviation ref := nat.
Abbreviation Heap := (list TensorObj).

Notation "x <- m ;; k" := (bind m (fun x => k))
  (at level 20, m at level 99, k at level 200, only parsing).
Notation "' p <- m ;; k" := (bind m (fun p => k))
  (at level 20, p pattern, m at level 99, k at level 200, only parsing).

Section Library.
Context {F : Type} {NF : Numeric F}.

#[local] Abbreviation Tensor := (Tensor (F := F)).
#[local] Abbreviation M := (M (F := F)).

Definition op1 (f : Tensor -> res Tensor) (a : ref) : M ref :=
  x <- read a;; v <- lift (f x);; alloc v.

Definition op2 (f : Tensor -> Tensor -> res Tensor) (a b : ref) : M ref :=
  x <- read a;; y <- read b;; v <- lift (f x y);; alloc v.

Definition dl_scalar (x : F) : M ref := alloc (t_scalar x).
Definition dl_zeros (s : list nat) : M ref := alloc (t_zeros s).
Definition slice (a : ref) (b0 b1 s0 s1 : nat) : M ref := op1 (fun t => t_slice t b0 b1 s0 s1) a.
Definition as2D (a : ref) (r c : nat) : M ref := op1 (fun t => t_as2D t r c) a.
Definition as1D : ref -> M ref := op1 t_as1D.
Definition asScalar : ref -> M ref := op1 t_asScalar.
Definition matMul : ref -> ref -> M ref := op2 t_matMul.
Definition concat : ref -> ref -> M ref := op2 t_concat.
Definition add : ref -> ref -> M ref := op2 t_add.
Definition div : ref -> ref -> M ref := op2 t_div.
Definition addStrict : ref -> ref -> M ref := op2 t_addStrict.
Definition mulStrict : ref -> ref -> M ref := op2 t_mulStrict.
Definition sigmoid : ref -> M ref := op1 (fun t => Ok (t_sigmoid t)).
Definition tanh : ref -> M ref := op1 (fun t => Ok (t_tanh t)).
Definition toFloat : ref -> M ref := op1 (fun t => Ok (t_toFloat t)).
Definition argMax : ref -> M ref := op1 t_argMax.
Definition multinomial (a : ref) (numSamples : nat) (u : F) : M ref :=
  op1 (fun t => t_multinomial t numSamples u) a.
Definition oneHot (a : ref) (depth : nat) : M ref := op1 (fun t => t_oneHot t depth) a.

(** [await t.data()]: the elements, as numbers. *)
Definition data (a : ref) : M (list Z) := x <- read a;; ret (ints x).

(** A field or array slot that may hold [undefined]: using it as an object
    throws. *)
Definition field {A} (v : option A) : M A :=
  match v with
  | Some a => ret a
  | None => throw TypeError
  end.

Definition index {A} (l : list A) (i : nat) : M A := field (l !! i).

(** [t.shape[k]]; the declared ranks ([Tensor1D], [Tensor2D]) say that the
    dimension exists, and a tensor of lower rank is rejected. *)
Definition dim (r : ref) (k : nat) : M nat :=
  s <- shapeOf r;;
  match s !! k with
  | Some d => ret d
  | None => throw ShapeError
  end.

(** [dl.zeros([1, n / 4])]: the quotient is a JavaScript number; when it is
    not an integer the size assertion of the tensor constructor fails. *)
Definition zeros_row_quarter (n : nat) : M ref :=
  if n mod 4 =? 0 then dl_zeros [1; n / 4] else throw ShapeError.

Fixpoint forM {A B} (l : list A) (f : A -> M B) : M (list B) :=
  match l with
  | [] => ret []
  | a :: l' => b <- f a;; bs <- forM l' f;; ret (b :: bs)
  end.

Fixpoint forEach {A} (l : list A) (f : A -> M unit) : M unit :=
  match l with
  | [] => ret tt
  | a :: l' => _ <- f a;; forEach l' f
  end.

(** *** The recurrent cell of the tensor library *)

(** Modelled from the spec: [dl.basicLSTMCell] is a function of the tensor
    library, whose code is not among the sources; it is written here from
    the five steps of the spec's section 4.2 (concatenate the input and the
    hidden state, multiply by the kernel and add the bias, split the gates
    into [i], [j], [f], [o], then [c' = c * sigmoid(f + forget_bias) +
    sigmoid(i) * tanh(j)] and [h' = tanh(c') * sigmoid(o)]). *)
Definition basicLSTMCell (forgetBias : ref) (lstmKernel lstmBias : option ref)
    (data c h : ref) : M (ref * ref) :=
  combined <- concat data h;;
  kernel <- field lstmKernel;;
  weighted <- matMul combined kernel;;
  bias <- field lstmBias;;
  gates <- add weighted bias;;
  batchSize <- dim gates 0;;
  width <- dim gates 1;;
  let sliceCols := width / 4 in
  i <- slice gates 0 0 batchSize sliceCols;;
  j <- slice gates 0 sliceCols batchSize sliceCols;;
  f <- slice gates 0 (sliceCols * 2) batchSize sliceCols;;
  o <- slice gates 0 (sliceCols * 3) batchSize sliceCols;;
  fb <- add f forgetBias;;
  keep <- sigmoid fb;;
  kept <- mulStrict c keep;;
  si <- sigmoid i;;
  tj <- tanh j;;
  fresh <- mulStrict si tj;;
  newC <- addStrict kept fresh;;
  tc <- tanh newC;;
  so <- sigmoid o;;
  newH <- mulStrict tc so;;
  ret (newC, newH).

Definition LSTMCell : Type := ref -> ref -> ref -> M (ref * ref).

(** Modelled from the spec: [dl.multiRNNCell] is a function of the tensor
    library, whose code is not among the sources; following section 4.2,
    the first cell consumes the input frame and its own [(c, h)], every next
    cell consumes the new hidden state of the cell before it and its own
    [(c, h)], and the new states of all cells are returned. *)
Fixpoint multiRNNCell_from (lstmCells : list LSTMCell) (i : nat) (input : ref)
    (c h : list ref) : M (list ref * list ref) :=
  match lstmCells with
  | [] => ret ([], [])
  | cell :: rest =>
      ci <- index c i;;
      hi <- index h i;;
      '(newC, newH) <- cell input ci hi;;
      '(cs, hs) <- multiRNNCell_from rest (S i) newH c h;;
      ret (newC :: cs, newH :: hs)
  end.

Definition multiRNNCell (lstmCells : list LSTMCell) (data : ref) (c h : list ref) :
    M (list ref * list ref) :=
  multiRNNCell_from lstmCells 0 data c h.

End Library.

(** ** The melody converter and the random source

    Both are collaborators of the class: the converter turns a note sequence
    into its one-hot tensor or throws, and each draw of [dl.multinomial]
    consumes one random number. *)
Record INote : Type := mkNote {
  pitch : Z;
  quantizedStartStep : option Z;
  quantizedEndStep : option Z;
}.

Record INoteSequence : Type := mkSequence {
  notes : list INote;
  totalQuantizedSteps : option Z;
}.

(** [new magenta.data.MelodyConverter(numSteps, minPitch, maxPitch)]. *)
Record MelodyConverter : Type := mkMelodyConverter {
  numSteps : option Z;
  minPitch : Z;
  maxPitch : Z;
}.

Record Env (F : Type) {NF : Numeric F} : Type := mkEnv {
  (* [converter.toTensor(sequence)]: the message of the error thrown, or the tensor *)
  toTensor : MelodyConverter -> INoteSequence -> string + Tensor (F := F);
  (* the random number of the [k]-th draw of a call *)
  random : nat -> F;
}.
Arguments Env F {NF}.
Arguments toTensor {F NF} _ _ _.
Arguments random {F NF} _ _.

(** ** The class [MelodyRnn] *)

Definition CHECKPOINT_URL : string :=
  "https://storage.googleapis.com/download.magenta.tensorflow.org/models/music_rnn/dljs/basic_rnn/manifest.json".

Definition DEFAULT_MIN_NOTE : Z := 48.
Definition DEFAULT_MAX_NOTE : Z := 84.

(** The fields of an instance; a field that was never assigned holds
    [undefined]. *)
Record MelodyRnn : Type := mkMelodyRnn {
  checkpointURL : string;
  rawVars : option (gmap string ref);
  lstmKernel1 : option ref;
  lstmBias1 : option ref;
  lstmKernel2 : option ref;
  lstmBias2 : option ref;
  lstmFcB : option ref;
  lstmFcW : option ref;
}.

(** [constructor(checkpointURL = CHECKPOINT_URL)]. *)
Definition new_MelodyRnn (url : option string) : MelodyRnn :=
  {| checkpointURL := default CHECKPOINT_URL url;
     rawVars := None;
     lstmKernel1 := None; lstmBias1 := None;
     lstmKernel2 := None; lstmBias2 := None;
     lstmFcB := None; lstmFcW := None |}.

(** [initialize()], given the variables [vars] that the checkpoint loader
    returned: the six model variables are looked up by name; [rawVars] is not
    assigned. *)
Definition initialize (this : MelodyRnn) (vars : gmap string ref) : MelodyRnn :=
  {| checkpointURL := checkpointURL this;
     rawVars := rawVars this;
     lstmKernel1 := vars !! "RNN/MultiRNNCell/Cell0/BasicLSTMCell/Linear/Matrix";
     lstmBias1 := vars !! "RNN/MultiRNNCell/Cell0/BasicLSTMCell/Linear/Bias";
     lstmKernel2 := vars !! "RNN/MultiRNNCell/Cell1/BasicLSTMCell/Linear/Matrix";
     lstmBias2 := vars !! "RNN/MultiRNNCell/Cell1/BasicLSTMCell/Linear/Bias";
     lstmFcB := vars !! "fully_connected/biases";
     lstmFcW := vars !! "fully_connected/weights" |}.

Section Model.
Context {F : Type} {NF : Numeric F}.

#[local] Abbreviation M := (M (F := F)).

(** [dispose()]: [Object.keys(this.rawVars)] throws on [undefined];
    otherwise every tensor of [rawVars] is disposed. *)
Definition dispose (this : MelodyRnn) : M unit :=
  match rawVars this with
  | None => throw TypeError
  | Some vars =>
      forEach (map_to_list vars).*1
        (fun name => r <- field (vars !! name);; tensor_dispose r)
  end.

(** [converter.toTensor(sequence)], the new tensor put on the heap. *)
Definition converter_toTensor (env : Env F) (converter : MelodyConverter)
    (sequence : INoteSequence) : M ref :=
  match toTensor env converter sequence with
  | inl msg => throw (ConversionError msg)
  | inr t => alloc t
  end.

(** The two arms of the choice of the next index. *)
Definition stochastic (u : F) (t : number) (logits : ref) : M ref :=
  s <- dl_scalar (of_number t);;
  scaled <- div logits s;;
  drawn <- multinomial scaled 1 u;;
  as1D drawn.

Definition greedy (logits : ref) : M ref :=
  best <- argMax logits;;
  as1D best.

(** [temperature ? dl.multinomial(logits.div(dl.scalar(temperature)), 1).as1D()
                 : logits.argMax(1).as1D()]. *)
Definition sampledOutput (u : F) (temperature : option number) (logits : ref) : M ref :=
  if truthy temperature
  then match temperature with
       | Some t => stochastic u t logits
       | None => greedy logits
       end
  else greedy logits.

Section Loop.
Variables (rnd : nat -> F) (this : MelodyRnn) (temperature : option number).
Variables (forgetBias inputs : ref) (length outputSize : nat).

Definition lstm1 : LSTMCell := fun data c h =>
  basicLSTMCell forgetBias (lstmKernel1 this) (lstmBias1 this) data c h.
Definition lstm2 : LSTMCell := fun data c h =>
  basicLSTMCell forgetBias (lstmKernel2 this) (lstmBias2 this) data c h.

(** The input of step [i] and the samples after it. *)
Definition nextInput (i : nat) (h samples : list ref) : M (ref * list ref) :=
  if i <? length then
    row <- slice inputs i 0 1 outputSize;;
    x <- as2D row 1 outputSize;;
    ret (x, samples)
  else
    top <- index h 1;;
    fcW <- field (lstmFcW this);;
    projected <- matMul top fcW;;
    fcB <- field (lstmFcB this);;
    logits <- add projected fcB;;
    sampled <- sampledOutput (rnd (i - length)) temperature logits;;
    hot <- oneHot sampled outputSize;;
    x <- toFloat hot;;
    sample <- asScalar sampled;;
    ret (x, samples ++ [sample]).

(** [for (let i = 0; i < length + steps; i++) { ... }]: [n] is the number of
    iterations left. *)
Fixpoint generate (n i : nat) (c h samples : list ref) : M (list ref) :=
  match n with
  | O => ret samples
  | S n' =>
      '(x, samples') <- nextInput i h samples;;
      '(newC, newH) <- multiRNNCell [lstm1; lstm2] x c h;;
      generate n' (S i) newC newH samples'
  end.

End Loop.

(** [(await sample.data())[0]]: the one element of a scalar tensor.  (On an
    empty array the element would be [undefined]; [asScalar] has asserted
    that there is exactly one.) *)
Definition first_value (sample : ref) : M Z :=
  d <- data sample;;
  field (d !! 0).

(** [continueSequence(sequence, steps, temperature?)], with the awaited
    operations in sequence; [steps] is the integer count of extra steps, and
    the loop runs [length + steps] times when that is positive. *)
Definition continueSequence (env : Env F) (this : MelodyRnn)
    (sequence : INoteSequence) (steps : Z) (temperature : option number) : M (list Z) :=
  let converter :=
    mkMelodyConverter (totalQuantizedSteps sequence) DEFAULT_MIN_NOTE DEFAULT_MAX_NOTE in
  inputs <- converter_toTensor env converter sequence;;
  forgetBias <- dl_scalar (of_number 1%float);;
  length <- dim inputs 0;;
  outputSize <- dim inputs 1;;
  b1 <- field (lstmBias1 this);; n1 <- dim b1 0;; c0 <- zeros_row_quarter n1;;
  b2 <- field (lstmBias2 this);; n2 <- dim b2 0;; c1 <- zeros_row_quarter n2;;
  b1' <- field (lstmBias1 this);; n1' <- dim b1' 0;; h0 <- zeros_row_quarter n1';;
  b2' <- field (lstmBias2 this);; n2' <- dim b2' 0;; h1 <- zeros_row_quarter n2';;
  samples <- generate (random env) this temperature forgetBias inputs length outputSize
               (Z.to_nat (Z.of_nat length + steps)) 0 [c0; c1] [h0; h1] [];;
  forM samples first_value.

(** The part of [continueSequence] that follows the conversion, to state
    what can fail where. *)
Definition after_conversion (env : Env F) (this : MelodyRnn) (steps : Z)
    (temperature : option number) (inputs : ref) : M (list Z) :=
  forgetBias <- dl_scalar (of_number 1%float);;
  length <- dim inputs 0;;
  outputSize <- dim inputs 1;;
  b1 <- field (lstmBias1 this);; n1 <- dim b1 0;; c0 <- zeros_row_quarter n1;;
  b2 <- field (lstmBias2 this);; n2 <- dim b2 0;; c1 <- zeros_row_quarter n2;;
  b1' <- field (lstmBias1 this);; n1' <- dim b1' 0;; h0 <- zeros_row_quarter n1';;
  b2' <- field (lstmBias2 this);; n2' <- dim b2' 0;; h1 <- zeros_row_quarter n2';;
  samples <- generate (random env) this temperature forgetBias inputs length outputSize
               (Z.to_nat (Z.of_nat length + steps)) 0 [c0; c1] [h0; h1] [];;
  forM samples first_value.

End Model.

(** ** The values computed by a call

    The same program on tensor values, without the heap: what a call
    computes from the values of the parameter tensors, of the encoded melody
    and of the random draws.  The theorems relate [continueSequence] to it. *)
Section Values.
Context {F : Type} {NF : Numeric F}.

#[local] Abbreviation Tensor := (Tensor (F := F)).

Definition fieldR {A} (v : option A) : res A :=
  match v with
  | Some a => Ok a
  | None => Throw TypeError
  end.

Definition dimR (t : Tensor) (k : nat) : res nat :=
  match shape t !! k with
  | Some d => Ok d
  | None => Throw ShapeError
  end.

Definition zeros_row_quarterR (n : nat) : res Tensor :=
  if n mod 4 =? 0 then Ok (t_zeros [1; n / 4]) else Throw ShapeError.

Definition basicLSTMCell_val (forgetBias : Tensor) (lstmKernel lstmBias : option Tensor)
    (data c h : Tensor) : res (Tensor * Tensor) :=
  combined <~ t_concat data h;;
  kernel <~ fieldR lstmKernel;;
  weighted <~ t_matMul combined kernel;;
  bias <~ fieldR lstmBias;;
  gates <~ t_add weighted bias;;
  batchSize <~ dimR gates 0;;
  width <~ dimR gates 1;;
  let sliceCols := width / 4 in
  i <~ t_slice gates 0 0 batchSize sliceCols;;
  j <~ t_slice gates 0 sliceCols batchSize sliceCols;;
  f <~ t_slice gates 0 (sliceCols * 2) batchSize sliceCols;;
  o <~ t_slice gates 0 (sliceCols * 3) batchSize sliceCols;;
  fb <~ t_add f forgetBias;;
  kept <~ t_mulStrict c (t_sigmoid fb);;
  fresh <~ t_mulStrict (t_sigmoid i) (t_tanh j);;
  newC <~ t_addStrict kept fresh;;
  newH <~ t_mulStrict (t_tanh newC) (t_sigmoid o);;
  Ok (newC, newH).

Definition LSTMCell_val : Type := Tensor -> Tensor -> Tensor -> res (Tensor * Tensor).

Fixpoint multiRNNCell_val_from (lstmCells : list LSTMCell_val) (i : nat) (input : Tensor)
    (c h : list Tensor) : res (list Tensor * list Tensor) :=
  match lstmCells with
  | [] => Ok ([], [])
  | cell :: rest =>
      ci <~ fieldR (c !! i);;
      hi <~ fieldR (h !! i);;
      '(newC, newH) <~ cell input ci hi;;
      '(cs, hs) <~ multiRNNCell_val_from rest (S i) newH c h;;
      Ok (newC :: cs, newH :: hs)
  end.

Definition multiRNNCell_val (lstmCells : list LSTMCell_val) (data : Tensor)
    (c h : list Tensor) : res (list Tensor * list Tensor) :=
  multiRNNCell_val_from lstmCells 0 data c h.

(** The values of the six parameter tensors of an instance ([None] for a
    field that holds [undefined]). *)
Record Weights : Type := mkWeights {
  kernel1_val : option Tensor;
  bias1_val : option Tensor;
  kernel2_val : option Tensor;
  bias2_val : option Tensor;
  fcB_val : option Tensor;
  fcW_val : option Tensor;
}.

Definition stochastic_val (u : F) (t : number) (logits : Tensor) : res Tensor :=
  scaled <~ t_div logits (t_scalar (of_number t));;
  drawn <~ t_multinomial scaled 1 u;;
  t_as1D drawn.

Definition greedy_val (logits : Tensor) : res Tensor :=
  best <~ t_argMax logits;;
  t_as1D best.

Definition sampledOutput_val (u : F) (temperature : option number) (logits : Tensor) :
    res Tensor :=
  if truthy temperature
  then match temperature with
       | Some t => stochastic_val u t logits
       | None => greedy_val logits
       end
  else greedy_val logits.

Section LoopValues.
Variables (rnd : nat -> F) (P : Weights) (temperature : option number).
Variables (forgetBias inputs : Tensor) (length outputSize : nat).

Definition lstm1_val : LSTMCell_val :=
  basicLSTMCell_val forgetBias (kernel1_val P) (bias1_val P).
Definition lstm2_val : LSTMCell_val :=
  basicLSTMCell_val forgetBias (kernel2_val P) (bias2_val P).

Definition nextInput_val (i : nat) (h samples : list Tensor) : res (Tensor * list Tensor) :=
  if i <? length then
    row <~ t_slice inputs i 0 1 outputSize;;
    x <~ t_as2D row 1 outputSize;;
    Ok (x, samples)
  else
    top <~ fieldR (h !! 1);;
    fcW <~ fieldR (fcW_val P);;
    projected <~ t_matMul top fcW;;
    fcB <~ fieldR (fcB_val P);;
    logits <~ t_add projected fcB;;
    sampled <~ sampledOutput_val (rnd (i - length)) temperature logits;;
    hot <~ t_oneHot sampled outputSize;;
    sample <~ t_asScalar sampled;;
    Ok (t_toFloat hot, samples ++ [sample]).

Fixpoint generate_val (n i : nat) (c h samples : list Tensor) : res (list Tensor) :=
  match n with
  | O => Ok samples
  | S n' =>
      '(x, samples') <~ nextInput_val i h samples;;
      '(newC, newH) <~ multiRNNCell_val [lstm1_val; lstm2_val] x c h;;
      generate_val n' (S i) newC newH samples'
  end.

End LoopValues.

Fixpoint forR {A B} (l : list A) (f : A -> res B) : res (list B) :=
  match l with
  | [] => Ok []
  | a :: l' => b <~ f a;; bs <~ forR l' f;; Ok (b :: bs)
  end.

Definition first_value_val (sample : Tensor) : res Z := fieldR (ints sample !! 0).

(** The result of a call on the values, once the melody is encoded as
    [inputs]. *)
Definition continue_from (env : Env F) (P : Weights) (inputs : Tensor) (steps : Z)
    (temperature : option number) : res (list Z) :=
  let forgetBias := t_scalar (of_number 1%float) in
  length <~ dimR inputs 0;;
  outputSize <~ dimR inputs 1;;
  b1 <~ fieldR (bias1_val P);; n1 <~ dimR b1 0;; c0 <~ zeros_row_quarterR n1;;
  b2 <~ fieldR (bias2_val P);; n2 <~ dimR b2 0;; c1 <~ zeros_row_quarterR n2;;
  b1' <~ fieldR (bias1_val P);; n1' <~ dimR b1' 0;; h0 <~ zeros_row_quarterR n1';;
  b2' <~ fieldR (bias2_val P);; n2' <~ dimR b2' 0;; h1 <~ zeros_row_quarterR n2';;
  samples <~ generate_val (random env) P temperature forgetBias inputs length outputSize
               (Z.to_nat (Z.of_nat length + steps)) 0 [c0; c1] [h0; h1] [];;
  forR samples first_value_val.

Definition continueSequence_val (env : Env F) (P : Weights) (sequence : INoteSequence)
    (steps : Z) (temperature : option number) : res (list Z) :=
  match toTensor env
          (mkMelodyConverter (totalQuantizedSteps sequence) DEFAULT_MIN_NOTE DEFAULT_MAX_NOTE)
          sequence with
  | inl msg => Throw (ConversionError msg)
  | inr inputs => continue_from env P inputs steps temperature
  end.

(** *** The transition of one layer, on vectors

    The classic gated transition as the spec's section 4.2 words it, on the
    row vectors themselves: [x] the input, [h] and [c] the previous hidden and
    cell state, [K] the kernel with [n] columns, [b] the bias. *)
Definition lstm_gates (K b : Tensor) (n : nat) (x h : list F) : list F :=
  let xh := x ++ h in
  tabulate n (fun j =>
    fadd (dot (List.length xh) (fun l => nth l xh (of_int 0)) (fun l => at_ K (l * n + j)))
         (at_ b j)).

Definition lstm_transition (forget_bias : F) (K b : Tensor) (hidden : nat)
    (x c h : list F) : list F * list F :=
  let gates := lstm_gates K b (4 * hidden) x h in
  let i := take hidden gates in
  let j := take hidden (drop hidden gates) in
  let f := take hidden (drop (2 * hidden) gates) in
  let o := take hidden (drop (3 * hidden) gates) in
  let c' := zip_with fadd
              (zip_with fmul c (map fsigmoid (map (fun y => fadd y forget_bias) f)))
              (zip_with fmul (map fsigmoid i) (map ftanh j)) in
  let h' := zip_with fmul (map ftanh c') (map fsigmoid o) in
  (c', h').

(** A row vector as a tensor of shape [[1, n]]. *)
Definition row_tensor (v : list F) : Tensor := mkTensor [1; List.length v] (F32 v).

End Values.

(** ** Relating a call to its values *)
Section Relation.
Context {F : Type} {NF : Numeric F}.

#[local] Abbreviation Tensor := (Tensor (F := F)).
#[local] Abbreviation Heap := (list (TensorObj (F := F))).
#[local] Abbreviation M := (M (F := F)).

(** The reference [r] holds a live tensor of value [v]. *)
Definition val (w : Heap) (r : ref) (v : Tensor) : Prop :=
  w !! r = Some (mkObj v false).

(** [w'] is [w] with new objects after it. *)
Definition extends (w w' : Heap) : Prop := exists l, w' = w ++ l.

(** A field of the instance and its value: both [undefined], or a live
    tensor of that value. *)
Definition agree (w : Heap) (o : option ref) (ov : option Tensor) : Prop :=
  match o, ov with
  | Some r, Some v => val w r v
  | None, None => True
  | _, _ => False
  end.

(** The parameter fields of [this] hold the values [P] in the heap [w]. *)
Definition holds (w : Heap) (this : MelodyRnn) (P : Weights) : Prop :=
  agree w (lstmKernel1 this) (kernel1_val P) /\
  agree w (lstmBias1 this) (bias1_val P) /\
  agree w (lstmKernel2 this) (kernel2_val P) /\
  agree w (lstmBias2 this) (bias2_val P) /\
  agree w (lstmFcB this) (fcB_val P) /\
  agree w (lstmFcW this) (fcW_val P).

(** From the heap [w], the computation [m] extends the heap and ends as the
    value-level result [p] does: with the same error, or with results related
    by [R] in the final heap. *)
Definition sim {A B} (w : Heap) (R : Heap -> A -> B -> Prop) (m : M A) (p : res B) : Prop :=
  extends w (snd (m w)) /\
  match fst (m w), p with
  | Ok a, Ok b => R (snd (m w)) a b
  | Throw e, Throw e' => e = e'
  | _, _ => False
  end.

(** The computation [m] only adds objects to the heap, whatever the heap and
    whether it returns or throws. *)
Definition grows {A} (m : M A) : Prop := forall w, extends w (snd (m w)).

(** The result [r] is not an error of the converter. *)
Definition no_conversion_error {A} (r : res A) : Prop :=
  forall msg, r <> Throw (ConversionError msg).

(** The computation [m] only adds objects to the heap and never ends with an
    error of the converter. *)
Definition tame {A} (m : M A) : Prop :=
  forall w, extends w (snd (m w)) /\ no_conversion_error (fst (m w)).

Definition same {A} (_ : Heap) (a b : A) : Prop := a = b.
Definition vals (w : Heap) (rs : list ref) (vs : list Tensor) : Prop := Forall2 (val w) rs vs.
Definition val2 (w : Heap) (rs : ref * ref) (vs : Tensor * Tensor) : Prop :=
  val w rs.1 vs.1 /\ val w rs.2 vs.2.
Definition vals2 (w : Heap) (rs : list ref * list ref) (vs : list Tensor * list Tensor) : Prop :=
  vals w rs.1 vs.1 /\ vals w rs.2 vs.2.
Definition val_vals (w : Heap) (rs : ref * list ref) (vs : Tensor * list Tensor) : Prop :=
  val w rs.1 vs.1 /\ vals w rs.2 vs.2.

(** A heap-level cell and a value-level cell compute the same, in every heap
    that extends [w0]. *)
Definition cell_sim (w0 : Heap) (cell : LSTMCell) (cellv : LSTMCell_val) : Prop :=
  forall w x xv c cv h hv,
    extends w0 w -> val w x xv -> val w c cv -> val w h hv ->
    sim w val2 (cell x c h) (cellv xv cv hv).

(** ** Shapes *)

(** The field holds a tensor of shape [s]. *)
Definition has_shape (o : option Tensor) (s : list nat) : Prop :=
  exists t, o = Some t /\ shape t = s.

(** The shapes of the two recurrent layers fit input frames of width [V] and
    hidden sizes [H1] and [H2]. *)
Definition LayersShaped (P : Weights) (V H1 H2 : nat) : Prop :=
  has_shape (kernel1_val P) [V + H1; 4 * H1] /\
  has_shape (bias1_val P) [4 * H1] /\
  has_shape (kernel2_val P) [H1 + H2; 4 * H2] /\
  has_shape (bias2_val P) [4 * H2].

(** Moreover the projection maps the top hidden state to [V'] logits, at
    least two. *)
Definition WellShaped (P : Weights) (V H1 H2 V' : nat) : Prop :=
  LayersShaped P V H1 H2 /\
  has_shape (fcW_val P) [H2; V'] /\
  has_shape (fcB_val P) [V'] /\
  2 <= V'.

(** A tensor of shape [[1, n]] with its [n] elements. *)
Definition is_row (t : Tensor) (n : nat) : Prop :=
  shape t = [1; n] /\ List.length (floats t) = n.

(** The recurrent state of the two layers: rows of the hidden sizes. *)
Definition state_ok (H1 H2 : nat) (c h : list Tensor) : Prop :=
  exists c1 c2 h1 h2,
    c = [c1; c2] /\ h = [h1; h2] /\
    is_row c1 H1 /\ is_row c2 H2 /\ is_row h1 H1 /\ is_row h2 H2.

(** A sample: a scalar index tensor holding an index below [bound]. *)
Definition is_sample (bound : nat) (t : Tensor) : Prop :=
  exists k, k < bound /\ t = mkTensor [] (I32 [Z.of_nat k]).

(** The transition of the two stacked layers on vectors: the first layer
    consumes the input frame, the second the new hidden state of the first. *)
Definition stacked_transition (forget_bias : F) (K1 b1 K2 b2 : Tensor) (H1 H2 : nat)
    (x c1 h1 c2 h2 : list F) : (list F * list F) * (list F * list F) :=
  let s1 := lstm_transition forget_bias K1 b1 H1 x c1 h1 in
  let s2 := lstm_transition forget_bias K2 b2 H2 s1.2 c2 h2 in
  (s1, s2).

End Relation.

(** ** The recurrence of the spec

    The generation loop as the spec's sections 4.2 to 4.4 word it, on the row
    vectors themselves and without tensors or a heap, to be compared with
    what a call computes: per step, the input frame is a row of the encoded
    melody or the one-hot row of the index chosen from the logits of the top
    hidden state, and the two stacked layers advance on it.  The names in
    [spec_] follow the spec, not the source. *)
Section Recurrence.
Context {F : Type} {NF : Numeric F}.

#[local] Abbreviation Tensor := (Tensor (F := F)).

(** The index that the ternary of the source chooses, on the vector of
    logits and with the random number [u] of the draw. *)
Definition chosen_index (u : F) (temperature : option number) (logits : list F) : nat :=
  if truthy temperature
  then match temperature with
       | Some t => draw (map (fun x => fdiv x (of_number t)) logits) u
       | None => argmax_row logits
       end
  else argmax_row logits.

(** A sample as the loop keeps it: a scalar index tensor. *)
Definition sample_tensor (k : nat) : Tensor := mkTensor [] (I32 [Z.of_nat k]).

Section SpecLoop.
Variables (forget_bias : F) (K1 b1 K2 b2 fcW fcB inputs : Tensor).
Variables (H1 H2 V V' L : nat).
(* the index chosen at the [k]-th self-feeding step, from the logits *)
Variable pick : nat -> list F -> nat.

(** Row [i] of the encoded melody. *)
Definition spec_frame (i : nat) : list F := tabulate V (fun j => at_ inputs (i * V + j)).

(** The one-hot row of vocabulary width for the index [k]. *)
Definition spec_one_hot (k : nat) : list F :=
  tabulate V (fun j => if j =? k then of_int 1 else of_int 0).

(** [logits = h_last * W_fc + b_fc]. *)
Definition spec_logits (h : list F) : list F :=
  tabulate V' (fun j =>
    fadd (dot H2 (fun l => nth l h (of_int 0)) (fun l => at_ fcW (l * V' + j))) (at_ fcB j)).

(** One time step of the two stacked layers, from the state
    [((c1, h1), (c2, h2))]. *)
Definition spec_step (x : list F) (st : (list F * list F) * (list F * list F)) :
    (list F * list F) * (list F * list F) :=
  stacked_transition forget_bias K1 b1 K2 b2 H1 H2 x st.1.1 st.1.2 st.2.1 st.2.2.

(** The state machine of section 4.4: teacher forcing below [L], self-feeding
    from [L] on, where the chosen index is appended to the result. *)
Fixpoint spec_loop (n i : nat) (st : (list F * list F) * (list F * list F))
    (samples : list nat) : list nat :=
  match n with
  | O => samples
  | S n' =>
      if i <? L then spec_loop n' (S i) (spec_step (spec_frame i) st) samples
      else
        let k := pick (i - L) (spec_logits st.2.2) in
        spec_loop n' (S i) (spec_step (spec_one_hot k) st) (samples ++ [k])
  end.

(** A generation call: all-zero state, [L + steps] time steps. *)
Definition spec_continue (steps : Z) : list nat :=
  spec_loop (Z.to_nat (Z.of_nat L + steps)) 0
    ((repeat (of_int 0) H1, repeat (of_int 0) H1),
     (repeat (of_int 0) H2, repeat (of_int 0) H2))
    [].

End SpecLoop.

End Recurrence.

(** ** A backend to run the model on concrete inputs

    Binary64 arithmetic, with rational stand-ins for the transcendental
    functions ([x / (1 + |x|)] for [tanh], its affine image for [sigmoid],
    and weights proportional to the sigmoid for [softmax]). *)
Module TestBackend.

Definition float_of_Z (z : Z) : float :=
  match z with
  | Z0 => 0%float
  | Zpos p => Pos.iter_op PrimFloat.add p 1%float
  | Zneg p => PrimFloat.opp (Pos.iter_op PrimFloat.add p 1%float)
  end.

Definition Z_of_float (x : float) : Z :=
  match FloatOps.Prim2SF x with
  | SpecFloat.S754_finite s m e =>
      let a := match e with
               | Zneg k => Z.shiftr (Zpos m) (Zpos k)
               | _ => Z.shiftl (Zpos m) e
               end in
      if s then Z.opp a else a
  | _ => 0%Z
  end.

Definition softsign (x : float) : float := (x / (1 + PrimFloat.abs x))%float.
Definition logistic (x : float) : float := (0.5 + 0.5 * softsign x)%float.

Definition normalise (l : list float) : list float :=
  let w := map logistic l in
  let total := fold_left PrimFloat.add w 0%float in
  map (fun x => PrimFloat.div x total) w.

#[global] Instance binary64 : Numeric float := {|
  of_number := fun x => x;
  of_int := float_of_Z;
  to_int := Z_of_float;
  fadd := PrimFloat.add;
  fmul := PrimFloat.mul;
  fdiv := PrimFloat.div;
  fsigmoid := logistic;
  ftanh := softsign;
  fgtb := fun a b => PrimFloat.ltb b a;
  fltb := PrimFloat.ltb;
  softmax := normalise;
|}.

(** A model with vocabulary size 2 and one hidden unit per layer: the
    parameter tensors as the checkpoint loader leaves them on the heap. *)
Definition f32 (s : list nat) (v : list float) : Tensor := mkTensor s (F32 v).

Definition kernel1 : Tensor := f32 [3; 4] [1; 0; 0.5; 1; 0; 1; 0.5; 1; 0.25; 0.25; 0; 0]%float.
Definition bias1 : Tensor := f32 [4] [0; 0; 0; 0]%float.
Definition kernel2 : Tensor := f32 [2; 4] [1; 1; 0; 1; 0; 0.5; 1; 0]%float.
Definition bias2 : Tensor := f32 [4] [0.5; 0; 0; 0]%float.
Definition fcW : Tensor := f32 [1; 2] [1; (-1)]%float.
Definition fcB : Tensor := f32 [2] [0; 0.125]%float.

Definition loaded : Heap :=
  map (fun t => mkObj t false) [kernel1; bias1; kernel2; bias2; fcB; fcW].

Definition vars : gmap string ref :=
  list_to_map
    [("RNN/MultiRNNCell/Cell0/BasicLSTMCell/Linear/Matrix", 0);
     ("RNN/MultiRNNCell/Cell0/BasicLSTMCell/Linear/Bias", 1);
     ("RNN/MultiRNNCell/Cell1/BasicLSTMCell/Linear/Matrix", 2);
     ("RNN/MultiRNNCell/Cell1/BasicLSTMCell/Linear/Bias", 3);
     ("fully_connected/biases", 4);
     ("fully_connected/weights", 5)].

Definition model : MelodyRnn := initialize (new_MelodyRnn None) vars.

Definition weights : Weights :=
  mkWeights (Some kernel1) (Some bias1) (Some kernel2) (Some bias2) (Some fcB) (Some fcW).

(** A melody of two steps, already encoded; a converter that returns the
    encoding for it and rejects sequences without quantization. *)
Definition melody : INoteSequence :=
  mkSequence [mkNote 48 (Some 0%Z) (Some 1%Z); mkNote 49 (Some 1%Z) (Some 2%Z)] (Some 2%Z).


Definition encoded : Tensor := f32 [2; 2] [1; 0; 0; 1]%float.

Definition env : Env float :=
  {| toTensor := fun conv s =>
       match totalQuantizedSteps s with
       | Some _ => inr encoded
       | None => inl "not quantized"%string
       end;
     random := fun k => if Nat.even k then 0.25%float else 0.75%float |}.

(** The same collaborators with other random numbers, and a converter that
    agrees with [env] on the note range 48 to 84 only. *)
Definition env_other_draws : Env float :=
  {| toTensor := toTensor env; random := fun _ => 0.5%float |}.

Definition env_other_ranges : Env float :=
  {| toTensor := fun conv s =>
       if ((minPitch conv =? 48) && (maxPitch conv =? 84))%Z
       then toTensor env conv s
       else inl "unsupported note range"%string;
     random := random env |}.

(** The heap in the middle of a call: after the parameters, the forget bias,
    an input frame, and the state of the two layers. *)
Definition stepHeap : Heap :=
  loaded ++
  map (fun t => mkObj t false)
    [t_scalar 1%float; f32 [1; 2] [1; 0]%float;
     f32 [1; 1] [0.5]%float; f32 [1; 1] [0.25]%float;
     f32 [1; 1] [0.125]%float; f32 [1; 1] [(-0.5)]%float].

End TestBackend.

(** ** Further models to run

    Variants of the test model: a projection with more logits than the
    encoded melody is wide, a checkpoint without the projection, a first
    kernel made for another vocabulary, an instance whose [rawVars] a caller
    has filled in, other sources of random numbers, a projection that does
    not depend on the state, and a converter that rejects nothing. *)
Module TestModels.

Definition fcW_wide : Tensor := TestBackend.f32 [1; 3] [(-1); (-1); 1]%float.
Definition fcB_wide : Tensor := TestBackend.f32 [3] [0; 0; 0.5]%float.

Definition loaded_wide : Heap :=
  map (fun t => mkObj t false)
    [TestBackend.kernel1; TestBackend.bias1; TestBackend.kernel2; TestBackend.bias2;
     fcB_wide; fcW_wide].

Definition weights_wide : Weights :=
  mkWeights (Some TestBackend.kernel1) (Some TestBackend.bias1)
    (Some TestBackend.kernel2) (Some TestBackend.bias2) (Some fcB_wide) (Some fcW_wide).

Definition vars_no_projection : gmap string ref :=
  list_to_map
    [("RNN/MultiRNNCell/Cell0/BasicLSTMCell/Linear/Matrix", 0);
     ("RNN/MultiRNNCell/Cell0/BasicLSTMCell/Linear/Bias", 1);
     ("RNN/MultiRNNCell/Cell1/BasicLSTMCell/Linear/Matrix", 2);
     ("RNN/MultiRNNCell/Cell1/BasicLSTMCell/Linear/Bias", 3)].

Definition model_no_projection : MelodyRnn :=
  initialize (new_MelodyRnn None) vars_no_projection.

Definition weights_no_projection : Weights :=
  mkWeights (Some TestBackend.kernel1) (Some TestBackend.bias1)
    (Some TestBackend.kernel2) (Some TestBackend.bias2) None None.

Definition kernel1_other : Tensor :=
  TestBackend.f32 [4; 4] [1; 0; 0.5; 1; 0; 1; 0.5; 1; 0.25; 0.25; 0; 0; 1; 1; 1; 1]%float.

Definition loaded_other : Heap :=
  map (fun t => mkObj t false)
    [kernel1_other; TestBackend.bias1; TestBackend.kernel2; TestBackend.bias2;
     TestBackend.fcB; TestBackend.fcW].

Definition weights_other : Weights :=
  mkWeights (Some kernel1_other) (Some TestBackend.bias1)
    (Some TestBackend.kernel2) (Some TestBackend.bias2)
    (Some TestBackend.fcB) (Some TestBackend.fcW).

Definition stored : MelodyRnn :=
  mkMelodyRnn (checkpointURL TestBackend.model) (Some TestBackend.vars)
    (lstmKernel1 TestBackend.model) (lstmBias1 TestBackend.model)
    (lstmKernel2 TestBackend.model) (lstmBias2 TestBackend.model)
    (lstmFcB TestBackend.model) (lstmFcW TestBackend.model).

(** The collaborators of [TestBackend.env] with other random numbers from
    the fourth draw on. *)
Definition env_late_draws : Env float :=
  {| toTensor := toTensor TestBackend.env;
     random := fun k => if k <? 3 then random TestBackend.env k else 0.5%float |}.

(** The melody of [TestBackend.melody] followed by the first note of its
    continuation at temperature 1, its encoding, and collaborators that encode
    it and draw the random numbers of [TestBackend.env] after the first. *)
Definition melody_resumed : INoteSequence :=
  mkSequence
    [mkNote 48 (Some 0%Z) (Some 1%Z); mkNote 49 (Some 1%Z) (Some 2%Z);
     mkNote 48 (Some 2%Z) (Some 3%Z)]
    (Some 3%Z).

Definition encoded_resumed : Tensor := TestBackend.f32 [3; 2] [1; 0; 0; 1; 1; 0]%float.

Definition env_resumed : Env float :=
  {| toTensor := fun conv s =>
       match totalQuantizedSteps s with
       | Some 3%Z => inr encoded_resumed
       | _ => toTensor TestBackend.env conv s
       end;
     random := fun j => random TestBackend.env (j + 1) |}.

(** A projection that ignores the hidden state: three logits 0, 0, 1 for a
    melody encoded two wide. *)
Definition fcW_constant : Tensor := TestBackend.f32 [1; 3] [0; 0; 0]%float.
Definition fcB_constant : Tensor := TestBackend.f32 [3] [0; 0; 1]%float.

Definition loaded_constant : Heap :=
  map (fun t => mkObj t false)
    [TestBackend.kernel1; TestBackend.bias1; TestBackend.kernel2; TestBackend.bias2;
     fcB_constant; fcW_constant].

Definition weights_constant : Weights :=
  mkWeights (Some TestBackend.kernel1) (Some TestBackend.bias1)
    (Some TestBackend.kernel2) (Some TestBackend.bias2)
    (Some fcB_constant) (Some fcW_constant).


End TestModels.

(** ** What a call leaves on the heap, and how it fails *)
Section Growth.
Context {F : Type} {NF : Numeric F}.

(** [t.dispose()] on an object: the disposed flag is set, the value kept. *)
Definition disposed_obj (o : TensorObj (F := F)) : TensorObj := mkObj (tval o) true.

(** The computation [m] only adds objects to the heap, all of them live when
    it ends: it disposes of nothing, old or new. *)
Definition retains {A} (m : M (F := F) A) : Prop :=
  forall w, exists added,
    snd (m w) = w ++ added /\ Forall (fun o => isDisposed o = false) added.

(** A run of [m] that returns has put at least [n] new objects on the heap. *)
Definition allocates {A} (m : M (F := F) A) (n : nat) : Prop :=
  forall w a w', m w = (Ok a, w') -> length w + n <= length w'.

(** The result [r] is a value, a [TypeError] or a [ShapeError]. *)
Definition plain {A} (r : res A) : Prop :=
  forall e, r = Throw e -> e = TypeError \/ e = ShapeError.

End Growth.

(** * Properties *)

(** ** The program logic *)
Section Logic.
Context {F : Type} {NF : Numeric F}.

#[local] Abbreviation Tensor := (Tensor (F := F)).
#[local] Abbreviation Heap := (list (TensorObj (F := F))).
#[local] Abbreviation M := (M (F := F)).

Lemma extends_refl (w : Heap) : extends w w.
Proof. exists []. by rewrite app_nil_r. Qed.

Lemma extends_trans (w1 w2 w3 : Heap) : extends w1 w2 -> extends w2 w3 -> extends w1 w3.
Proof. intros [l1 ->] [l2 ->]. exists (l1 ++ l2). by rewrite app_assoc. Qed.

Lemma extends_lookup (w w' : Heap) r o : extends w w' -> w !! r = Some o -> w' !! r = Some o.
Proof. intros [l ->] H. by apply lookup_app_l_Some. Qed.

Lemma val_extends (w w' : Heap) r v : extends w w' -> val w r v -> val w' r v.
Proof. unfold val. apply extends_lookup. Qed.

Lemma agree_extends (w w' : Heap) o ov : extends w w' -> agree w o ov -> agree w' o ov.
Proof. destruct o, ov; simpl; auto. apply val_extends. Qed.

Lemma holds_extends (w w' : Heap) this P : extends w w' -> holds w this P -> holds w' this P.
Proof.
  intros E (H1 & H2 & H3 & H4 & H5 & H6).
  repeat split; eapply agree_extends; eauto.
Qed.

Lemma vals_extends (w w' : Heap) rs vs : extends w w' -> vals w rs vs -> vals w' rs vs.
Proof.
  intros E H. induction H; constructor; auto. eapply val_extends; eauto.
Qed.

Lemma val_alloc (w : Heap) (v : Tensor) : val (w ++ [mkObj v false]) (length w) v.
Proof. unfold val. by rewrite lookup_app_r, Nat.sub_diag. Qed.

Lemma sim_ret {A B} w (R : Heap -> A -> B -> Prop) a b : R w a b -> sim w R (ret a) (Ok b).
Proof. intros H. split; [apply extends_refl | exact H]. Qed.

Lemma sim_throw {A B} w (R : Heap -> A -> B -> Prop) e : sim w R (throw e) (Throw e).
Proof. split; [apply extends_refl | reflexivity]. Qed.

Lemma sim_bind {A B A' B'} w (R' : Heap -> A' -> B' -> Prop) (R : Heap -> A -> B -> Prop)
    (m : M A') (p : res B') (k : A' -> M A) (k' : B' -> res B) :
  sim w R' m p ->
  (forall w' a b, extends w w' -> R' w' a b -> sim w' R (k a) (k' b)) ->
  sim w R (bind m k) (bindR p k').
Proof.
  unfold sim, bind. destruct (m w) as [[a|e] w1]; simpl; intros [E H] Hk.
  - destruct p as [b|e']; [|done]. simpl.
    destruct (Hk w1 a b E H) as [E2 H2]. split; [|exact H2].
    eapply extends_trans; eauto.
  - destruct p as [b|e']; [done|]. simpl. subst. auto.
Qed.

(** The left side takes a step whose value is known. *)
Lemma sim_bind_ok {A B A' B'} w (R' : Heap -> A' -> B' -> Prop) (R : Heap -> A -> B -> Prop)
    (m : M A') (b : B') (k : A' -> M A) (p : res B) :
  sim w R' m (Ok b) ->
  (forall w' a, extends w w' -> R' w' a b -> sim w' R (k a) p) ->
  sim w R (bind m k) p.
Proof.
  unfold sim, bind. destruct (m w) as [[a|e] w1]; simpl; intros [E H] Hk; [|done].
  destruct (Hk w1 a E H) as [E2 H2]. split; [|exact H2].
  eapply extends_trans; eauto.
Qed.

Lemma sim_of_run {A B} w (R : Heap -> A -> B -> Prop) (m : M A) (p : res B) ra w' :
  m w = (ra, w') ->
  extends w w' ->
  match ra, p with
  | Ok a, Ok b => R w' a b
  | Throw e, Throw e' => e = e'
  | _, _ => False
  end ->
  sim w R m p.
Proof. intros E. unfold sim. rewrite E. simpl. auto. Qed.

Lemma op1_run w (f : Tensor -> res Tensor) a x :
  val w a x ->
  op1 f a w = match f x with
              | Ok v => (Ok (length w), w ++ [mkObj v false])
              | Throw e => (Throw e, w)
              end.
Proof.
  intros H. unfold op1, bind, read, lift, alloc. rewrite H. simpl.
  by destruct (f x).
Qed.

Lemma op2_run w (f : Tensor -> Tensor -> res Tensor) a b x y :
  val w a x -> val w b y ->
  op2 f a b w = match f x y with
                | Ok v => (Ok (length w), w ++ [mkObj v false])
                | Throw e => (Throw e, w)
                end.
Proof.
  intros Ha Hb. unfold op2, bind, read, lift, alloc. rewrite Ha. simpl. rewrite Hb. simpl.
  by destruct (f x y).
Qed.

Lemma sim_alloc w (v : Tensor) : sim w val (alloc v) (Ok v).
Proof. eapply sim_of_run; [reflexivity | by eexists | apply val_alloc]. Qed.

Lemma sim_op1 w (f : Tensor -> res Tensor) a x : val w a x -> sim w val (op1 f a) (f x).
Proof.
  intros H. pose proof (op1_run f H) as E.
  destruct (f x) as [v|e]; (eapply sim_of_run; [exact E | |]).
  - by eexists.
  - apply val_alloc.
  - apply extends_refl.
  - reflexivity.
Qed.

Lemma sim_op2 w (f : Tensor -> Tensor -> res Tensor) a b x y :
  val w a x -> val w b y -> sim w val (op2 f a b) (f x y).
Proof.
  intros Ha Hb. pose proof (op2_run f Ha Hb) as E.
  destruct (f x y) as [v|e]; (eapply sim_of_run; [exact E | |]).
  - by eexists.
  - apply val_alloc.
  - apply extends_refl.
  - reflexivity.
Qed.

Lemma sim_field w (o : option ref) (ov : option Tensor) :
  agree w o ov -> sim w val (field o) (fieldR ov).
Proof.
  destruct o as [r|], ov as [v|]; simpl; intros H; try contradiction.
  - apply sim_ret. exact H.
  - apply sim_throw.
Qed.

Lemma sim_index w (rs : list ref) (vs : list Tensor) i :
  vals w rs vs -> sim w val (index rs i) (fieldR (vs !! i)).
Proof.
  intros H. unfold index. apply sim_field.
  unfold vals in H. revert i. induction H; intros [|i]; simpl; auto.
Qed.

Lemma sim_dim w r (v : Tensor) k : val w r v -> sim w same (dim r k) (dimR v k).
Proof.
  intros H.
  assert (E : dim r k w = (dimR v k, w)).
  { unfold dim, dimR, bind, shapeOf. rewrite H. simpl. by destruct (shape v !! k). }
  eapply sim_of_run; [exact E | apply extends_refl |].
  by destruct (dimR v k).
Qed.

Lemma sim_zeros_row_quarter w n : sim w val (zeros_row_quarter n) (zeros_row_quarterR n).
Proof.
  unfold zeros_row_quarter, zeros_row_quarterR. destruct (n mod 4 =? 0).
  - apply sim_alloc.
  - apply sim_throw.
Qed.

Lemma sim_slice w a (x : Tensor) b0 b1 s0 s1 :
  val w a x -> sim w val (slice a b0 b1 s0 s1) (t_slice x b0 b1 s0 s1).
Proof. apply (sim_op1 (fun t : Tensor => t_slice t b0 b1 s0 s1)). Qed.

Lemma sim_as2D w a (x : Tensor) r c : val w a x -> sim w val (as2D a r c) (t_as2D x r c).
Proof. apply (sim_op1 (fun t : Tensor => t_as2D t r c)). Qed.

Lemma sim_multinomial w a (x : Tensor) n u :
  val w a x -> sim w val (multinomial a n u) (t_multinomial x n u).
Proof. apply (sim_op1 (fun t : Tensor => t_multinomial t n u)). Qed.

Lemma sim_oneHot w a (x : Tensor) depth : val w a x -> sim w val (oneHot a depth) (t_oneHot x depth).
Proof. apply (sim_op1 (fun t : Tensor => t_oneHot t depth)). Qed.

Lemma sim_sigmoid w a (x : Tensor) : val w a x -> sim w val (sigmoid a) (Ok (t_sigmoid x)).
Proof. apply (sim_op1 (fun t : Tensor => Ok (t_sigmoid t))). Qed.

Lemma sim_tanh w a (x : Tensor) : val w a x -> sim w val (tanh a) (Ok (t_tanh x)).
Proof. apply (sim_op1 (fun t : Tensor => Ok (t_tanh t))). Qed.

Lemma sim_toFloat w a (x : Tensor) : val w a x -> sim w val (toFloat a) (Ok (t_toFloat x)).
Proof. apply (sim_op1 (fun t : Tensor => Ok (t_toFloat t))). Qed.

Lemma sim_same {A} w (m : M A) (p : res A) : sim w same m p -> fst (m w) = p.
Proof.
  intros [_ H]. destruct (fst (m w)), p; try done; unfold same in *; congruence.
Qed.

End Logic.

(** ** The heap-level program computes the value-level one *)

Ltac forward_hyps E :=
  repeat match goal with
  | H : val ?w _ _ |- _ =>
      lazymatch type of E with extends w _ => eapply val_extends in H; [|exact E] end
  | H : agree ?w _ _ |- _ =>
      lazymatch type of E with extends w _ => eapply agree_extends in H; [|exact E] end
  | H : holds ?w _ _ |- _ =>
      lazymatch type of E with extends w _ => eapply holds_extends in H; [|exact E] end
  | H : vals ?w _ _ |- _ =>
      lazymatch type of E with extends w _ => eapply vals_extends in H; [|exact E] end
  | H : extends _ ?w |- _ =>
      lazymatch type of E with
      | extends w _ => apply (fun H0 => extends_trans H0 E) in H
      end
  end.

Ltac sim_base :=
  first
    [ eapply sim_op2; eassumption
    | eapply sim_slice; eassumption
    | eapply sim_as2D; eassumption
    | eapply sim_multinomial; eassumption
    | eapply sim_oneHot; eassumption
    | eapply sim_sigmoid; eassumption
    | eapply sim_tanh; eassumption
    | eapply sim_toFloat; eassumption
    | eapply sim_op1; eassumption
    | eapply sim_alloc
    | eapply sim_field; eassumption
    | eapply sim_index; eassumption
    | eapply sim_dim; eassumption
    | eapply sim_zeros_row_quarter ].

Ltac split_related H :=
  first
    [ progress unfold same in H; subst
    | match type of H with
      | val2 _ ?a ?b => destruct a, b, H; simpl in *
      | vals2 _ ?a ?b => destruct a, b, H; simpl in *
      | val_vals _ ?a ?b => destruct a, b, H; simpl in *
      end
    | idtac ].

Ltac sim_intro :=
  let E := fresh "E" in
  let H := fresh "Hv" in
  intros ? ? ? E H; forward_hyps E; clear E; split_related H.

Ltac sim_intro_ok :=
  let E := fresh "E" in
  let H := fresh "Hv" in
  intros ? ? E H; forward_hyps E; clear E.

Ltac sim_step :=
  cbv zeta;
  lazymatch goal with
  | |- sim _ _ (bind (sigmoid _) _) _ => eapply sim_bind_ok; [sim_base | sim_intro_ok]
  | |- sim _ _ (bind (tanh _) _) _ => eapply sim_bind_ok; [sim_base | sim_intro_ok]
  | |- sim _ _ (bind (toFloat _) _) _ => eapply sim_bind_ok; [sim_base | sim_intro_ok]
  | |- sim _ _ (bind (dl_scalar _) _) _ => eapply sim_bind_ok; [sim_base | sim_intro_ok]
  | |- sim _ _ (bind _ _) (bindR _ _) => eapply sim_bind; [sim_base | sim_intro]
  end.

Section Refinement.
Context {F : Type} {NF : Numeric F}.

#[local] Abbreviation Tensor := (Tensor (F := F)).
#[local] Abbreviation Heap := (list (TensorObj (F := F))).
#[local] Abbreviation M := (M (F := F)).

Lemma sim_basicLSTMCell (w : Heap) fb fbv ok okv ob obv d dv c cv h hv :
  val w fb fbv -> agree w ok okv -> agree w ob obv ->
  val w d dv -> val w c cv -> val w h hv ->
  sim w val2 (basicLSTMCell fb ok ob d c h) (basicLSTMCell_val fbv okv obv dv cv hv).
Proof.
  intros Hfb Hok Hob Hd Hc Hh.
  unfold basicLSTMCell, basicLSTMCell_val.
  do 21 sim_step.
  apply sim_ret. split; assumption.
Qed.

Lemma sim_multiRNNCell_from (w0 : Heap) cells cellvs :
  Forall2 (cell_sim w0) cells cellvs ->
  forall (w : Heap) i x xv c cv h hv,
    extends w0 w -> val w x xv -> vals w c cv -> vals w h hv ->
    sim w vals2 (multiRNNCell_from cells i x c h) (multiRNNCell_val_from cellvs i xv cv hv).
Proof.
  induction 1 as [|cell cellv cells cellvs Hcell Hcells IH];
    intros w i x xv c cv h hv E0 Hx Hc Hh; simpl.
  - apply sim_ret. split; constructor.
  - sim_step. sim_step.
    eapply sim_bind; [by apply Hcell|].
    intros w1 [newC newH] [cC cH] E1 [HC HH]; simpl in *.
    assert (E01 : extends w0 w1) by (eapply extends_trans; eauto).
    eapply sim_bind.
    + apply IH; [exact E01 | exact HH | |];
        (eapply vals_extends; [exact E1 | assumption]).
    + intros w2 [cs hs] [cvs hvs] E2 [Hcs Hhs]; simpl in *.
      apply sim_ret. split; simpl; constructor; auto;
        (eapply val_extends; [exact E2 | assumption]).
Qed.

Lemma cell_sim_lstm (w : Heap) kernel kernelv bias biasv fb fbv :
  val w fb fbv -> agree w kernel kernelv -> agree w bias biasv ->
  cell_sim w (fun data c h => basicLSTMCell fb kernel bias data c h)
             (basicLSTMCell_val fbv kernelv biasv).
Proof.
  intros Hfb Hk Hb w' x xv c cv h hv E Hx Hc Hh.
  apply sim_basicLSTMCell; auto.
  - eapply val_extends; eauto.
  - eapply agree_extends; eauto.
  - eapply agree_extends; eauto.
Qed.

Lemma sim_multiRNNCell (w : Heap) this P fb fbv x xv c cv h hv :
  holds w this P -> val w fb fbv -> val w x xv -> vals w c cv -> vals w h hv ->
  sim w vals2 (multiRNNCell [lstm1 this fb; lstm2 this fb] x c h)
              (multiRNNCell_val [lstm1_val P fbv; lstm2_val P fbv] xv cv hv).
Proof.
  intros (H1 & H2 & H3 & H4 & H5 & H6) Hfb Hx Hc Hh.
  unfold multiRNNCell, multiRNNCell_val.
  apply (sim_multiRNNCell_from (w0 := w)); [| apply extends_refl | assumption ..].
  constructor; [apply cell_sim_lstm; assumption|].
  constructor; [apply cell_sim_lstm; assumption|].
  constructor.
Qed.

Lemma sim_greedy (w : Heap) logits (lv : Tensor) :
  val w logits lv -> sim w val (greedy logits) (greedy_val lv).
Proof.
  intros H. unfold greedy, greedy_val. sim_step. sim_base.
Qed.

Lemma sim_stochastic (w : Heap) u t logits (lv : Tensor) :
  val w logits lv -> sim w val (stochastic u t logits) (stochastic_val u t lv).
Proof.
  intros H. unfold stochastic, stochastic_val. do 3 sim_step. sim_base.
Qed.

Lemma sim_sampledOutput (w : Heap) u temperature logits (lv : Tensor) :
  val w logits lv ->
  sim w val (sampledOutput u temperature logits) (sampledOutput_val u temperature lv).
Proof.
  intros H. unfold sampledOutput, sampledOutput_val.
  destruct (truthy temperature); [destruct temperature|];
    auto using sim_greedy, sim_stochastic.
Qed.

Lemma sim_nextInput (w : Heap) (rnd : nat -> F) this P temperature inputs iv length
    outputSize i h hv samples sv :
  holds w this P -> val w inputs iv -> vals w h hv -> vals w samples sv ->
  sim w val_vals (nextInput rnd this temperature inputs length outputSize i h samples)
                 (nextInput_val rnd P temperature iv length outputSize i hv sv).
Proof.
  intros (H1 & H2 & H3 & H4 & H5 & H6) Hi Hh Hs.
  unfold nextInput, nextInput_val. destruct (i <? length).
  - do 2 sim_step. apply sim_ret. split; assumption.
  - do 5 sim_step.
    eapply sim_bind; [eapply sim_sampledOutput; eassumption | sim_intro].
    do 3 sim_step.
    apply sim_ret. split; simpl; [assumption|].
    apply Forall2_app; [assumption | by constructor].
Qed.

Lemma sim_generate (rnd : nat -> F) this P temperature fb fbv inputs iv length outputSize n :
  forall (w : Heap) i c cv h hv samples sv,
    holds w this P -> val w fb fbv -> val w inputs iv ->
    vals w c cv -> vals w h hv -> vals w samples sv ->
    sim w vals (generate rnd this temperature fb inputs length outputSize n i c h samples)
               (generate_val rnd P temperature fbv iv length outputSize n i cv hv sv).
Proof.
  induction n as [|n IH]; intros w i c cv h hv samples sv HP Hfb Hi Hc Hh Hs; simpl.
  - by apply sim_ret.
  - eapply sim_bind; [eapply sim_nextInput; eassumption | sim_intro].
    eapply sim_bind; [eapply sim_multiRNNCell; eassumption | sim_intro].
    apply IH; assumption.
Qed.

Lemma first_value_run (w : Heap) r (v : Tensor) :
  val w r v -> first_value r w = (fieldR (ints v !! 0), w).
Proof.
  intros H. unfold first_value, data, bind, read, ret. rewrite H. simpl.
  by destruct (ints v !! 0).
Qed.

Lemma sim_first_value (w : Heap) r (v : Tensor) :
  val w r v -> sim w same (first_value r) (first_value_val v).
Proof.
  intros H. eapply sim_of_run; [by apply first_value_run | apply extends_refl |].
  unfold first_value_val. by destruct (fieldR (ints v !! 0)).
Qed.

Lemma sim_forM_first (w : Heap) samples (sv : list Tensor) :
  vals w samples sv -> sim w same (forM samples first_value) (forR sv first_value_val).
Proof.
  revert sv w. unfold vals.
  induction samples as [|r rs IH]; intros sv w H; inversion H as [|? v ? vs Hr Hrs]; subst; simpl.
  - by apply sim_ret.
  - eapply sim_bind; [by apply sim_first_value |].
    intros w1 z z' E1 ->.
    assert (Hrs' : Forall2 (val w1) rs vs) by (eapply vals_extends; eauto).
    eapply sim_bind; [by apply IH |].
    intros w2 zs zs' E2 ->. by apply sim_ret.
Qed.

Lemma sim_continueSequence (w : Heap) (env : Env F) this P sequence steps temperature :
  holds w this P ->
  sim w same (continueSequence env this sequence steps temperature)
             (continueSequence_val env P sequence steps temperature).
Proof.
  intros HP. pose proof HP as (H1 & H2 & H3 & H4 & H5 & H6).
  unfold continueSequence, continueSequence_val, converter_toTensor. cbv zeta.
  destruct (toTensor env _ sequence) as [msg|iv].
  - eapply sim_of_run; [reflexivity | apply extends_refl | reflexivity].
  - eapply sim_bind_ok; [apply sim_alloc | sim_intro_ok].
    unfold continue_from. cbv zeta.
    do 15 sim_step.
    eapply sim_bind; [| sim_intro; by apply sim_forM_first].
    apply sim_generate; auto; repeat constructor; assumption.
Qed.

(** The result of a call is the value-level result, and the heap only grows. *)
Lemma continueSequence_result (w : Heap) (env : Env F) this P sequence steps temperature :
  holds w this P ->
  fst (continueSequence env this sequence steps temperature w)
  = continueSequence_val env P sequence steps temperature.
Proof. intros HP. apply sim_same. by apply sim_continueSequence. Qed.

End Refinement.

(** ** Rows and their operations *)
Section Rows.
Context {F : Type} {NF : Numeric F}.

#[local] Abbreviation Tensor := (Tensor (F := F)).

Lemma length_tabulate {A} n (f : nat -> A) : length (tabulate n f) = n.
Proof. unfold tabulate. by rewrite length_map, length_seq. Qed.

Lemma tabulate_ext {A} n (f g : nat -> A) :
  (forall k, k < n -> f k = g k) -> tabulate n f = tabulate n g.
Proof.
  intros H. unfold tabulate. apply map_ext_in. intros k Hk.
  apply in_seq in Hk. apply H. lia.
Qed.

Lemma nth_tabulate {A} n (f : nat -> A) k d : k < n -> nth k (tabulate n f) d = f k.
Proof.
  intros H. unfold tabulate.
  rewrite (nth_indep _ d (f 0)) by (by rewrite length_map, length_seq).
  rewrite (map_nth f (seq 0 n) 0 k). by rewrite seq_nth.
Qed.

Lemma tabulate_nth {A} (l : list A) d : tabulate (length l) (fun k => nth k l d) = l.
Proof.
  apply (nth_ext _ _ d d).
  - apply length_tabulate.
  - intros k Hk. rewrite length_tabulate in Hk. by rewrite nth_tabulate.
Qed.

Lemma tabulate_map {A B} (g : A -> B) (l : list A) d :
  tabulate (length l) (fun k => g (nth k l d)) = map g l.
Proof.
  rewrite <- (tabulate_nth l d) at 2. unfold tabulate. by rewrite map_map.
Qed.

Lemma tabulate_zip {A B C} (g : A -> B -> C) (l1 : list A) (l2 : list B) n d1 d2 :
  length l1 = n -> length l2 = n ->
  tabulate n (fun k => g (nth k l1 d1) (nth k l2 d2)) = zip_with g l1 l2.
Proof.
  revert l2 n. induction l1 as [|a l1 IH]; intros [|b l2] n H1 H2; simpl in *; subst; try done.
  unfold tabulate. simpl. f_equal.
  rewrite <- seq_shift, map_map. apply (IH l2 (length l1)); [done | lia].
Qed.

Lemma tabulate_take_drop {A} (l : list A) d b s :
  b + s <= length l -> tabulate s (fun j => nth (b + j) l d) = take s (drop b l).
Proof.
  intros H. apply (nth_ext _ _ d d).
  - rewrite length_tabulate, length_take, length_drop. lia.
  - intros k Hk. rewrite length_tabulate in Hk. rewrite nth_tabulate by done.
    rewrite !nth_lookup, lookup_take_lt, lookup_drop by done. done.
Qed.

Lemma tabulate2_one {A} n (f : nat -> nat -> A) : tabulate2 1 n f = tabulate n (f 0).
Proof. unfold tabulate2. simpl. by rewrite app_nil_r. Qed.

Lemma sizeFromShape_row n : sizeFromShape [1; n] = n.
Proof. unfold sizeFromShape. simpl. lia. Qed.

Lemma floats_row_tensor (v : list F) : floats (row_tensor v) = v.
Proof. reflexivity. Qed.

Lemma is_row_row_tensor (v : list F) n : length v = n -> is_row (row_tensor v) n.
Proof. intros <-. by split. Qed.

Lemma row_tensor_eq (t : Tensor) v n :
  shape t = [1; n] -> tdata t = F32 v -> length v = n -> t = row_tensor v.
Proof. destruct t as [s d]. simpl. intros -> -> <-. reflexivity. Qed.

Lemma at_row_tensor (v : list F) k : at_ (row_tensor v) k = nth k v (of_int 0).
Proof. reflexivity. Qed.

Lemma is_row_size (t : Tensor) n : is_row t n -> size t = n.
Proof. intros [H _]. unfold size. rewrite H. apply sizeFromShape_row. Qed.

Lemma concat_rows (x h : Tensor) V H :
  is_row x V -> is_row h H -> t_concat x h = Ok (row_tensor (floats x ++ floats h)).
Proof.
  intros [Sx Lx] [Sh Lh]. unfold t_concat. rewrite Sx, Sh. simpl.
  f_equal. apply row_tensor_eq with (n := V + H); simpl; [done| |by rewrite length_app, Lx, Lh].
  f_equal. rewrite tabulate2_one.
  apply (nth_ext _ _ (of_int 0) (of_int 0)).
  - by rewrite length_tabulate, length_app, Lx, Lh.
  - intros k Hk. rewrite length_tabulate in Hk. rewrite nth_tabulate by done.
    unfold at_. simpl. destruct (Nat.ltb_spec k V).
    + by rewrite app_nth1 by lia.
    + rewrite app_nth2 by lia. by rewrite Lx.
Qed.

Lemma matMul_row (a K : Tensor) k n :
  is_row a k -> shape K = [k; n] ->
  t_matMul a K
  = Ok (row_tensor (tabulate n (fun j =>
          dot k (fun l => nth l (floats a) (of_int 0)) (fun l => at_ K (l * n + j))))).
Proof.
  intros [Sa La] SK. unfold t_matMul. rewrite Sa, SK, Nat.eqb_refl.
  f_equal. apply row_tensor_eq with (n := n); simpl; [done| |apply length_tabulate].
  f_equal. by rewrite tabulate2_one.
Qed.

Lemma add_row_bias (a b : Tensor) n :
  is_row a n -> shape b = [n] ->
  t_add a b = Ok (row_tensor (tabulate n (fun j => fadd (at_ a j) (at_ b j)))).
Proof.
  intros [Sa La] Sb. unfold t_add, t_broadcast. rewrite Sa, Sb.
  destruct (decide ([1; n] = [n])) as [E|_]; [discriminate E|].
  rewrite Nat.eqb_refl.
  f_equal. apply row_tensor_eq with (n := n); simpl; [done| |apply length_tabulate].
  f_equal. by rewrite tabulate2_one.
Qed.

Lemma broadcast_row_scalar (f : F -> F -> F) (a : Tensor) n y :
  is_row a n ->
  t_broadcast f a (t_scalar y) = Ok (row_tensor (map (fun x => f x y) (floats a))).
Proof.
  intros [Sa La]. unfold t_broadcast. simpl. rewrite Sa.
  destruct (decide ([1; n] = [])) as [E|_]; [discriminate E|].
  f_equal. apply row_tensor_eq with (n := n); simpl; [done| |by rewrite length_map].
  f_equal. unfold size. rewrite Sa, sizeFromShape_row. subst n.
  apply (tabulate_map (fun x => f x y)).
Qed.

Lemma slice_row (g : Tensor) n b s :
  is_row g n -> b + s <= n ->
  t_slice g 0 b 1 s = Ok (row_tensor (take s (drop b (floats g)))).
Proof.
  intros [Sg Lg] Hb. unfold t_slice. rewrite Sg.
  replace (b + s <=? n) with true by (symmetry; apply Nat.leb_le; lia). simpl.
  f_equal. apply row_tensor_eq with (n := s); simpl; [done| |].
  - f_equal. rewrite tabulate2_one. unfold at_. simpl.
    apply tabulate_take_drop. lia.
  - rewrite length_take, length_drop. lia.
Qed.

Lemma strict_rows (f : F -> F -> F) (a b : Tensor) n :
  is_row a n -> is_row b n ->
  t_strict f a b = Ok (row_tensor (zip_with f (floats a) (floats b))).
Proof.
  intros [Sa La] [Sb Lb]. unfold t_strict. rewrite Sa, Sb.
  destruct (decide ([1; n] = [1; n])) as [_|E]; [|done].
  f_equal. apply row_tensor_eq with (n := n); simpl; [done| |].
  - f_equal. unfold size. rewrite Sa, sizeFromShape_row. by apply tabulate_zip.
  - rewrite length_zip_with. lia.
Qed.

Lemma map_row (f : F -> F) (a : Tensor) n :
  is_row a n -> t_map f a = row_tensor (map f (floats a)).
Proof.
  intros [Sa La]. unfold t_map.
  apply row_tensor_eq with (n := n); simpl; [done| |by rewrite length_map].
  f_equal. unfold size. rewrite Sa, sizeFromShape_row. subst n.
  apply (tabulate_map f).
Qed.

Lemma length_lstm_gates (K b : Tensor) n x h : length (lstm_gates K b n x h) = n.
Proof. apply length_tabulate. Qed.

Lemma length_lstm_transition (fb : F) (K b : Tensor) H x c h :
  length c = H ->
  length (lstm_transition fb K b H x c h).1 = H /\
  length (lstm_transition fb K b H x c h).2 = H.
Proof.
  intros Hc. unfold lstm_transition. cbv zeta. cbn [fst snd].
  pose proof (length_lstm_gates K b (4 * H) x h) as HG.
  rewrite !length_zip_with, !length_map, !length_zip_with, !length_map,
    !length_take, !length_drop, HG.
  lia.
Qed.

(** The chain of tensor operations of one cell is the transition on vectors. *)
Lemma basicLSTMCell_val_transition (fb : F) (K b x c h : Tensor) V H :
  shape K = [V + H; 4 * H] -> shape b = [4 * H] ->
  is_row x V -> is_row c H -> is_row h H ->
  basicLSTMCell_val (t_scalar fb) (Some K) (Some b) x c h
  = Ok (row_tensor (lstm_transition fb K b H (floats x) (floats c) (floats h)).1,
        row_tensor (lstm_transition fb K b H (floats x) (floats c) (floats h)).2).
Proof.
  intros SK Sb Hx Hc Hh.
  pose proof Hx as [_ Lx]. pose proof Hc as [_ Lc]. pose proof Hh as [_ Lh].
  set (G := lstm_gates K b (4 * H) (floats x) (floats h)).
  assert (LG : length G = 4 * H) by apply length_lstm_gates.
  unfold basicLSTMCell_val.
  rewrite (concat_rows Hx Hh). cbn [bindR fieldR].
  assert (Hxh : is_row (row_tensor (floats x ++ floats h)) (V + H)).
  { apply is_row_row_tensor. by rewrite length_app, Lx, Lh. }
  rewrite (matMul_row K Hxh SK). cbn [bindR].
  match goal with |- context [t_add (row_tensor ?l) b] =>
    assert (Hw : is_row (row_tensor l) (4 * H))
      by (apply is_row_row_tensor, length_tabulate)
  end.
  rewrite (add_row_bias b Hw Sb). cbn [bindR].
  match goal with |- context [dimR (row_tensor ?l) 0] =>
    assert (EG : l = G)
  end.
  { unfold G, lstm_gates. apply tabulate_ext. intros j Hj.
    rewrite at_row_tensor, nth_tabulate by done.
    by rewrite length_app, Lx, Lh. }
  rewrite EG.
  assert (HG : is_row (row_tensor G) (4 * H)) by by apply is_row_row_tensor.
  unfold dimR. cbn [shape row_tensor lookup list_lookup bindR]. rewrite LG.
  replace ((4 * H) `div` 4) with H by (symmetry; rewrite Nat.mul_comm; by apply Nat.div_mul).
  rewrite (slice_row 0 H HG) by lia.
  rewrite (slice_row H H HG) by lia.
  rewrite (slice_row (H * 2) H HG) by lia.
  rewrite (slice_row (H * 3) H HG) by lia.
  cbn [bindR]. rewrite !floats_row_tensor. rewrite drop_0.
  replace (H * 2) with (2 * H) by lia. replace (H * 3) with (3 * H) by lia.
  set (gi := take H G).
  set (gj := take H (drop H G)).
  set (gf := take H (drop (2 * H) G)).
  set (go := take H (drop (3 * H) G)).
  assert (Li : length gi = H) by (unfold gi; rewrite length_take; lia).
  assert (Lj : length gj = H) by (unfold gj; rewrite length_take, length_drop; lia).
  assert (Lf : length gf = H) by (unfold gf; rewrite length_take, length_drop; lia).
  assert (Lo : length go = H) by (unfold go; rewrite length_take, length_drop; lia).
  unfold t_add. rewrite (broadcast_row_scalar fadd fb (is_row_row_tensor _ Lf)).
  cbn [bindR]. rewrite floats_row_tensor.
  unfold t_sigmoid, t_tanh, t_mulStrict, t_addStrict.
  rewrite (map_row fsigmoid (n := H)) by (apply is_row_row_tensor; by rewrite length_map).
  rewrite floats_row_tensor.
  rewrite (strict_rows fmul (n := H) Hc) by (apply is_row_row_tensor; by rewrite !length_map).
  cbn [bindR]. rewrite floats_row_tensor.
  rewrite (map_row fsigmoid (is_row_row_tensor _ Li)), (map_row ftanh (is_row_row_tensor _ Lj)).
  rewrite !floats_row_tensor.
  rewrite (strict_rows fmul (n := H))
    by (apply is_row_row_tensor; by rewrite length_map).
  cbn [bindR]. rewrite !floats_row_tensor.
  rewrite (strict_rows fadd (n := H))
    by (apply is_row_row_tensor; rewrite length_zip_with, !length_map; lia).
  cbn [bindR]. rewrite !floats_row_tensor.
  match goal with |- context [t_map ftanh (row_tensor ?l)] =>
    assert (Lc' : length l = H)
      by (rewrite !length_zip_with, !length_map; lia)
  end.
  rewrite (map_row ftanh (is_row_row_tensor _ Lc')), (map_row fsigmoid (is_row_row_tensor _ Lo)).
  rewrite !floats_row_tensor.
  rewrite (strict_rows fmul (n := H))
    by (apply is_row_row_tensor; rewrite length_map; done).
  reflexivity.
Qed.

End Rows.

(** ** The loop on values: shapes, samples and their number *)
Section Generation.
Context {F : Type} {NF : Numeric F}.

#[local] Abbreviation Tensor := (Tensor (F := F)).

Lemma argmax_from_range (l : list F) j best bi :
  argmax_from l j best bi = bi \/ j <= argmax_from l j best bi < j + length l.
Proof.
  revert j best bi. induction l as [|x l IH]; intros j best bi; simpl; [by left|].
  destruct (fgtb x best).
  - destruct (IH (S j) x j) as [->|H]; right; lia.
  - destruct (IH (S j) best bi) as [->|H]; [by left | right; lia].
Qed.

Lemma argmax_row_lt (l : list F) : 0 < length l -> argmax_row l < length l.
Proof.
  destruct l as [|x l]; simpl; [lia|]. intros _.
  destruct (argmax_from_range l 1 x 0) as [->|H]; lia.
Qed.

Lemma pick_event_range (c : list F) u event last :
  pick_event c u event last = last \/ event <= pick_event c u event last < event + length c.
Proof.
  revert event. induction c as [|p c IH]; intros event; simpl; [by left|].
  destruct (fltb u p); [right; lia|].
  destruct (IH (S event)) as [->|H]; [by left | right; lia].
Qed.

Lemma length_cdf (probs : list F) : length (cdf probs) <= length probs - 1.
Proof.
  destruct probs as [|p rest]; unfold cdf; [simpl; lia|].
  rewrite length_take. lia.
Qed.

Lemma draw_lt (logits : list F) u : 0 < length logits -> draw logits u < length logits.
Proof.
  intros H. unfold draw.
  set (probs := firstn (length logits) (softmax logits)).
  assert (Hp : length probs <= length logits) by (unfold probs; rewrite length_take; lia).
  pose proof (length_cdf probs) as Hc.
  destruct (pick_event_range (cdf probs) u 0 (length logits - 1)) as [->|Hr]; lia.
Qed.

Lemma length_row (t : Tensor) c i : length (row t c i) = c.
Proof. apply length_tabulate. Qed.

Lemma greedy_val_ok (logits : Tensor) V' :
  is_row logits V' -> 0 < V' ->
  exists k, k < V' /\ greedy_val logits = Ok (mkTensor [1] (I32 [Z.of_nat k])).
Proof.
  intros [S L] HV. exists (argmax_row (row logits V' 0)). split.
  - rewrite <- (length_row logits V' 0) at 2. apply argmax_row_lt. by rewrite length_row.
  - unfold greedy_val, t_argMax. rewrite S. reflexivity.
Qed.

Lemma stochastic_val_ok (logits : Tensor) V' u t :
  is_row logits V' -> 2 <= V' ->
  exists k, k < V' /\ stochastic_val u t logits = Ok (mkTensor [1] (I32 [Z.of_nat k])).
Proof.
  intros HL HV. unfold stochastic_val, t_div.
  rewrite (broadcast_row_scalar fdiv (of_number t) HL). cbn [bindR].
  set (scaled := row_tensor _).
  assert (Hs : is_row scaled V').
  { apply is_row_row_tensor. rewrite length_map. apply HL. }
  exists (draw (row scaled V' 0) u). split.
  - rewrite <- (length_row scaled V' 0) at 2. apply draw_lt. rewrite length_row. lia.
  - unfold t_multinomial. rewrite (is_row_size Hs).
    replace (V' <? 2) with false by (symmetry; apply Nat.ltb_ge; lia).
    destruct Hs as [-> _]. reflexivity.
Qed.

Lemma sampledOutput_val_ok (logits : Tensor) V' u temperature :
  is_row logits V' -> 2 <= V' ->
  exists k, k < V' /\
    sampledOutput_val u temperature logits = Ok (mkTensor [1] (I32 [Z.of_nat k])).
Proof.
  intros HL HV. unfold sampledOutput_val.
  destruct (truthy temperature); [destruct temperature|];
    eauto using stochastic_val_ok; apply greedy_val_ok; auto; lia.
Qed.

Lemma nextInput_val_teacher (rnd : nat -> F) P temperature (inputs : Tensor) L V i h samples :
  shape inputs = [L; V] -> i < L ->
  exists x, is_row x V /\
    nextInput_val rnd P temperature inputs L V i h samples = Ok (x, samples).
Proof.
  intros S Hi. unfold nextInput_val.
  replace (i <? L) with true by (symmetry; apply Nat.ltb_lt; lia).
  unfold t_slice. rewrite S.
  replace (i + 1 <=? L) with true by (symmetry; apply Nat.leb_le; lia).
  replace (0 + V <=? V) with true by (symmetry; apply Nat.leb_le; lia).
  cbn [andb bindR]. unfold t_as2D, t_reshape, size. cbn [shape].
  rewrite Nat.eqb_refl. cbn [bindR tdata].
  eexists. split; [|reflexivity].
  split; [reflexivity|]. unfold floats. cbn [tdata].
  by rewrite tabulate2_one, length_tabulate.
Qed.

Lemma nextInput_val_self (rnd : nat -> F) P temperature (inputs : Tensor) L V H1 H2 V' i c h
    samples :
  WellShaped P V H1 H2 V' -> state_ok H1 H2 c h -> L <= i ->
  exists x k, is_row x V /\ k < V' /\
    nextInput_val rnd P temperature inputs L V i h samples
    = Ok (x, samples ++ [mkTensor [] (I32 [Z.of_nat k])]).
Proof.
  intros (_ & (fcW & EW & SW) & (fcB & EB & SB) & HV).
  intros (c1 & c2 & h1 & h2 & -> & -> & _ & _ & _ & Hh2) Hi.
  unfold nextInput_val.
  replace (i <? L) with false by (symmetry; apply Nat.ltb_ge; lia).
  rewrite EW, EB. cbn [lookup list_lookup fieldR bindR].
  rewrite (matMul_row fcW Hh2 SW). cbn [bindR].
  rewrite (add_row_bias fcB (n := V'))
    by (done || apply is_row_row_tensor, length_tabulate).
  cbn [bindR].
  set (logits := row_tensor _).
  assert (HL : is_row logits V') by apply is_row_row_tensor, length_tabulate.
  destruct (sampledOutput_val_ok (rnd (i - L)) temperature HL HV) as (k & Hk & ->).
  cbn [bindR]. eexists. exists k. split; [|split; [exact Hk | reflexivity]].
  split; [reflexivity|]. unfold t_toFloat, floats. cbn [tdata].
  by rewrite tabulate2_one, length_tabulate.
Qed.

(** The two stacked cells, on rows, compute the stacked transition. *)
Lemma multiRNNCell_val_stacked (fb : F) P V H1 H2 K1 b1 K2 b2 (x c1 c2 h1 h2 : Tensor) :
  kernel1_val P = Some K1 -> shape K1 = [V + H1; 4 * H1] ->
  bias1_val P = Some b1 -> shape b1 = [4 * H1] ->
  kernel2_val P = Some K2 -> shape K2 = [H1 + H2; 4 * H2] ->
  bias2_val P = Some b2 -> shape b2 = [4 * H2] ->
  is_row x V -> is_row c1 H1 -> is_row c2 H2 -> is_row h1 H1 -> is_row h2 H2 ->
  let s := stacked_transition fb K1 b1 K2 b2 H1 H2
             (floats x) (floats c1) (floats h1) (floats c2) (floats h2) in
  multiRNNCell_val [lstm1_val P (t_scalar fb); lstm2_val P (t_scalar fb)] x [c1; c2] [h1; h2]
  = Ok ([row_tensor s.1.1; row_tensor s.2.1], [row_tensor s.1.2; row_tensor s.2.2]).
Proof.
  intros EK1 SK1 Eb1 Sb1 EK2 SK2 Eb2 Sb2 Hx Hc1 Hc2 Hh1 Hh2 s.
  unfold multiRNNCell_val, lstm1_val, lstm2_val.
  cbn [multiRNNCell_val_from lookup list_lookup fieldR bindR].
  rewrite EK1, Eb1, EK2, Eb2.
  rewrite (basicLSTMCell_val_transition fb K1 b1 SK1 Sb1 Hx Hc1 Hh1). cbn [bindR].
  destruct (length_lstm_transition fb K1 b1 (floats x) (floats c1) (floats h1) (proj2 Hc1)) as [_ L1].
  rewrite (basicLSTMCell_val_transition fb K2 b2 SK2 Sb2 (is_row_row_tensor _ L1) Hc2 Hh2).
  reflexivity.
Qed.

Lemma multiRNNCell_val_ok (fb : F) P V H1 H2 x c h :
  LayersShaped P V H1 H2 -> is_row x V -> state_ok H1 H2 c h ->
  exists c' h', state_ok H1 H2 c' h' /\
    multiRNNCell_val [lstm1_val P (t_scalar fb); lstm2_val P (t_scalar fb)] x c h
    = Ok (c', h').
Proof.
  intros ((K1 & EK1 & SK1) & (b1 & Eb1 & Sb1) & (K2 & EK2 & SK2) & (b2 & Eb2 & Sb2)) Hx.
  intros (c1 & c2 & h1 & h2 & -> & -> & Hc1 & Hc2 & Hh1 & Hh2).
  pose proof (multiRNNCell_val_stacked fb P EK1 SK1 Eb1 Sb1 EK2 SK2 Eb2 Sb2
                Hx Hc1 Hc2 Hh1 Hh2) as E.
  cbv zeta in E. rewrite E. do 2 eexists. split; [|reflexivity].
  unfold stacked_transition. cbn [fst snd].
  destruct (length_lstm_transition fb K1 b1 (floats x) (floats c1) (floats h1) (proj2 Hc1)) as [L1 L2].
  match goal with |- context [lstm_transition fb K2 b2 H2 ?y _ _] =>
    destruct (length_lstm_transition fb K2 b2 y (floats c2) (floats h2) (proj2 Hc2)) as [L3 L4]
  end.
  do 4 eexists. split; [reflexivity|]. split; [reflexivity|].
  repeat split; by apply is_row_row_tensor.
Qed.

Lemma generate_val_ok (rnd : nat -> F) P temperature (inputs : Tensor) L V H1 H2 V' n :
  WellShaped P V H1 H2 V' -> shape inputs = [L; V] ->
  forall i c h samples,
    state_ok H1 H2 c h -> Forall (is_sample V') samples ->
    exists out,
      generate_val rnd P temperature (t_scalar (of_number 1%float)) inputs L V n i c h samples
      = Ok out /\
      Forall (is_sample V') out /\
      length out = length samples + (i + n - Nat.max i L).
Proof.
  intros HW HS. pose proof HW as (HLayers & _).
  induction n as [|n IH]; intros i c h samples Hst Hsm; simpl.
  - exists samples. repeat split; [assumption | lia].
  - destruct (Nat.lt_ge_cases i L) as [Hi|Hi].
    + destruct (nextInput_val_teacher rnd P temperature inputs h samples HS Hi)
        as (x & Hx & ->).
      cbn [bindR].
      destruct (multiRNNCell_val_ok (of_number 1%float) HLayers Hx Hst) as (c' & h' & Hst' & ->).
      cbn [bindR].
      destruct (IH (S i) c' h' samples Hst' Hsm) as (out & -> & Ho & Hl).
      exists out. repeat split; [assumption | lia].
    + destruct (nextInput_val_self rnd temperature inputs samples HW Hst Hi)
        as (x & k & Hx & Hk & ->).
      cbn [bindR].
      destruct (multiRNNCell_val_ok (of_number 1%float) HLayers Hx Hst) as (c' & h' & Hst' & ->).
      cbn [bindR].
      assert (Hsm' : Forall (is_sample V') (samples ++ [mkTensor [] (I32 [Z.of_nat k])])).
      { apply Forall_app. split; [assumption|]. repeat constructor. by exists k. }
      destruct (IH (S i) c' h' _ Hst' Hsm') as (out & -> & Ho & Hl).
      exists out. repeat split; [assumption|]. rewrite Hl, length_app. simpl. lia.
Qed.

Lemma forR_first_value_ok V' (samples : list Tensor) :
  Forall (is_sample V') samples ->
  exists l, forR samples first_value_val = Ok l /\
    length l = length samples /\ Forall (fun z => (0 <= z < Z.of_nat V')%Z) l.
Proof.
  induction 1 as [|t ts (k & Hk & Et) Hts (l & El & Hl & Hr)]; simpl.
  - exists []. repeat split; constructor.
  - exists (Z.of_nat k :: l). rewrite El, Et. repeat split; [simpl; lia|].
    constructor; [lia | assumption].
Qed.

Lemma zeros_row_quarterR_ok H :
  zeros_row_quarterR (4 * H) = Ok (t_zeros [1; H]) /\ is_row (t_zeros (F := F) [1; H]) H.
Proof.
  unfold zeros_row_quarterR.
  replace ((4 * H) mod 4) with 0 by (symmetry; rewrite Nat.mul_comm; apply Nat.Div0.mod_mul).
  replace ((4 * H) `div` 4) with H by (symmetry; rewrite Nat.mul_comm; by apply Nat.div_mul).
  split; [reflexivity|]. split; [reflexivity|].
  unfold floats. cbn [tdata t_zeros]. by rewrite repeat_length, sizeFromShape_row.
Qed.

(** On a model of consistent shapes, a call on an encoded melody of [L] rows
    returns [steps] samples, each below the number of logits. *)
Lemma continue_from_ok (env : Env F) P (inputs : Tensor) L V H1 H2 V' steps temperature :
  WellShaped P V H1 H2 V' -> shape inputs = [L; V] ->
  exists l, continue_from env P inputs steps temperature = Ok l /\
    length l = Z.to_nat steps /\ Forall (fun z => (0 <= z < Z.of_nat V')%Z) l.
Proof.
  intros HW HS.
  pose proof HW as (((K1 & EK1 & SK1) & (b1 & Eb1 & Sb1) & (K2 & EK2 & SK2) & (b2 & Eb2 & Sb2)) & _).
  unfold continue_from. cbv zeta. unfold dimR at 1 2. rewrite HS.
  cbn [lookup list_lookup bindR]. rewrite Eb1, Eb2. cbn [fieldR bindR].
  unfold dimR. rewrite Sb1, Sb2. cbn [lookup list_lookup bindR].
  destruct (zeros_row_quarterR_ok H1) as [-> R1].
  destruct (zeros_row_quarterR_ok H2) as [-> R2].
  cbn [bindR].
  assert (Hst : state_ok H1 H2 [t_zeros [1; H1]; t_zeros [1; H2]]
                               [t_zeros [1; H1]; t_zeros [1; H2]]).
  { do 4 eexists. repeat split; try reflexivity; apply R1 || apply R2. }
  destruct (@generate_val_ok (random env) P temperature inputs L V H1 H2 V'
              (Z.to_nat (Z.of_nat L + steps)) HW HS 0 _ _ [] Hst (Forall_nil_2 _))
    as (out & -> & Ho & Hl).
  cbn [bindR].
  destruct (forR_first_value_ok Ho) as (l & -> & Hll & Hr).
  exists l. repeat split; [|assumption]. rewrite Hll, Hl. simpl. lia.
Qed.

End Generation.

(** ** A call only allocates, and only the converter reports a conversion error *)
Section Frame.
Context {F : Type} {NF : Numeric F}.

#[local] Abbreviation Tensor := (Tensor (F := F)).
#[local] Abbreviation Heap := (list (TensorObj (F := F))).
#[local] Abbreviation M := (M (F := F)).

Lemma tame_ret {A} (a : A) : tame (ret (F := F) a).
Proof. intros w. split; [apply extends_refl | done]. Qed.

Lemma tame_throw {A} e :
  no_conversion_error (Throw (A := A) e) -> tame (throw (F := F) (A := A) e).
Proof. intros He w. split; [apply extends_refl | exact He]. Qed.

Lemma tame_lift {A} (x : res A) : no_conversion_error x -> tame (lift (F := F) x).
Proof. intros Hx w. split; [apply extends_refl | exact Hx]. Qed.

Lemma tame_alloc (t : Tensor) : tame (alloc t).
Proof. intros w. split; [by eexists | done]. Qed.

Lemma tame_read r : tame (read (F := F) r).
Proof.
  intros w. unfold read. destruct (w !! r) as [o|]; [destruct (isDisposed o)|];
    (split; [apply extends_refl | done]).
Qed.

Lemma tame_shapeOf r : tame (shapeOf (F := F) r).
Proof.
  intros w. unfold shapeOf. destruct (w !! r); (split; [apply extends_refl | done]).
Qed.

Lemma tame_bind {A B} (m : M A) (k : A -> M B) :
  tame m -> (forall a, tame (k a)) -> tame (bind m k).
Proof.
  intros Hm Hk w. unfold bind. destruct (Hm w) as [E Q].
  destruct (m w) as [[a|e] w1]; simpl in *.
  - destruct (Hk a w1) as [E' Q']. split; [|exact Q'].
    eapply extends_trans; eauto.
  - split; [exact E|]. intros msg H. injection H as ->. by apply (Q msg).
Qed.

Lemma tame_field {A} (o : option A) : tame (field (F := F) o).
Proof. destruct o; [apply tame_ret | apply tame_throw; intros msg H; discriminate H]. Qed.

Lemma tame_op1 (f : Tensor -> res Tensor) a :
  (forall x, no_conversion_error (f x)) -> tame (op1 f a).
Proof.
  intros Hf. unfold op1. apply tame_bind; [apply tame_read | intros x].
  apply tame_bind; [by apply tame_lift | intros v]. apply tame_alloc.
Qed.

Lemma tame_op2 (f : Tensor -> Tensor -> res Tensor) a b :
  (forall x y, no_conversion_error (f x y)) -> tame (op2 f a b).
Proof.
  intros Hf. unfold op2. apply tame_bind; [apply tame_read | intros x].
  apply tame_bind; [apply tame_read | intros y].
  apply tame_bind; [by apply tame_lift | intros v]. apply tame_alloc.
Qed.

Lemma tame_dim r k : tame (dim (F := F) r k).
Proof.
  unfold dim. apply tame_bind; [apply tame_shapeOf | intros s].
  destruct (s !! k); [apply tame_ret | apply tame_throw; intros msg H; discriminate H].
Qed.

Lemma tame_zeros_row_quarter n : tame (zeros_row_quarter (F := F) n).
Proof.
  unfold zeros_row_quarter.
  destruct (n mod 4 =? 0); [apply tame_alloc | apply tame_throw; intros msg H; discriminate H].
Qed.

Lemma tame_grows {A} (m : M A) : tame m -> grows m.
Proof. intros H w. apply H. Qed.

End Frame.

(** The tensor operations fail with [ShapeError] only. *)
Ltac solve_quiet :=
  intros; intros ?;
  unfold t_as2D, t_as1D, t_asScalar, t_reshape, t_slice, t_matMul, t_concat,
    t_add, t_div, t_broadcast, t_addStrict, t_mulStrict, t_strict, t_argMax,
    t_multinomial, t_oneHot;
  repeat case_match; discriminate.

Ltac tame_prim :=
  lazymatch goal with
  | |- tame (ret _) => apply tame_ret
  | |- tame (throw _) => apply tame_throw; intros ? ?; discriminate
  | |- tame (field _) => apply tame_field
  | |- tame (index _ _) => apply tame_field
  | |- tame (dim _ _) => apply tame_dim
  | |- tame (zeros_row_quarter _) => apply tame_zeros_row_quarter
  | |- tame (dl_scalar _) => apply tame_alloc
  | |- tame (alloc _) => apply tame_alloc
  | |- tame _ => first [apply tame_op2; solve_quiet | apply tame_op1; solve_quiet]
  end.

Ltac tame_step :=
  lazymatch goal with
  | |- tame (bind _ _) => apply tame_bind; [try tame_prim | intros ?]
  | |- tame (let '(_, _) := ?p in _) => destruct p
  | |- tame (if _ then _ else _) => case_match
  | |- tame (match ?o with Some _ => _ | None => _ end) => destruct o
  | |- tame _ => tame_prim
  end.

Section FrameProgram.
Context {F : Type} {NF : Numeric F}.

#[local] Abbreviation Heap := (list (TensorObj (F := F))).

Lemma tame_basicLSTMCell fb kernel bias (d c h : ref) :
  tame (basicLSTMCell (F := F) fb kernel bias d c h).
Proof. unfold basicLSTMCell. cbv zeta. repeat tame_step. Qed.

Lemma tame_multiRNNCell_from (cells : list (LSTMCell (F := F))) :
  Forall (fun cell => forall x c h, tame (cell x c h)) cells ->
  forall i x c h, tame (multiRNNCell_from cells i x c h).
Proof.
  induction 1 as [|cell cells Hcell Hcells IH]; intros i x c h; simpl.
  - apply tame_ret.
  - do 2 tame_step.
    apply tame_bind; [apply Hcell | intros [newC newH]].
    apply tame_bind; [apply IH | intros [cs hs]]. apply tame_ret.
Qed.

Lemma tame_sampledOutput (u : F) temperature logits :
  tame (sampledOutput u temperature logits).
Proof.
  unfold sampledOutput, stochastic, greedy, multinomial, as1D, argMax, div.
  repeat tame_step.
Qed.

Lemma tame_nextInput (rnd : nat -> F) this temperature inputs length outputSize i h samples :
  tame (nextInput rnd this temperature inputs length outputSize i h samples).
Proof.
  unfold nextInput. destruct (i <? length).
  - unfold slice, as2D. repeat tame_step.
  - do 5 tame_step.
    apply tame_bind; [apply tame_sampledOutput | intros sampled].
    unfold oneHot, toFloat, asScalar. repeat tame_step.
Qed.

Lemma tame_generate (rnd : nat -> F) this temperature fb inputs length outputSize n :
  forall i c h samples,
    tame (generate rnd this temperature fb inputs length outputSize n i c h samples).
Proof.
  induction n as [|n IH]; intros i c h samples; simpl.
  - apply tame_ret.
  - apply tame_bind; [apply tame_nextInput | intros [x samples']].
    apply tame_bind; [| intros [newC newH]; apply IH].
    apply tame_multiRNNCell_from.
    repeat constructor; intros; apply tame_basicLSTMCell.
Qed.

Lemma tame_forM_first (samples : list ref) : tame (forM (F := F) samples first_value).
Proof.
  induction samples as [|r rs IH]; simpl; [apply tame_ret|].
  apply tame_bind; [| intros z; apply tame_bind; [apply IH | intros zs; apply tame_ret]].
  unfold first_value, data.
  apply tame_bind; [| intros d; apply tame_field].
  apply tame_bind; [apply tame_read | intros x; apply tame_ret].
Qed.

Lemma continueSequence_after_conversion (env : Env F) this sequence steps temperature :
  continueSequence env this sequence steps temperature
  = (inputs <- converter_toTensor env
                 (mkMelodyConverter (totalQuantizedSteps sequence)
                    DEFAULT_MIN_NOTE DEFAULT_MAX_NOTE) sequence;;
     after_conversion env this steps temperature inputs).
Proof. reflexivity. Qed.

Lemma tame_after_conversion (env : Env F) this steps temperature inputs :
  tame (after_conversion env this steps temperature inputs).
Proof.
  unfold after_conversion. do 15 tame_step.
  apply tame_bind; [apply tame_generate | intros samples; apply tame_forM_first].
Qed.

Lemma grows_continueSequence (env : Env F) this sequence steps temperature :
  grows (continueSequence env this sequence steps temperature).
Proof.
  rewrite continueSequence_after_conversion. unfold converter_toTensor. intros w.
  unfold bind. destruct (toTensor env _ sequence) as [msg|t]; simpl.
  - apply extends_refl.
  - eapply extends_trans; [by eexists | apply tame_after_conversion].
Qed.

End FrameProgram.

(** ** The number of samples, and the random numbers *)
Section Counting.
Context {F : Type} {NF : Numeric F}.

#[local] Abbreviation Tensor := (Tensor (F := F)).
#[local] Abbreviation Heap := (list (TensorObj (F := F))).
#[local] Abbreviation M := (M (F := F)).

Lemma bind_inv {A B} (m : M A) (k : A -> M B) (w : Heap) b :
  fst (bind m k w) = Ok b -> exists a w1, m w = (Ok a, w1) /\ fst (k a w1) = Ok b.
Proof.
  unfold bind. destruct (m w) as [[a|e] w1]; simpl; intros H; [eauto | discriminate H].
Qed.

Lemma nextInput_samples (rnd : nat -> F) this temperature inputs L V i h samples (w : Heap)
    x samples' :
  fst (nextInput rnd this temperature inputs L V i h samples w) = Ok (x, samples') ->
  (i < L /\ samples' = samples) \/ (L <= i /\ exists r, samples' = samples ++ [r]).
Proof.
  unfold nextInput. destruct (Nat.ltb_spec i L) as [Hi|Hi]; intros H;
    repeat (apply bind_inv in H; destruct H as (? & ? & _ & H));
    injection H as _ <-.
  - left. by split.
  - right. split; [done|]. by eexists.
Qed.

Lemma generate_length (rnd : nat -> F) this temperature fb inputs L V n :
  forall i c h samples (w : Heap) out,
    fst (generate rnd this temperature fb inputs L V n i c h samples w) = Ok out ->
    length out = length samples + (i + n - Nat.max i L).
Proof.
  induction n as [|n IH]; intros i c h samples w out H; simpl in H.
  - injection H as <-. lia.
  - apply bind_inv in H. destruct H as ([x samples'] & w1 & Hnext & H).
    apply bind_inv in H. destruct H as ([newC newH] & w2 & _ & H).
    apply IH in H. rewrite H.
    apply (f_equal fst) in Hnext. cbn [fst] in Hnext.
    apply nextInput_samples in Hnext. destruct Hnext as [[Hi ->]|[Hi [r ->]]].
    + lia.
    + rewrite length_app. simpl. lia.
Qed.

Lemma forM_length {A B} (f : A -> M B) (l : list A) (w : Heap) out :
  fst (forM l f w) = Ok out -> length out = length l.
Proof.
  revert w out. induction l as [|a l IH]; intros w out H; simpl in H.
  - by injection H as <-.
  - apply bind_inv in H. destruct H as (b & w1 & _ & H).
    apply bind_inv in H. destruct H as (bs & w2 & Hbs & H).
    injection H as <-. simpl. f_equal. apply (IH w1). by rewrite Hbs.
Qed.

(** Whatever the heap and the model, a call that returns returns [steps]
    samples. *)
Lemma continueSequence_length (env : Env F) this sequence steps temperature (w : Heap) l :
  fst (continueSequence env this sequence steps temperature w) = Ok l ->
  length l = Z.to_nat steps.
Proof.
  unfold continueSequence. cbv zeta. intros H.
  do 16 (apply bind_inv in H; destruct H as (? & ? & _ & H)).
  apply bind_inv in H. destruct H as (samples & w1 & Hgen & H).
  apply forM_length in H. rewrite H.
  apply (f_equal fst) in Hgen. cbn [fst] in Hgen.
  apply generate_length in Hgen. rewrite Hgen. simpl. lia.
Qed.

(** Without a truthy temperature the random numbers are not used. *)
Lemma sampledOutput_val_greedy (u : F) temperature (logits : Tensor) :
  truthy temperature = false ->
  sampledOutput_val u temperature logits = greedy_val logits.
Proof. unfold sampledOutput_val. by intros ->. Qed.

Lemma nextInput_val_greedy (rnd1 rnd2 : nat -> F) P temperature (inputs : Tensor) L V i h
    samples :
  truthy temperature = false ->
  nextInput_val rnd1 P temperature inputs L V i h samples
  = nextInput_val rnd2 P temperature inputs L V i h samples.
Proof.
  intros Ht. unfold nextInput_val. destruct (i <? L); [reflexivity|].
  destruct (fieldR (h !! 1)); [|reflexivity]. cbn [bindR].
  destruct (fieldR (fcW_val P)); [|reflexivity]. cbn [bindR].
  destruct (t_matMul _ _); [|reflexivity]. cbn [bindR].
  destruct (fieldR (fcB_val P)); [|reflexivity]. cbn [bindR].
  destruct (t_add _ _); [|reflexivity]. cbn [bindR].
  by rewrite !sampledOutput_val_greedy.
Qed.

Lemma generate_val_greedy (rnd1 rnd2 : nat -> F) P temperature fb (inputs : Tensor) L V n :
  truthy temperature = false ->
  forall i c h samples,
    generate_val rnd1 P temperature fb inputs L V n i c h samples
    = generate_val rnd2 P temperature fb inputs L V n i c h samples.
Proof.
  intros Ht. induction n as [|n IH]; intros i c h samples; simpl; [reflexivity|].
  rewrite (@nextInput_val_greedy rnd1 rnd2 P temperature inputs L V i h samples Ht).
  destruct (nextInput_val rnd2 _ _ _ _ _ _ _ _) as [[x s']|]; [|reflexivity]. cbn [bindR].
  destruct (multiRNNCell_val _ _ _ _) as [[c' h']|]; [|reflexivity]. cbn [bindR].
  apply IH.
Qed.

Lemma continue_from_greedy (env1 env2 : Env F) P (inputs : Tensor) steps temperature :
  truthy temperature = false ->
  continue_from env1 P inputs steps temperature
  = continue_from env2 P inputs steps temperature.
Proof.
  intros Ht. unfold continue_from. cbv zeta.
  repeat (match goal with |- bindR ?x _ = bindR ?y _ =>
            constr_eq x y; destruct x; cbn [bindR]; [|reflexivity]
          end).
  by rewrite (@generate_val_greedy (random env1) (random env2) P temperature).
Qed.

End Counting.

(** ** A falsy temperature is no temperature *)
Section Falsy.
Context {F : Type} {NF : Numeric F}.

#[local] Abbreviation Heap := (list (TensorObj (F := F))).
#[local] Abbreviation M := (M (F := F)).

Lemma bind_ext {A B} (m m' : M A) (k k' : A -> M B) (w : Heap) :
  m w = m' w -> (forall a w', k a w' = k' a w') -> bind m k w = bind m' k' w.
Proof.
  intros Hm Hk. unfold bind. rewrite Hm. destruct (m' w) as [[a|e] w1]; [apply Hk | done].
Qed.

Lemma sampledOutput_falsy (u : F) temperature logits :
  truthy temperature = false -> sampledOutput u temperature logits = greedy logits.
Proof. unfold sampledOutput. by intros ->. Qed.

Lemma nextInput_falsy (rnd : nat -> F) this temperature inputs length outputSize i h samples
    (w : Heap) :
  truthy temperature = false ->
  nextInput rnd this temperature inputs length outputSize i h samples w
  = nextInput rnd this None inputs length outputSize i h samples w.
Proof.
  intros Ht. unfold nextInput. destruct (i <? length); [reflexivity|].
  do 5 (apply bind_ext; [reflexivity | intros ? ?]).
  apply bind_ext; [|reflexivity]. by rewrite sampledOutput_falsy.
Qed.

Lemma generate_falsy (rnd : nat -> F) this temperature fb inputs length outputSize n :
  truthy temperature = false ->
  forall i c h samples (w : Heap),
    generate rnd this temperature fb inputs length outputSize n i c h samples w
    = generate rnd this None fb inputs length outputSize n i c h samples w.
Proof.
  intros Ht. induction n as [|n IH]; intros i c h samples w; simpl; [reflexivity|].
  apply bind_ext; [by apply nextInput_falsy | intros [x samples'] w1].
  apply bind_ext; [reflexivity | intros [newC newH] w2]. apply IH.
Qed.

Lemma continueSequence_falsy (env : Env F) this sequence steps temperature (w : Heap) :
  truthy temperature = false ->
  continueSequence env this sequence steps temperature w
  = continueSequence env this sequence steps None w.
Proof.
  intros Ht. unfold continueSequence. cbv zeta.
  do 16 (apply bind_ext; [reflexivity | intros ? ?]).
  apply bind_ext; [by apply generate_falsy | reflexivity].
Qed.

End Falsy.

(** * Properties of [MelodyRnn] *)
Section ClassProperties.
Context {F : Type} {NF : Numeric F}.

#[local] Abbreviation Tensor := (Tensor (F := F)).
#[local] Abbreviation Heap := (list (TensorObj (F := F))).

(** C1. Whenever a call of [continueSequence] returns, whatever the heap and
    the model, the sequence has exactly [steps] elements (none when [steps]
    is zero or negative), never [length + steps]; and on a model whose
    parameter tensors are live and of consistent shapes the call does return,
    for every encodable melody, every [steps] and every temperature. *)
Theorem continueSequence_returns_steps_samples (env : Env F) this (w : Heap)
    sequence steps temperature :
  (forall l,
     fst (continueSequence env this sequence steps temperature w) = Ok l ->
     length l = Z.to_nat steps /\ (steps = 0%Z -> l = [])) /\
  (forall P inputs L V H1 H2 V',
     holds w this P ->
     WellShaped P V H1 H2 V' ->
     toTensor env
       (mkMelodyConverter (totalQuantizedSteps sequence) DEFAULT_MIN_NOTE DEFAULT_MAX_NOTE)
       sequence = inr inputs ->
     shape inputs = [L; V] ->
     exists l,
       fst (continueSequence env this sequence steps temperature w) = Ok l /\
       length l = Z.to_nat steps).
Proof.
  split.
  - intros l Hl. apply continueSequence_length in Hl. split; [exact Hl|].
    intros ->. by destruct l.
  - intros P inputs L V H1 H2 V' HP HW Hin HS.
    rewrite (continueSequence_result env sequence steps temperature HP).
    unfold continueSequence_val. rewrite Hin.
    destruct (@continue_from_ok F NF env P inputs L V H1 H2 V' steps temperature HW HS)
      as (l & -> & Hl & _).
    by exists l.
Qed.

(** C4. With a temperature that is unset or zero, two calls on the same
    melody and on models holding the same parameter values return the same
    result, whatever the heaps they run in and the random numbers
    available. *)
Theorem greedy_calls_return_identical_results (env1 env2 : Env F) this1 this2 P
    (w1 w2 : Heap) sequence steps temperature :
  truthy temperature = false ->
  holds w1 this1 P -> holds w2 this2 P ->
  toTensor env1 = toTensor env2 ->
  fst (continueSequence env1 this1 sequence steps temperature w1)
  = fst (continueSequence env2 this2 sequence steps temperature w2).
Proof.
  intros Ht HP1 HP2 Hconv.
  rewrite (continueSequence_result env1 sequence steps temperature HP1).
  rewrite (continueSequence_result env2 sequence steps temperature HP2).
  unfold continueSequence_val. rewrite Hconv.
  destruct (toTensor env2 _ sequence); [reflexivity|].
  by apply continue_from_greedy.
Qed.


(** C6. On every instance that the constructor and [initialize] make,
    [dispose] throws a [TypeError] and releases nothing, every tensor object
    staying as it was; and when the parameter tensors are live and of
    consistent shapes, a later [continueSequence] returns its [steps]
    samples. *)
Theorem dispose_then_continueSequence_returns (env : Env F) url vars P (w : Heap) sequence
    inputs L V H1 H2 V' steps temperature :
  let this := initialize (new_MelodyRnn url) vars in
  holds w this P ->
  WellShaped P V H1 H2 V' ->
  toTensor env
    (mkMelodyConverter (totalQuantizedSteps sequence) DEFAULT_MIN_NOTE DEFAULT_MAX_NOTE)
    sequence = inr inputs ->
  shape inputs = [L; V] ->
  dispose this w = (Throw TypeError, w) /\
  holds (snd (dispose this w)) this P /\
  exists l,
    fst (continueSequence env this sequence steps temperature (snd (dispose this w))) = Ok l /\
    length l = Z.to_nat steps.
Proof.
  intros this HP HW Hin HS.
  assert (Hd : dispose this w = (Throw TypeError, w)) by reflexivity.
  rewrite Hd. cbn [snd]. split; [reflexivity|]. split; [exact HP|].
  rewrite (continueSequence_result env sequence steps temperature HP).
  unfold continueSequence_val. rewrite Hin.
  destruct (@continue_from_ok F NF env P inputs L V H1 H2 V' steps temperature HW HS)
    as (l & -> & Hl & _).
  by exists l.
Qed.

(** X1. [dispose] on an instance made by the constructor and [initialize]
    throws and disposes of nothing: [rawVars] was never assigned. *)
Theorem dispose_after_initialize (url : option string) (vars : gmap string ref) (w : Heap) :
  dispose (initialize (new_MelodyRnn url) vars) w = (Throw TypeError, w).
Proof. reflexivity. Qed.

(** X2. On an instance that was never initialized, a call on an encodable
    melody fails with a [TypeError], reading the shape of the first bias. *)
Theorem continueSequence_before_initialize (env : Env F) url sequence steps temperature
    inputs L V (w : Heap) :
  toTensor env
    (mkMelodyConverter (totalQuantizedSteps sequence) DEFAULT_MIN_NOTE DEFAULT_MAX_NOTE)
    sequence = inr inputs ->
  shape inputs = [L; V] ->
  fst (continueSequence env (new_MelodyRnn url) sequence steps temperature w)
  = Throw TypeError.
Proof.
  intros Hin HS.
  assert (HP : holds w (new_MelodyRnn url) (mkWeights None None None None None None))
    by (repeat split).
  rewrite (continueSequence_result env sequence steps temperature HP).
  unfold continueSequence_val. rewrite Hin. unfold continue_from, dimR. by rewrite HS.
Qed.

(** C7, as amended. Every element of the returned sequence is an index
    below the number [V'] of logits, the columns of the projection, whatever
    the width [V] of the encoded melody, which nothing compares with it: the
    elements are indices of [[0, V)] when the projection has at most [V]
    logits. *)
Theorem samples_are_valid_note_indices (env : Env F) this P (w : Heap) sequence inputs
    L V H1 H2 V' steps temperature :
  holds w this P ->
  WellShaped P V H1 H2 V' ->
  toTensor env
    (mkMelodyConverter (totalQuantizedSteps sequence) DEFAULT_MIN_NOTE DEFAULT_MAX_NOTE)
    sequence = inr inputs ->
  shape inputs = [L; V] ->
  exists l,
    fst (continueSequence env this sequence steps temperature w) = Ok l /\
    length l = Z.to_nat steps /\
    Forall (fun z => (0 <= z < Z.of_nat V')%Z) l /\
    (V' <= V -> Forall (fun z => (0 <= z < Z.of_nat V)%Z) l).
Proof.
  intros HP HW Hin HS.
  rewrite (continueSequence_result env sequence steps temperature HP).
  unfold continueSequence_val. rewrite Hin.
  destruct (@continue_from_ok F NF env P inputs L V H1 H2 V' steps temperature HW HS)
    as (l & -> & Hl & Hr).
  exists l. split; [reflexivity|]. split; [exact Hl|]. split; [exact Hr|].
  intros HV. eapply Forall_impl; [exact Hr|]. intros z Hz. cbv beta in *. lia.
Qed.

(** C8. A call only adds tensor objects to the heap: whatever the arguments,
    and whether it returns or throws, every tensor object that existed before
    the call, the parameter tensors among them, is the same after it. *)
Theorem continueSequence_leaves_tensors_unchanged (env : Env F) this sequence steps
    temperature (w : Heap) :
  extends w (snd (continueSequence env this sequence steps temperature w)) /\
  (forall r o,
     w !! r = Some o ->
     snd (continueSequence env this sequence steps temperature w) !! r = Some o) /\
  (forall P,
     holds w this P ->
     holds (snd (continueSequence env this sequence steps temperature w)) this P).
Proof.
  pose proof (grows_continueSequence env this sequence steps temperature w) as E.
  split; [exact E|]. split.
  - intros r o. by apply extends_lookup.
  - intros P. by apply holds_extends.
Qed.

End ClassProperties.

(** C10. The converter of a call is the one built from the melody's own
    [totalQuantizedSteps] and the note range 48 to 84: a call consults the
    converter at that one configuration only, whatever the melody and the
    other arguments, none of which carries a note range. *)
Theorem converter_has_fixed_note_range {F : Type} {NF : Numeric F} (env1 env2 : Env F)
    this sequence steps temperature (w : list (TensorObj (F := F))) :
  random env1 = random env2 ->
  toTensor env1 (mkMelodyConverter (totalQuantizedSteps sequence) 48 84) sequence
  = toTensor env2 (mkMelodyConverter (totalQuantizedSteps sequence) 48 84) sequence ->
  continueSequence env1 this sequence steps temperature w
  = continueSequence env2 this sequence steps temperature w /\
  continueSequence env1 this sequence steps temperature
  = (inputs <- converter_toTensor env1
                 (mkMelodyConverter (totalQuantizedSteps sequence) 48 84) sequence;;
     after_conversion env1 this steps temperature inputs).
Proof.
  intros Hr Hc. split; [|reflexivity].
  unfold continueSequence, converter_toTensor. cbv zeta.
  change DEFAULT_MIN_NOTE with 48%Z. change DEFAULT_MAX_NOTE with 84%Z.
  by rewrite Hc, Hr.
Qed.

(** * The properties on a concrete model *)

Ltac split_all := repeat match goal with |- _ /\ _ => split end.
Ltac by_evaluation := split_all; vm_compute; reflexivity.
Ltac shapes_by_evaluation :=
  unfold WellShaped, LayersShaped, has_shape;
  split_all; try (eexists; split; reflexivity); try lia.

Lemma continueSequence_returns_steps_samples_witness :
  exists l,
    fst (continueSequence TestBackend.env TestBackend.model TestBackend.melody 3
           (Some 1%float) TestBackend.loaded) = Ok l /\
    length l = 3.
Proof.
  refine (proj2 (continueSequence_returns_steps_samples TestBackend.env
                   TestBackend.model TestBackend.loaded TestBackend.melody 3
                   (Some 1%float))
            TestBackend.weights TestBackend.encoded 2 2 1 1 2 _ _ _ _).
  - unfold holds. by_evaluation.
  - shapes_by_evaluation.
  - reflexivity.
  - reflexivity.
Defined.

Lemma greedy_calls_return_identical_results_witness :
  fst (continueSequence TestBackend.env TestBackend.model TestBackend.melody 3 None
         TestBackend.loaded)
  = fst (continueSequence TestBackend.env_other_draws TestBackend.model TestBackend.melody 3
           None
           (snd (continueSequence TestBackend.env TestBackend.model TestBackend.melody 2
                   (Some 1%float) TestBackend.loaded))).
Proof.
  apply greedy_calls_return_identical_results with (P := TestBackend.weights).
  - reflexivity.
  - unfold holds. by_evaluation.
  - unfold holds. by_evaluation.
  - reflexivity.
Defined.

(** Had [initialize] stored the loaded variables in [rawVars], [dispose]
    would dispose of the six parameter tensors and a later call would fail on
    the first disposed tensor it reads. *)
Lemma dispose_with_rawVars_assigned :
  let stored :=
    mkMelodyRnn (checkpointURL TestBackend.model) (Some TestBackend.vars)
      (lstmKernel1 TestBackend.model) (lstmBias1 TestBackend.model)
      (lstmKernel2 TestBackend.model) (lstmBias2 TestBackend.model)
      (lstmFcB TestBackend.model) (lstmFcW TestBackend.model) in
  fst (dispose stored TestBackend.loaded) = Ok tt /\
  Forall (fun o => isDisposed o = true) (snd (dispose stored TestBackend.loaded)) /\
  fst (continueSequence TestBackend.env stored TestBackend.melody 1 None
         (snd (dispose stored TestBackend.loaded)))
  = Throw TensorDisposed.
Proof.
  cbv zeta. split; [vm_compute; reflexivity|]. split; [|vm_compute; reflexivity].
  vm_compute. repeat constructor.
Qed.



Lemma dispose_then_continueSequence_returns_witness :
  dispose TestBackend.model TestBackend.loaded = (Throw TypeError, TestBackend.loaded) /\
  exists l,
    fst (continueSequence TestBackend.env TestBackend.model TestBackend.melody 1 None
           (snd (dispose TestBackend.model TestBackend.loaded))) = Ok l /\
    length l = Z.to_nat 1.
Proof.
  destruct (@dispose_then_continueSequence_returns float _ TestBackend.env None
              TestBackend.vars TestBackend.weights TestBackend.loaded TestBackend.melody
              TestBackend.encoded 2 2 1 1 2 1 None)
    as (Hd & _ & Hl).
  - unfold holds. by_evaluation.
  - shapes_by_evaluation.
  - reflexivity.
  - reflexivity.
  - exact (conj Hd Hl).
Defined.

Lemma samples_are_valid_note_indices_witness :
  exists l,
    fst (continueSequence TestBackend.env TestBackend.model TestBackend.melody 3
           (Some 1%float) TestBackend.loaded) = Ok l /\
    length l = Z.to_nat 3 /\
    Forall (fun z => (0 <= z < Z.of_nat 2)%Z) l /\
    (2 <= 2 -> Forall (fun z => (0 <= z < Z.of_nat 2)%Z) l).
Proof.
  apply (@samples_are_valid_note_indices float _ TestBackend.env TestBackend.model
           TestBackend.weights TestBackend.loaded TestBackend.melody TestBackend.encoded
           2 2 1 1 2 3 (Some 1%float)).
  - unfold holds. by_evaluation.
  - shapes_by_evaluation.
  - reflexivity.
  - reflexivity.
Defined.

(** C7, the claim as stated fails: with a projection of three logits, the
    third the largest whatever the state, and a melody encoded two wide, the
    call returns the index 2. *)
Lemma sample_beyond_vocabulary :
  ~ (forall (env : Env float) this P (w : Heap) sequence inputs L V H1 H2 V' steps
       temperature,
       holds w this P ->
       WellShaped P V H1 H2 V' ->
       toTensor env
         (mkMelodyConverter (totalQuantizedSteps sequence) DEFAULT_MIN_NOTE DEFAULT_MAX_NOTE)
         sequence = inr inputs ->
       shape inputs = [L; V] ->
       exists l,
         fst (continueSequence env this sequence steps temperature w) = Ok l /\
         Forall (fun z => (0 <= z < Z.of_nat V)%Z) l).
Proof.
  intros H.
  destruct (H TestBackend.env TestBackend.model TestModels.weights_constant
              TestModels.loaded_constant TestBackend.melody TestBackend.encoded
              2 2 1 1 3 1%Z None)
    as (l & Hl & Hr).
  - unfold holds. by_evaluation.
  - shapes_by_evaluation.
  - reflexivity.
  - reflexivity.
  - vm_compute in Hl. injection Hl as <-.
    apply Forall_cons in Hr. destruct Hr as [Hr _]. simpl in Hr. lia.
Qed.

(** C9, the claim as stated fails: [NaN] is a nonzero number, and with it the
    arg-max arm runs, not the stochastic one. *)
Lemma nan_temperature_selects_argmax :
  ~ (forall (t : number) (u : float) (logits : ref) (w : Heap),
       PrimFloat.eqb t 0 = false ->
       sampledOutput u (Some t) logits w = stochastic u t logits w).
Proof.
  intros H.
  specialize (H nan 0.5%float 7 TestBackend.stepHeap eq_refl).
  vm_compute in H. discriminate H.
Qed.

Lemma continueSequence_before_initialize_witness :
  fst (continueSequence TestBackend.env (new_MelodyRnn None) TestBackend.melody 3 None
         TestBackend.loaded)
  = Throw TypeError.
Proof.
  apply (continueSequence_before_initialize TestBackend.env None TestBackend.melody 3 None
           (inputs := TestBackend.encoded) (L := 2) (V := 2)); reflexivity.
Defined.

Lemma converter_has_fixed_note_range_witness :
  continueSequence TestBackend.env TestBackend.model TestBackend.melody 3 None
    TestBackend.loaded
  = continueSequence TestBackend.env_other_ranges TestBackend.model TestBackend.melody 3 None
      TestBackend.loaded.
Proof.
  apply (proj1 (converter_has_fixed_note_range TestBackend.env TestBackend.env_other_ranges
                  TestBackend.model TestBackend.melody 3 None TestBackend.loaded
                  eq_refl eq_refl)).
Defined.

(** * Further lemmas *)

(** ** The loop on values, cut in two *)
Section Continuation.
Context {F : Type} {NF : Numeric F}.

#[local] Abbreviation Tensor := (Tensor (F := F)).

Lemma bindR_inv {A B} (x : res A) (k : A -> res B) b :
  bindR x k = Ok b -> exists a, x = Ok a /\ k a = Ok b.
Proof. destruct x as [a|e]; simpl; intros H; [eauto | discriminate H]. Qed.

Lemma nextInput_val_samples (rnd : nat -> F) P temperature (inputs : Tensor) L V i h samples
    x samples' :
  nextInput_val rnd P temperature inputs L V i h samples = Ok (x, samples') ->
  (i < L /\ samples' = samples) \/ (L <= i /\ exists t, samples' = samples ++ [t]).
Proof.
  unfold nextInput_val. destruct (Nat.ltb_spec i L) as [Hi|Hi]; intros H;
    repeat (apply bindR_inv in H; destruct H as (? & _ & H));
    injection H as _ <-.
  - left. by split.
  - right. split; [done|]. by eexists.
Qed.

(** The samples only grow, by one in each self-feeding step. *)
Lemma generate_val_extends (rnd : nat -> F) P temperature fb (inputs : Tensor) L V n :
  forall i c h samples out,
    generate_val rnd P temperature fb inputs L V n i c h samples = Ok out ->
    exists ext, out = samples ++ ext /\ length ext = i + n - Nat.max i L.
Proof.
  induction n as [|n IH]; intros i c h samples out H; simpl in H.
  - injection H as <-. exists []. rewrite app_nil_r. split; [done | simpl; lia].
  - apply bindR_inv in H. destruct H as ([x samples'] & Hnext & H).
    apply bindR_inv in H. destruct H as ([newC newH] & _ & H).
    apply IH in H. destruct H as (ext & -> & Hl).
    apply nextInput_val_samples in Hnext. destruct Hnext as [[Hi ->]|[Hi [t ->]]].
    + exists ext. split; [done | lia].
    + exists (t :: ext). rewrite <- app_assoc. split; [done | simpl; lia].
Qed.

(** A shorter run of the loop yields a prefix of the samples of a longer
    one. *)
Lemma generate_val_prefix (rnd : nat -> F) P temperature fb (inputs : Tensor) L V a b :
  forall i c h samples out,
    generate_val rnd P temperature fb inputs L V (a + b) i c h samples = Ok out ->
    exists short ext,
      generate_val rnd P temperature fb inputs L V a i c h samples = Ok short /\
      out = short ++ ext /\
      length short = length samples + (i + a - Nat.max i L).
Proof.
  induction a as [|a IH]; intros i c h samples out H.
  - apply generate_val_extends in H. destruct H as (ext & -> & _).
    exists samples, ext. repeat split. lia.
  - change (S a + b) with (S (a + b)) in H. cbn [generate_val] in H |- *.
    apply bindR_inv in H. destruct H as ([x samples'] & Hnext & H). rewrite Hnext.
    cbn [bindR].
    apply bindR_inv in H. destruct H as ([newC newH] & -> & H). cbn [bindR].
    apply IH in H. destruct H as (short & ext & -> & -> & Hl).
    exists short, ext. repeat split. rewrite Hl.
    apply nextInput_val_samples in Hnext. destruct Hnext as [[Hi ->]|[Hi [t ->]]].
    + lia.
    + rewrite length_app. simpl. lia.
Qed.

Lemma forR_app_inv {A B} (f : A -> res B) (l1 l2 : list A) out :
  forR (l1 ++ l2) f = Ok out -> forR l1 f = Ok (take (length l1) out).
Proof.
  revert out. induction l1 as [|a l1 IH]; intros out H; simpl in *; [reflexivity|].
  apply bindR_inv in H. destruct H as (b & -> & H).
  apply bindR_inv in H. destruct H as (bs & Hbs & H). injection H as <-.
  cbn [bindR]. by rewrite (IH _ Hbs).
Qed.

Lemma continue_from_prefix (env : Env F) P (inputs : Tensor) n k temperature l :
  (k <= n)%Z ->
  continue_from env P inputs n temperature = Ok l ->
  continue_from env P inputs k temperature = Ok (take (Z.to_nat k) l).
Proof.
  intros Hk. unfold continue_from. cbv zeta. intros H.
  do 8 (match type of H with bindR ?x _ = Ok _ =>
          destruct x; cbn [bindR] in H |- *; [|discriminate H]
        end).
  apply bindR_inv in H. destruct H as (out & Hgen & H).
  match type of Hgen with
  | generate_val _ _ _ _ _ ?L _ _ _ _ _ _ = _ =>
      replace (Z.to_nat (Z.of_nat L + n))
        with (Z.to_nat (Z.of_nat L + k) + (Z.to_nat (Z.of_nat L + n) - Z.to_nat (Z.of_nat L + k)))
        in Hgen by lia;
      apply generate_val_prefix in Hgen; destruct Hgen as (short & ext & -> & -> & Hl);
      assert (Hs : length short = Z.to_nat k) by (rewrite Hl; simpl; lia)
  end.
  cbn [bindR]. rewrite <- Hs. by apply forR_app_inv with (l2 := ext).
Qed.

(** The replay of the melody: while the loop stays within the [L] rows of
    the encoded melody it needs the two layers only, and adds no sample. *)
Lemma generate_val_replay (rnd : nat -> F) P temperature (inputs : Tensor) L V H1 H2 n :
  LayersShaped P V H1 H2 -> shape inputs = [L; V] ->
  forall i c h samples,
    state_ok H1 H2 c h -> i + n <= L ->
    exists c' h', state_ok H1 H2 c' h' /\
      forall m,
        generate_val rnd P temperature (t_scalar (of_number 1%float)) inputs L V (n + m) i c h
          samples
        = generate_val rnd P temperature (t_scalar (of_number 1%float)) inputs L V m (i + n)
            c' h' samples.
Proof.
  intros HLayers HS.
  induction n as [|n IH]; intros i c h samples Hst Hi.
  - exists c, h. split; [assumption|]. intros m. by rewrite Nat.add_0_r.
  - destruct (@nextInput_val_teacher F NF rnd P temperature inputs L V i h samples HS)
      as (x & Hx & Hnext); [lia|].
    destruct (multiRNNCell_val_ok (of_number 1%float) HLayers Hx Hst) as (c1 & h1 & Hst1 & Hcell).
    destruct (IH (S i) c1 h1 samples Hst1) as (c' & h' & Hst' & Hrest); [lia|].
    exists c', h'. split; [assumption|]. intros m.
    simpl. rewrite Hnext. cbn [bindR]. rewrite Hcell. cbn [bindR].
    rewrite Hrest. f_equal. lia.
Qed.

(** The start of a call on values: the dimensions of the melody and the
    four zero states. *)
Lemma continue_from_start (env : Env F) P (inputs : Tensor) L V H1 H2 steps temperature :
  shape inputs = [L; V] ->
  has_shape (bias1_val P) [4 * H1] -> has_shape (bias2_val P) [4 * H2] ->
  continue_from env P inputs steps temperature
  = (samples <~ generate_val (random env) P temperature (t_scalar (of_number 1%float))
                  inputs L V (Z.to_nat (Z.of_nat L + steps)) 0
                  [t_zeros [1; H1]; t_zeros [1; H2]] [t_zeros [1; H1]; t_zeros [1; H2]] [];;
     forR samples first_value_val) /\
  state_ok H1 H2 [t_zeros [1; H1]; t_zeros [1; H2]] [t_zeros [1; H1]; t_zeros [1; H2]].
Proof.
  intros HS (b1 & Eb1 & Sb1) (b2 & Eb2 & Sb2).
  destruct (zeros_row_quarterR_ok H1) as [E1 R1].
  destruct (zeros_row_quarterR_ok H2) as [E2 R2].
  split.
  - unfold continue_from. cbv zeta. unfold dimR at 1 2. rewrite HS.
    cbn [lookup list_lookup bindR]. rewrite Eb1, Eb2. cbn [fieldR bindR].
    unfold dimR. rewrite Sb1, Sb2. cbn [lookup list_lookup bindR].
    rewrite E1, E2. reflexivity.
  - do 4 eexists. repeat split; try reflexivity; apply R1 || apply R2.
Qed.

End Continuation.

(** ** Calls that fail, and calls that need no projection *)
Section Failures.
Context {F : Type} {NF : Numeric F}.

#[local] Abbreviation Tensor := (Tensor (F := F)).

(** With [steps] zero or negative the loop stays within the melody. *)
Lemma continue_from_replay_only (env : Env F) P (inputs : Tensor) L V H1 H2 steps temperature :
  LayersShaped P V H1 H2 -> shape inputs = [L; V] -> (steps <= 0)%Z ->
  continue_from env P inputs steps temperature = Ok [].
Proof.
  intros HLayers HS Hsteps. pose proof HLayers as (_ & Hb1 & _ & Hb2).
  destruct (@continue_from_start F NF env P inputs L V H1 H2 steps temperature HS Hb1 Hb2)
    as [-> Hst].
  destruct (@generate_val_replay F NF (random env) P temperature inputs L V H1 H2
              (Z.to_nat (Z.of_nat L + steps)) HLayers HS 0 _ _ [] Hst)
    as (c' & h' & _ & Hrun); [lia|].
  specialize (Hrun 0). rewrite Nat.add_0_r in Hrun. rewrite Hrun. reflexivity.
Qed.

(** The first self-feeding step reads the projection. *)
Lemma continue_from_no_projection (env : Env F) P (inputs : Tensor) L V H1 H2 V' steps
    temperature :
  LayersShaped P V H1 H2 -> shape inputs = [L; V] ->
  fcW_val P = None \/ (has_shape (fcW_val P) [H2; V'] /\ fcB_val P = None) ->
  (0 < steps)%Z ->
  continue_from env P inputs steps temperature = Throw TypeError.
Proof.
  intros HLayers HS Hfc Hsteps. pose proof HLayers as (_ & Hb1 & _ & Hb2).
  destruct (@continue_from_start F NF env P inputs L V H1 H2 steps temperature HS Hb1 Hb2)
    as [-> Hst].
  destruct (@generate_val_replay F NF (random env) P temperature inputs L V H1 H2 L
              HLayers HS 0 _ _ [] Hst)
    as (c' & h' & Hst' & Hrun); [lia|].
  replace (Z.to_nat (Z.of_nat L + steps)) with (L + S (Z.to_nat steps - 1)) by lia.
  rewrite Hrun. cbn [generate_val]. unfold nextInput_val.
  replace (0 + L <? L) with false by (symmetry; apply Nat.ltb_ge; lia).
  destruct Hst' as (c1 & c2 & h1 & h2 & -> & -> & _ & _ & _ & Hh2).
  cbn [lookup list_lookup fieldR bindR].
  destruct Hfc as [-> | [(fcW & -> & SW) ->]]; [reflexivity|].
  cbn [fieldR bindR]. by rewrite (matMul_row fcW Hh2 SW).
Qed.

(** The first step multiplies the frame and the hidden state, [V + H1] wide,
    by the first kernel. *)
Lemma continue_from_kernel_mismatch (env : Env F) P (inputs K1 : Tensor) L V H1 H2 steps
    temperature :
  shape inputs = [L; V] ->
  has_shape (bias1_val P) [4 * H1] -> has_shape (bias2_val P) [4 * H2] ->
  kernel1_val P = Some K1 -> (forall C, shape K1 <> [V + H1; C]) ->
  0 < L -> (0 < Z.of_nat L + steps)%Z ->
  continue_from env P inputs steps temperature = Throw ShapeError.
Proof.
  intros HS Hb1 Hb2 EK1 HK HL Hsteps.
  destruct (@continue_from_start F NF env P inputs L V H1 H2 steps temperature HS Hb1 Hb2)
    as [-> _].
  destruct (zeros_row_quarterR_ok (F := F) H1) as [_ Hh1].
  replace (Z.to_nat (Z.of_nat L + steps)) with (S (Z.to_nat (Z.of_nat L + steps) - 1)) by lia.
  cbn [generate_val].
  destruct (@nextInput_val_teacher F NF (random env) P temperature inputs L V 0
              [t_zeros [1; H1]; t_zeros [1; H2]] [] HS)
    as (x & Hx & ->); [lia|].
  cbn [bindR]. unfold multiRNNCell_val.
  cbn [multiRNNCell_val_from lookup list_lookup fieldR bindR].
  unfold lstm1_val at 1. unfold basicLSTMCell_val.
  rewrite (concat_rows Hx Hh1), EK1. cbn [fieldR bindR].
  unfold t_matMul. cbn [shape row_tensor].
  rewrite length_app, (proj2 Hx), (proj2 Hh1).
  destruct (shape K1) as [|k [|n [|? ?]]] eqn:SK; try reflexivity.
  destruct (Nat.eqb_spec (V + H1) k) as [<-|_]; [|reflexivity].
  destruct (HK n). reflexivity.
Qed.

End Failures.

(** ** What a call leaves on the heap *)
Section Retention.
Context {F : Type} {NF : Numeric F}.

#[local] Abbreviation Tensor := (Tensor (F := F)).
#[local] Abbreviation Heap := (list (TensorObj (F := F))).
#[local] Abbreviation M := (M (F := F)).

Lemma retains_same {A} (m : M A) : (forall w, snd (m w) = w) -> retains m.
Proof. intros H w. exists []. by rewrite H, app_nil_r. Qed.

Lemma retains_ret {A} (a : A) : retains (ret (F := F) a).
Proof. by apply retains_same. Qed.

Lemma retains_throw {A} e : retains (throw (F := F) (A := A) e).
Proof. by apply retains_same. Qed.

Lemma retains_lift {A} (x : res A) : retains (lift (F := F) x).
Proof. by apply retains_same. Qed.

Lemma retains_alloc (t : Tensor) : retains (alloc t).
Proof. intros w. exists [mkObj t false]. split; [reflexivity | by repeat constructor]. Qed.

Lemma retains_read r : retains (read (F := F) r).
Proof.
  apply retains_same. intros w. unfold read.
  destruct (w !! r) as [o|]; [destruct (isDisposed o)|]; reflexivity.
Qed.

Lemma retains_shapeOf r : retains (shapeOf (F := F) r).
Proof. apply retains_same. intros w. unfold shapeOf. by destruct (w !! r). Qed.

Lemma retains_bind {A B} (m : M A) (k : A -> M B) :
  retains m -> (forall a, retains (k a)) -> retains (bind m k).
Proof.
  intros Hm Hk w. unfold bind. destruct (Hm w) as (l1 & E1 & L1).
  destruct (m w) as [[a|e] w1]; simpl in E1; subst w1.
  - destruct (Hk a (w ++ l1)) as (l2 & E2 & L2). exists (l1 ++ l2).
    rewrite E2, app_assoc. split; [reflexivity | by apply Forall_app].
  - by exists l1.
Qed.

Lemma retains_field {A} (o : option A) : retains (field (F := F) o).
Proof. destruct o; [apply retains_ret | apply retains_throw]. Qed.

Lemma retains_op1 (f : Tensor -> res Tensor) a : retains (op1 f a).
Proof.
  unfold op1. apply retains_bind; [apply retains_read | intros x].
  apply retains_bind; [apply retains_lift | intros v]. apply retains_alloc.
Qed.

Lemma retains_op2 (f : Tensor -> Tensor -> res Tensor) a b : retains (op2 f a b).
Proof.
  unfold op2. apply retains_bind; [apply retains_read | intros x].
  apply retains_bind; [apply retains_read | intros y].
  apply retains_bind; [apply retains_lift | intros v]. apply retains_alloc.
Qed.

Lemma retains_dim r k : retains (dim (F := F) r k).
Proof.
  unfold dim. apply retains_bind; [apply retains_shapeOf | intros s].
  destruct (s !! k); [apply retains_ret | apply retains_throw].
Qed.

Lemma retains_zeros_row_quarter n : retains (zeros_row_quarter (F := F) n).
Proof.
  unfold zeros_row_quarter. destruct (n mod 4 =? 0); [apply retains_alloc | apply retains_throw].
Qed.

(** Counting what a returning run has allocated. *)
Lemma bind_run {A B} (m : M A) (k : A -> M B) (w : Heap) b w' :
  bind m k w = (Ok b, w') -> exists a w1, m w = (Ok a, w1) /\ k a w1 = (Ok b, w').
Proof.
  unfold bind. destruct (m w) as [[a|e] w1]; intros H; [eauto | discriminate H].
Qed.

Lemma allocates_grows {A} (m : M A) : grows m -> allocates m 0.
Proof.
  intros Hm w a w' H. destruct (Hm w) as [l E]. rewrite H in E. simpl in E. subst w'.
  rewrite length_app. lia.
Qed.

Lemma allocates_bind {A B} (m : M A) (k : A -> M B) n1 n2 :
  allocates m n1 -> (forall a, allocates (k a) n2) -> allocates (bind m k) (n1 + n2).
Proof.
  intros Hm Hk w b w' H. apply bind_run in H. destruct H as (a & w1 & H1 & H2).
  apply Hm in H1. apply Hk in H2. lia.
Qed.

Lemma allocates_bind_more {A B} (m : M A) (k : A -> M B) n :
  allocates m 1 -> (forall a, allocates (k a) n) -> allocates (bind m k) (S n).
Proof. apply allocates_bind with (n1 := 1). Qed.

Lemma allocates_bind_same {A B} (m : M A) (k : A -> M B) n :
  grows m -> (forall a, allocates (k a) n) -> allocates (bind m k) n.
Proof. intros Hm. apply allocates_bind with (n1 := 0). by apply allocates_grows. Qed.

Lemma allocates_alloc (t : Tensor) : allocates (alloc t) 1.
Proof. intros w a w' H. injection H as _ <-. rewrite length_app. simpl. lia. Qed.

Lemma allocates_op1 (f : Tensor -> res Tensor) a : allocates (op1 f a) 1.
Proof.
  unfold op1. apply allocates_bind with (n1 := 0) (n2 := 1); [apply allocates_grows, tame_grows, tame_read|].
  intros x. apply allocates_bind with (n1 := 0) (n2 := 1); [|intros v; apply allocates_alloc].
  intros w v w' H. injection H as _ <-. lia.
Qed.

Lemma allocates_op2 (f : Tensor -> Tensor -> res Tensor) a b : allocates (op2 f a b) 1.
Proof.
  unfold op2. apply allocates_bind with (n1 := 0) (n2 := 1); [apply allocates_grows, tame_grows, tame_read|].
  intros x. apply allocates_bind with (n1 := 0) (n2 := 1); [apply allocates_grows, tame_grows, tame_read|].
  intros y. apply allocates_bind with (n1 := 0) (n2 := 1); [|intros v; apply allocates_alloc].
  intros w v w' H. injection H as _ <-. lia.
Qed.

Lemma allocates_zeros_row_quarter n : allocates (zeros_row_quarter (F := F) n) 1.
Proof.
  unfold zeros_row_quarter. destruct (n mod 4 =? 0); [apply allocates_alloc|].
  intros w a w' H. discriminate H.
Qed.

End Retention.

Ltac retains_prim :=
  lazymatch goal with
  | |- retains (ret _) => apply retains_ret
  | |- retains (throw _) => apply retains_throw
  | |- retains (field _) => apply retains_field
  | |- retains (index _ _) => apply retains_field
  | |- retains (dim _ _) => apply retains_dim
  | |- retains (zeros_row_quarter _) => apply retains_zeros_row_quarter
  | |- retains (dl_scalar _) => apply retains_alloc
  | |- retains (alloc _) => apply retains_alloc
  | |- retains _ => first [apply retains_op2 | apply retains_op1]
  end.

Ltac retains_step :=
  lazymatch goal with
  | |- retains (bind _ _) => apply retains_bind; [try retains_prim | intros ?]
  | |- retains (let '(_, _) := ?p in _) => destruct p
  | |- retains (if _ then _ else _) => case_match
  | |- retains (match ?o with Some _ => _ | None => _ end) => destruct o
  | |- retains _ => retains_prim
  end.

Section RetentionProgram.
Context {F : Type} {NF : Numeric F}.

#[local] Abbreviation Heap := (list (TensorObj (F := F))).

Lemma retains_basicLSTMCell fb kernel bias (d c h : ref) :
  retains (basicLSTMCell (F := F) fb kernel bias d c h).
Proof. unfold basicLSTMCell. cbv zeta. repeat retains_step. Qed.

Lemma retains_multiRNNCell_from (cells : list (LSTMCell (F := F))) :
  Forall (fun cell => forall x c h, retains (cell x c h)) cells ->
  forall i x c h, retains (multiRNNCell_from cells i x c h).
Proof.
  induction 1 as [|cell cells Hcell Hcells IH]; intros i x c h; simpl.
  - apply retains_ret.
  - do 2 retains_step.
    apply retains_bind; [apply Hcell | intros [newC newH]].
    apply retains_bind; [apply IH | intros [cs hs]]. apply retains_ret.
Qed.

Lemma retains_sampledOutput (u : F) temperature logits :
  retains (sampledOutput u temperature logits).
Proof.
  unfold sampledOutput, stochastic, greedy, multinomial, as1D, argMax, div.
  repeat retains_step.
Qed.

Lemma retains_nextInput (rnd : nat -> F) this temperature inputs length outputSize i h samples :
  retains (nextInput rnd this temperature inputs length outputSize i h samples).
Proof.
  unfold nextInput. destruct (i <? length).
  - unfold slice, as2D. repeat retains_step.
  - do 5 retains_step.
    apply retains_bind; [apply retains_sampledOutput | intros sampled].
    unfold oneHot, toFloat, asScalar. repeat retains_step.
Qed.

Lemma retains_cells (this : MelodyRnn) (fb : ref) :
  Forall (fun cell : LSTMCell (F := F) => forall x c h, retains (cell x c h))
    [lstm1 this fb; lstm2 this fb].
Proof.
  constructor; [|constructor; [|constructor]];
    intros; apply retains_basicLSTMCell.
Qed.

Lemma retains_generate (rnd : nat -> F) this temperature fb inputs length outputSize n :
  forall i c h samples,
    retains (generate rnd this temperature fb inputs length outputSize n i c h samples).
Proof.
  induction n as [|n IH]; intros i c h samples; simpl.
  - apply retains_ret.
  - apply retains_bind; [apply retains_nextInput | intros [x samples']].
    apply retains_bind; [| intros [newC newH]; apply IH].
    apply retains_multiRNNCell_from, retains_cells.
Qed.

Lemma retains_forM_first (samples : list ref) : retains (forM (F := F) samples first_value).
Proof.
  induction samples as [|r rs IH]; simpl; [apply retains_ret|].
  apply retains_bind; [| intros z; apply retains_bind; [apply IH | intros zs; apply retains_ret]].
  unfold first_value, data.
  apply retains_bind; [| intros d; apply retains_field].
  apply retains_bind; [apply retains_read | intros x; apply retains_ret].
Qed.

Lemma retains_continueSequence (env : Env F) this sequence steps temperature :
  retains (continueSequence env this sequence steps temperature).
Proof.
  unfold continueSequence. cbv zeta.
  apply retains_bind.
  { unfold converter_toTensor. destruct (toTensor env _ sequence);
      [apply retains_throw | apply retains_alloc]. }
  intros inputs. do 15 retains_step.
  apply retains_bind; [apply retains_generate | intros samples; apply retains_forM_first].
Qed.

(** Every iteration of the loop makes at least two tensors. *)
Lemma allocates_nextInput (rnd : nat -> F) this temperature inputs length outputSize i h
    samples :
  allocates (nextInput rnd this temperature inputs length outputSize i h samples) 2.
Proof.
  unfold nextInput. destruct (i <? length).
  - apply allocates_bind_more; [apply allocates_op1 | intros row].
    apply allocates_bind_more; [apply allocates_op1 | intros x].
    apply allocates_grows, tame_grows, tame_ret.
  - apply allocates_bind_same; [apply tame_grows, tame_field | intros top].
    apply allocates_bind_same; [apply tame_grows, tame_field | intros fcW].
    apply allocates_bind_more; [apply allocates_op2 | intros projected].
    apply allocates_bind_same; [apply tame_grows, tame_field | intros fcB].
    apply allocates_bind_more; [apply allocates_op2 | intros logits].
    apply allocates_grows, tame_grows.
    apply tame_bind; [apply tame_sampledOutput | intros sampled].
    unfold oneHot, toFloat, asScalar. repeat tame_step.
Qed.

Lemma allocates_generate (rnd : nat -> F) this temperature fb inputs length outputSize n :
  forall i c h samples,
    allocates (generate rnd this temperature fb inputs length outputSize n i c h samples)
      (2 * n).
Proof.
  induction n as [|n IH]; intros i c h samples.
  - apply allocates_grows, tame_grows, tame_ret.
  - replace (2 * S n) with (2 + 2 * n) by lia. cbn [generate].
    apply allocates_bind; [apply allocates_nextInput | intros [x samples']].
    apply allocates_bind_same; [| intros [newC newH]; apply IH].
    apply tame_grows, tame_multiRNNCell_from.
    repeat constructor; intros; apply tame_basicLSTMCell.
Qed.

Lemma dim_run (w : Heap) r o k d :
  w !! r = Some o -> shape (tval o) !! k = Some d -> dim r k w = (Ok d, w).
Proof. intros Hr Hk. unfold dim, bind, shapeOf. by rewrite Hr, Hk. Qed.

Lemma allocates_after_conversion (env : Env F) this steps temperature inputs (w : Heap) o L
    rest l w' :
  w !! inputs = Some o -> shape (tval o) = L :: rest ->
  after_conversion env this steps temperature inputs w = (Ok l, w') ->
  length w + 5 + 2 * Z.to_nat (Z.of_nat L + steps) <= length w'.
Proof.
  intros Hin HS H. unfold after_conversion in H.
  apply bind_run in H. destruct H as (fb & w1 & Hfb & H).
  injection Hfb as _ <-.
  apply bind_run in H. destruct H as (len & w2 & Hlen & H).
  rewrite (@dim_run _ inputs o 0 L) in Hlen
    by (by apply lookup_app_l_Some || by rewrite HS).
  injection Hlen as <- <-.
  match type of H with
  | ?m _ = _ => assert (HA : allocates m (4 + 2 * Z.to_nat (Z.of_nat L + steps)))
  end.
  { apply allocates_bind_same; [apply tame_grows, tame_dim | intros outputSize].
    do 4 (apply allocates_bind_same; [apply tame_grows, tame_field | intros ?];
          apply allocates_bind_same; [apply tame_grows, tame_dim | intros ?];
          apply allocates_bind_more; [apply allocates_zeros_row_quarter | intros ?]).
    rewrite <- (Nat.add_0_r (2 * _)).
    apply allocates_bind; [apply allocates_generate | intros samples].
    apply allocates_grows, tame_grows, tame_forM_first. }
  apply HA in H. rewrite length_app in H. simpl in H. lia.
Qed.

End RetentionProgram.

(** ** The random numbers and the fields that a call reads *)
Section Inputs.
Context {F : Type} {NF : Numeric F}.

#[local] Abbreviation Heap := (list (TensorObj (F := F))).

Lemma generate_draws (rnd1 rnd2 : nat -> F) this temperature fb inputs L V n :
  forall i c h samples (w : Heap),
    (forall j, i <= j < i + n -> L <= j -> rnd1 (j - L) = rnd2 (j - L)) ->
    generate rnd1 this temperature fb inputs L V n i c h samples w
    = generate rnd2 this temperature fb inputs L V n i c h samples w.
Proof.
  induction n as [|n IH]; intros i c h samples w Hr; [reflexivity|]. cbn [generate].
  apply bind_ext.
  - unfold nextInput. destruct (Nat.ltb_spec i L) as [Hi|Hi]; [reflexivity|].
    rewrite (Hr i) by lia. reflexivity.
  - intros [x samples'] w1. apply bind_ext; [reflexivity | intros [newC newH] w2].
    apply IH. intros j Hj. apply Hr. lia.
Qed.

Lemma generate_fields (rnd : nat -> F) this1 this2 temperature fb inputs L V n :
  lstmKernel1 this1 = lstmKernel1 this2 -> lstmBias1 this1 = lstmBias1 this2 ->
  lstmKernel2 this1 = lstmKernel2 this2 -> lstmBias2 this1 = lstmBias2 this2 ->
  lstmFcB this1 = lstmFcB this2 -> lstmFcW this1 = lstmFcW this2 ->
  forall i c h samples (w : Heap),
    generate rnd this1 temperature fb inputs L V n i c h samples w
    = generate rnd this2 temperature fb inputs L V n i c h samples w.
Proof.
  intros EK1 Eb1 EK2 Eb2 EB EW.
  induction n as [|n IH]; intros i c h samples w; [reflexivity|]. cbn [generate].
  apply bind_ext.
  - unfold nextInput. by rewrite EB, EW.
  - intros [x samples'] w1. apply bind_ext; [| intros [newC newH] w2; apply IH].
    unfold lstm1, lstm2. by rewrite EK1, Eb1, EK2, Eb2.
Qed.

End Inputs.

(** ** Disposal *)
Section Disposal.
Context {F : Type} {NF : Numeric F}.

#[local] Abbreviation Heap := (list (TensorObj (F := F))).

Lemma disposed_obj_twice (o : option (TensorObj (F := F))) :
  disposed_obj <$> (disposed_obj <$> o) = disposed_obj <$> o.
Proof. by destruct o. Qed.

(** Disposing of the tensors that [names] name in [vars], one after the
    other: the heap keeps its objects, those named are flagged. *)
Lemma forEach_dispose (vars : gmap string ref) (names : list string) (w : Heap) :
  (forall name, name ∈ names -> is_Some (vars !! name)) ->
  let m := forEach names (fun name => r <- field (vars !! name);; tensor_dispose r) in
  fst (m w) = Ok tt /\
  forall r,
    snd (m w) !! r
    = if decide (r ∈ omap (fun name => vars !! name) names)
      then disposed_obj <$> w !! r else w !! r.
Proof.
  revert w. induction names as [|name names IH]; intros w Hn; cbv zeta.
  - split; [reflexivity|]. intros r. simpl. destruct (decide (r ∈ [])) as [H|_]; [|reflexivity].
    by apply elem_of_nil in H.
  - destruct (Hn name) as [r0 Hr0]; [by left|].
    destruct (IH (alter disposed_obj r0 w)) as [Hok Hw].
    { intros name' H. apply Hn. by right. }
    cbv zeta in Hok, Hw. cbn [forEach omap list_omap]. unfold bind at 1 2. rewrite Hr0.
    cbn [field ret tensor_dispose]. split; [exact Hok|]. intros r. rewrite Hw.
    destruct (decide (r = r0)) as [->|Hne].
    + rewrite list_lookup_alter_eq, disposed_obj_twice.
      destruct (decide (r0 ∈ r0 :: _)) as [_|H]; [|destruct H; by left].
      by destruct (decide (r0 ∈ _)).
    + rewrite list_lookup_alter_ne by done.
      destruct (decide (r ∈ omap _ names)) as [H|H];
        destruct (decide (r ∈ r0 :: _)) as [H'|H']; try reflexivity.
      * destruct H'. by right.
      * apply elem_of_cons in H'. destruct H' as [H'|H']; contradiction.
Qed.

Lemma named_in_rawVars (vars : gmap string ref) r :
  r ∈ omap (fun name => vars !! name) (map_to_list vars).*1 <->
  exists name, vars !! name = Some r.
Proof.
  rewrite list_elem_of_omap. split.
  - intros (name & _ & H). by exists name.
  - intros (name & H). exists name. split; [|exact H].
    apply list_elem_of_fmap. exists (name, r). split; [reflexivity|].
    by apply elem_of_map_to_list.
Qed.

Lemma dispose_run (this : MelodyRnn) vars (w : Heap) :
  rawVars this = Some vars ->
  fst (dispose this w) = Ok tt /\
  forall r,
    snd (dispose this w) !! r
    = if decide (r ∈ omap (fun name => vars !! name) (map_to_list vars).*1)
      then disposed_obj <$> w !! r else w !! r.
Proof.
  intros Hraw. unfold dispose. rewrite Hraw. apply forEach_dispose.
  intros name H. apply list_elem_of_fmap in H. destruct H as ([name' r] & -> & H).
  apply elem_of_map_to_list in H. by exists r.
Qed.

End Disposal.

(** ** The errors of a call on values *)
Section Errors.
Context {F : Type} {NF : Numeric F}.

#[local] Abbreviation Tensor := (Tensor (F := F)).

Lemma plain_Ok {A} (a : A) : plain (Ok a).
Proof. intros e H. discriminate H. Qed.

Lemma plain_bindR {A B} (x : res A) (k : A -> res B) :
  plain x -> (forall a, plain (k a)) -> plain (bindR x k).
Proof. intros Hx Hk. destruct x as [a|e]; simpl; [apply Hk|]. intros e' [= <-]. by apply Hx. Qed.

Lemma plain_fieldR {A} (o : option A) : plain (fieldR o).
Proof. destruct o; intros e [= <-]. by left. Qed.

Lemma plain_dimR (t : Tensor) k : plain (dimR t k).
Proof. unfold dimR. destruct (shape t !! k); intros e [= <-]. by right. Qed.

Lemma plain_zeros_row_quarterR n : plain (zeros_row_quarterR (F := F) n).
Proof. unfold zeros_row_quarterR. destruct (n mod 4 =? 0); intros e [= <-]. by right. Qed.

End Errors.

Ltac plain_op :=
  intros ? ?;
  unfold t_as2D, t_as1D, t_asScalar, t_reshape, t_slice, t_matMul, t_concat,
    t_add, t_div, t_broadcast, t_addStrict, t_mulStrict, t_strict, t_argMax,
    t_multinomial, t_oneHot in *;
  repeat case_match; simplify_eq; by right.

Ltac plain_prim :=
  lazymatch goal with
  | |- plain (Ok _) => apply plain_Ok
  | |- plain (fieldR _) => apply plain_fieldR
  | |- plain (dimR _ _) => apply plain_dimR
  | |- plain (zeros_row_quarterR _) => apply plain_zeros_row_quarterR
  | |- plain _ => plain_op
  end.

Ltac plain_step :=
  lazymatch goal with
  | |- plain (bindR _ _) => apply plain_bindR; [try plain_prim | intros ?]
  | |- plain (let '(_, _) := ?p in _) => destruct p
  | |- plain (if _ then _ else _) => case_match
  | |- plain (match ?o with Some _ => _ | None => _ end) => destruct o
  | |- plain _ => plain_prim
  end.

Section ErrorsProgram.
Context {F : Type} {NF : Numeric F}.

#[local] Abbreviation Tensor := (Tensor (F := F)).

Lemma plain_basicLSTMCell_val (fb : Tensor) kernel bias d c h :
  plain (basicLSTMCell_val fb kernel bias d c h).
Proof. unfold basicLSTMCell_val. cbv zeta. repeat plain_step. Qed.

Lemma plain_multiRNNCell_val_from (cells : list (LSTMCell_val (F := F))) :
  Forall (fun cell => forall x c h, plain (cell x c h)) cells ->
  forall i x c h, plain (multiRNNCell_val_from cells i x c h).
Proof.
  induction 1 as [|cell cells Hcell Hcells IH]; intros i x c h; simpl.
  - apply plain_Ok.
  - do 2 plain_step.
    apply plain_bindR; [apply Hcell | intros [newC newH]].
    apply plain_bindR; [apply IH | intros [cs hs]]. apply plain_Ok.
Qed.

Lemma plain_sampledOutput_val (u : F) temperature (logits : Tensor) :
  plain (sampledOutput_val u temperature logits).
Proof. unfold sampledOutput_val, stochastic_val, greedy_val. repeat plain_step. Qed.

Lemma plain_nextInput_val (rnd : nat -> F) P temperature (inputs : Tensor) L V i h samples :
  plain (nextInput_val rnd P temperature inputs L V i h samples).
Proof.
  unfold nextInput_val. destruct (i <? L); [repeat plain_step|].
  do 5 plain_step.
  apply plain_bindR; [apply plain_sampledOutput_val | intros sampled].
  repeat plain_step.
Qed.

Lemma plain_generate_val (rnd : nat -> F) P temperature fb (inputs : Tensor) L V n :
  forall i c h samples, plain (generate_val rnd P temperature fb inputs L V n i c h samples).
Proof.
  induction n as [|n IH]; intros i c h samples; cbn [generate_val]; [apply plain_Ok|].
  apply plain_bindR; [apply plain_nextInput_val | intros [x samples']].
  apply plain_bindR; [| intros [newC newH]; apply IH].
  unfold multiRNNCell_val. apply plain_multiRNNCell_val_from.
  constructor; [|constructor; [|constructor]];
    intros; apply plain_basicLSTMCell_val.
Qed.

Lemma plain_forR_first (samples : list Tensor) : plain (forR samples first_value_val).
Proof.
  induction samples as [|t ts IH]; simpl; [apply plain_Ok|].
  apply plain_bindR; [apply plain_fieldR | intros z].
  apply plain_bindR; [apply IH | intros zs; apply plain_Ok].
Qed.

Lemma plain_continue_from (env : Env F) P (inputs : Tensor) steps temperature :
  plain (continue_from env P inputs steps temperature).
Proof.
  unfold continue_from. cbv zeta. do 14 plain_step.
  apply plain_bindR; [apply plain_generate_val | intros samples; apply plain_forR_first].
Qed.

End ErrorsProgram.

(** ** Resuming a continuation *)
Section Resume.
Context {F : Type} {NF : Numeric F}.

#[local] Abbreviation Tensor := (Tensor (F := F)).

(** The frame that the replay of a row feeds to the layers. *)
Lemma nextInput_val_row (rnd : nat -> F) P temperature (inputs : Tensor) L V i h samples :
  shape inputs = [L; V] -> i < L ->
  nextInput_val rnd P temperature inputs L V i h samples
  = Ok (mkTensor [1; V] (F32 (tabulate V (fun j => at_ inputs (i * V + j)))), samples).
Proof.
  intros S Hi. unfold nextInput_val.
  replace (i <? L) with true by (symmetry; apply Nat.ltb_lt; lia).
  unfold t_slice. rewrite S.
  replace (i + 1 <=? L) with true by (symmetry; apply Nat.leb_le; lia).
  replace (0 + V <=? V) with true by (symmetry; apply Nat.leb_le; lia).
  cbn [andb bindR]. unfold t_as2D, t_reshape, size. cbn [shape].
  rewrite Nat.eqb_refl. cbn [bindR tdata]. rewrite tabulate2_one.
  do 4 f_equal. apply tabulate_ext. intros j _. f_equal. lia.
Qed.

(** The frame that a self-feeding step feeds to the layers is the one-hot
    row of the sample it records. *)
Lemma nextInput_val_fed (rnd : nat -> F) P temperature (inputs : Tensor) L V i h samples x
    samples' :
  L <= i ->
  nextInput_val rnd P temperature inputs L V i h samples = Ok (x, samples') ->
  exists sample,
    samples' = samples ++ [sample] /\
    x = mkTensor [1; V]
          (F32 (tabulate V (fun j =>
                  if (Z.of_nat j =? nth 0 (ints sample) 0%Z)%Z then of_int 1 else of_int 0))).
Proof.
  intros Hi. unfold nextInput_val.
  replace (i <? L) with false by (symmetry; apply Nat.ltb_ge; lia).
  intros H.
  do 5 (apply bindR_inv in H; destruct H as (? & _ & H)).
  apply bindR_inv in H. destruct H as (sampled & _ & H).
  apply bindR_inv in H. destruct H as (hot & Hhot & H).
  apply bindR_inv in H. destruct H as (sample & Hsample & H).
  injection H as <- <-. exists sample. split; [reflexivity|].
  unfold t_asScalar, t_reshape in Hsample.
  destruct (Nat.eqb_spec (sizeFromShape []) (size sampled)) as [Hsize|]; [|discriminate Hsample].
  injection Hsample as <-.
  unfold t_oneHot in Hhot. unfold size in Hsize.
  destruct (shape sampled) as [|n [|? ?]]; try discriminate Hhot.
  injection Hhot as <-. simpl in Hsize.
  assert (n = 1) as -> by lia.
  unfold t_toFloat, floats, ints. cbn [shape tdata]. by rewrite tabulate2_one.
Qed.

(** A self-feeding step reads neither the melody nor the samples so far. *)
Lemma nextInput_val_shift (rnd rnd' : nat -> F) P temperature (inputs inputs' : Tensor)
    L L' V i h samples samples' x sample :
  L <= i -> L' <= i -> rnd' (i - L') = rnd (i - L) ->
  nextInput_val rnd P temperature inputs L V i h samples = Ok (x, samples ++ [sample]) ->
  nextInput_val rnd' P temperature inputs' L' V i h samples' = Ok (x, samples' ++ [sample]).
Proof.
  intros Hi Hi' Hrnd. unfold nextInput_val.
  replace (i <? L) with false by (symmetry; apply Nat.ltb_ge; lia).
  replace (i <? L') with false by (symmetry; apply Nat.ltb_ge; lia).
  rewrite Hrnd. intros H.
  do 8 (match type of H with bindR ?y _ = Ok _ =>
          destruct y; cbn [bindR] in H |- *; [|discriminate H]
        end).
  injection H as <- E. apply app_inv_head in E. by injection E as <-.
Qed.

Lemma forR_lookup {A B} (f : A -> res B) (l : list A) out i a :
  forR l f = Ok out -> l !! i = Some a -> exists b, f a = Ok b /\ out !! i = Some b.
Proof.
  revert out i. induction l as [|a' l IH]; intros out i H Hi; [discriminate Hi|].
  simpl in H. apply bindR_inv in H. destruct H as (b & Hb & H).
  apply bindR_inv in H. destruct H as (bs & Hbs & H). injection H as <-.
  destruct i as [|i]; simpl in Hi.
  - injection Hi as <-. by exists b.
  - by apply (IH bs i).
Qed.

Lemma forR_drop {A B} (f : A -> res B) (l : list A) out k :
  forR l f = Ok out -> forR (drop k l) f = Ok (drop k out).
Proof.
  revert l out. induction k as [|k IH]; intros l out H; [by rewrite !drop_0|].
  destruct l as [|a l]; simpl in H.
  - by injection H as <-.
  - apply bindR_inv in H. destruct H as (b & Hb & H).
    apply bindR_inv in H. destruct H as (bs & Hbs & H). injection H as <-.
    simpl. by apply IH.
Qed.

(** The loop on [inputs'], the melody [inputs] followed by the one-hot rows
    of the first [k] samples, with the random numbers after the first [k]:
    it goes through the same states, and yields the samples after the first
    [k]. *)
Lemma generate_val_resume (rnd rnd' : nat -> F) P temperature fb (inputs inputs' : Tensor)
    L V k out :
  shape inputs = [L; V] -> shape inputs' = [L + k; V] ->
  (forall p, p < L * V -> at_ inputs' p = at_ inputs p) ->
  (forall idx t j,
     idx < k -> out !! idx = Some t -> j < V ->
     at_ inputs' ((L + idx) * V + j)
     = if (Z.of_nat j =? nth 0 (ints t) 0%Z)%Z then of_int 1 else of_int 0) ->
  (forall j, rnd' j = rnd (j + k)) ->
  forall n i c h samples,
    length samples = i - L ->
    generate_val rnd P temperature fb inputs L V n i c h samples = Ok out ->
    generate_val rnd' P temperature fb inputs' (L + k) V n i c h (drop k samples)
    = Ok (drop k out).
Proof.
  intros HS HS' Hmelody Hrows Hrnd.
  induction n as [|n IH]; intros i c h samples Hlen H; cbn [generate_val] in H |- *.
  - by injection H as <-.
  - apply bindR_inv in H. destruct H as ([x samples'] & Hnext & H).
    apply bindR_inv in H. destruct H as ([newC newH] & Hcell & H).
    destruct (Nat.lt_ge_cases i L) as [Hi|Hi].
    + rewrite (@nextInput_val_row rnd P temperature inputs L V i h samples HS Hi) in Hnext.
      injection Hnext as <- <-.
      rewrite (@nextInput_val_row rnd' P temperature inputs' (L + k) V i h (drop k samples) HS')
        by lia.
      cbn [bindR].
      replace (tabulate V (fun j => at_ inputs' (i * V + j)))
        with (tabulate V (fun j => at_ inputs (i * V + j)))
        by (apply tabulate_ext; intros j Hj; symmetry; apply Hmelody; nia).
      rewrite Hcell. cbn [bindR]. apply IH; [lia | exact H].
    + pose proof H as Hout. apply generate_val_extends in Hout. destruct Hout as (ext & Hout & _).
      destruct (nextInput_val_fed _ _ _ _ _ _ _ Hi Hnext) as (sample & -> & ->).
      destruct (Nat.lt_ge_cases i (L + k)) as [Hk|Hk].
      * rewrite (@nextInput_val_row rnd' P temperature inputs' (L + k) V i h (drop k samples) HS')
          by lia.
        cbn [bindR].
        replace (tabulate V (fun j => at_ inputs' (i * V + j)))
          with (tabulate V (fun j =>
                  if (Z.of_nat j =? nth 0 (ints sample) 0%Z)%Z then of_int 1 else of_int 0)).
        2:{ apply tabulate_ext. intros j Hj. symmetry.
            replace i with (L + (i - L)) at 1 by lia. apply Hrows; [lia| |exact Hj].
            rewrite Hout, <- app_assoc, lookup_app_r by lia.
            by rewrite Hlen, Nat.sub_diag. }
        rewrite Hcell. cbn [bindR].
        replace (drop k samples) with (drop k (samples ++ [sample]))
          by (rewrite !drop_ge by (rewrite ?length_app; simpl; lia); reflexivity).
        apply IH; [rewrite length_app; simpl; lia | exact H].
      * rewrite (@nextInput_val_shift rnd rnd' P temperature inputs inputs' L (L + k) V i h
                   samples (drop k samples) _ sample Hi Hk)
          by (done || (rewrite Hrnd; f_equal; lia)).
        cbn [bindR]. rewrite Hcell. cbn [bindR].
        replace (drop k samples ++ [sample]) with (drop k (samples ++ [sample]))
          by (rewrite drop_app_le by lia; reflexivity).
        apply IH; [rewrite length_app; simpl; lia | exact H].
Qed.

Lemma continue_from_resume (env env' : Env F) P (inputs inputs' : Tensor) L V n k
    temperature l :
  shape inputs = [L; V] -> shape inputs' = [L + k; V] ->
  (forall p, p < L * V -> at_ inputs' p = at_ inputs p) ->
  (forall idx j,
     idx < k -> j < V ->
     at_ inputs' ((L + idx) * V + j)
     = if (Z.of_nat j =? nth idx l 0%Z)%Z then of_int 1 else of_int 0) ->
  (forall j, random env' j = random env (j + k)) ->
  continue_from env P inputs n temperature = Ok l ->
  continue_from env' P inputs' (n - Z.of_nat k) temperature = Ok (drop k l).
Proof.
  intros HS HS' Hmelody Hrows Hrnd. unfold continue_from. cbv zeta.
  unfold dimR at 1 2 7 8. rewrite HS, HS'. cbn [lookup list_lookup bindR]. intros H.
  do 6 (match type of H with bindR ?x _ = Ok _ =>
          destruct x; cbn [bindR] in H |- *; [|discriminate H]
        end).
  apply bindR_inv in H. destruct H as (out & Hgen & H).
  replace (Z.to_nat (Z.of_nat (L + k) + (n - Z.of_nat k))) with (Z.to_nat (Z.of_nat L + n))
    by lia.
  assert (Hrows' : forall idx t j,
            idx < k -> out !! idx = Some t -> j < V ->
            at_ inputs' ((L + idx) * V + j)
            = if (Z.of_nat j =? nth 0 (ints t) 0%Z)%Z then of_int 1 else of_int 0).
  { intros idx t j Hidx Ht Hj. rewrite (Hrows idx j Hidx Hj).
    destruct (forR_lookup _ _ idx H Ht) as (z & Hz & Hl).
    unfold first_value_val in Hz. destruct (ints t !! 0) as [z'|] eqn:Ez; [|discriminate Hz].
    injection Hz as ->.
    by rewrite (nth_lookup_Some _ _ _ _ Hl), (nth_lookup_Some _ _ _ _ Ez). }
  pose proof (@generate_val_resume (random env) (random env') P temperature _ inputs inputs'
                L V k out HS HS' Hmelody Hrows' Hrnd _ 0 _ _ [] eq_refl Hgen) as R.
  rewrite drop_nil in R. rewrite R. cbn [bindR]. by apply forR_drop.
Qed.

End Resume.

(** * Further properties of [MelodyRnn] *)
Section FurtherProperties.
Context {F : Type} {NF : Numeric F}.

#[local] Abbreviation Tensor := (Tensor (F := F)).
#[local] Abbreviation Heap := (list (TensorObj (F := F))).

(** X3. A call keeps no state for the next one: on a model whose parameter
    tensors are live, the result of a call is the same after any earlier
    call on the instance as without it. *)
Theorem calls_are_independent (env env' : Env F) this P (w : Heap)
    sequence steps temperature sequence' steps' temperature' :
  holds w this P ->
  fst (continueSequence env this sequence steps temperature
         (snd (continueSequence env' this sequence' steps' temperature' w)))
  = fst (continueSequence env this sequence steps temperature w).
Proof.
  intros HP.
  assert (HP' : holds (snd (continueSequence env' this sequence' steps' temperature' w)) this P).
  { eapply holds_extends; [apply grows_continueSequence | exact HP]. }
  rewrite (continueSequence_result env sequence steps temperature HP').
  by rewrite (continueSequence_result env sequence steps temperature HP).
Qed.

(** X4. The returned indices range over the logits of the projection, not
    over the width of the encoded melody: when the projection yields [V']
    logits, whatever the vocabulary size [V], the call returns and every
    element is in [[0, V')]. *)
Theorem samples_range_over_the_logits (env : Env F) this P (w : Heap) sequence inputs
    L V H1 H2 V' steps temperature :
  holds w this P ->
  WellShaped P V H1 H2 V' ->
  toTensor env
    (mkMelodyConverter (totalQuantizedSteps sequence) DEFAULT_MIN_NOTE DEFAULT_MAX_NOTE)
    sequence = inr inputs ->
  shape inputs = [L; V] ->
  exists l,
    fst (continueSequence env this sequence steps temperature w) = Ok l /\
    Forall (fun z => (0 <= z < Z.of_nat V')%Z) l.
Proof.
  intros HP HW Hin HS.
  rewrite (continueSequence_result env sequence steps temperature HP).
  unfold continueSequence_val. rewrite Hin.
  destruct (@continue_from_ok F NF env P inputs L V H1 H2 V' steps temperature HW HS)
    as (l & -> & _ & Hr).
  by exists l.
Qed.

(** X5. With [steps] zero or negative the call only replays the melody, or
    a part of it, and returns the empty sequence; the projection is not
    read, and may be missing. *)
Theorem no_step_needs_no_projection (env : Env F) this P (w : Heap) sequence inputs
    L V H1 H2 steps temperature :
  holds w this P ->
  LayersShaped P V H1 H2 ->
  toTensor env
    (mkMelodyConverter (totalQuantizedSteps sequence) DEFAULT_MIN_NOTE DEFAULT_MAX_NOTE)
    sequence = inr inputs ->
  shape inputs = [L; V] ->
  (steps <= 0)%Z ->
  fst (continueSequence env this sequence steps temperature w) = Ok [].
Proof.
  intros HP HLayers Hin HS Hsteps.
  rewrite (continueSequence_result env sequence steps temperature HP).
  unfold continueSequence_val. rewrite Hin.
  by apply continue_from_replay_only with (L := L) (V := V) (H1 := H1) (H2 := H2).
Qed.

(** X6. When the checkpoint had no projection weights, or had the weights
    but no projection bias, a call with a positive [steps] replays the whole
    melody and then fails with a [TypeError] in the first self-feeding
    step. *)
Theorem missing_projection_throws (env : Env F) this P (w : Heap) sequence inputs
    L V H1 H2 V' steps temperature :
  holds w this P ->
  LayersShaped P V H1 H2 ->
  toTensor env
    (mkMelodyConverter (totalQuantizedSteps sequence) DEFAULT_MIN_NOTE DEFAULT_MAX_NOTE)
    sequence = inr inputs ->
  shape inputs = [L; V] ->
  lstmFcW this = None \/ (has_shape (fcW_val P) [H2; V'] /\ lstmFcB this = None) ->
  (0 < steps)%Z ->
  fst (continueSequence env this sequence steps temperature w) = Throw TypeError.
Proof.
  intros HP HLayers Hin HS Hfc Hsteps.
  rewrite (continueSequence_result env sequence steps temperature HP).
  unfold continueSequence_val. rewrite Hin.
  apply continue_from_no_projection with (L := L) (V := V) (H1 := H1) (H2 := H2) (V' := V');
    try assumption.
  destruct HP as (_ & _ & _ & _ & HB & HW).
  destruct Hfc as [E | [HfcW E]]; rewrite E in *.
  - left. by destruct (fcW_val P).
  - right. split; [exact HfcW|]. by destruct (fcB_val P).
Qed.

(** X7. A first kernel that does not have [V + H1] rows, for a melody
    encoded [V] wide and a first layer of [H1] units, is rejected by the
    shape check of the first matrix product, in the first step of the
    loop. *)
Theorem kernel_of_other_width_is_rejected (env : Env F) this P (w : Heap) sequence
    (inputs K1 : Tensor) L V H1 H2 steps temperature :
  holds w this P ->
  toTensor env
    (mkMelodyConverter (totalQuantizedSteps sequence) DEFAULT_MIN_NOTE DEFAULT_MAX_NOTE)
    sequence = inr inputs ->
  shape inputs = [L; V] ->
  has_shape (bias1_val P) [4 * H1] -> has_shape (bias2_val P) [4 * H2] ->
  kernel1_val P = Some K1 -> (forall C, shape K1 <> [V + H1; C]) ->
  0 < L -> (0 < Z.of_nat L + steps)%Z ->
  fst (continueSequence env this sequence steps temperature w) = Throw ShapeError.
Proof.
  intros HP Hin HS Hb1 Hb2 EK1 HK HL Hsteps.
  rewrite (continueSequence_result env sequence steps temperature HP).
  unfold continueSequence_val. rewrite Hin.
  by apply continue_from_kernel_mismatch
    with (K1 := K1) (L := L) (V := V) (H1 := H1) (H2 := H2).
Qed.

(** X8. When [rawVars] holds the variables [vars], [dispose] returns, keeps
    every object of the heap in place, flags as disposed exactly the tensors
    that [vars] names, and leaves the others as they were; a second
    [dispose] changes nothing more. *)
Theorem dispose_releases_rawVars (this : MelodyRnn) vars (w : Heap) :
  rawVars this = Some vars ->
  fst (dispose this w) = Ok tt /\
  length (snd (dispose this w)) = length w /\
  (forall name r,
     vars !! name = Some r -> snd (dispose this w) !! r = disposed_obj <$> w !! r) /\
  (forall r,
     (forall name, vars !! name <> Some r) -> snd (dispose this w) !! r = w !! r) /\
  snd (dispose this (snd (dispose this w))) = snd (dispose this w).
Proof.
  intros Hraw. destruct (dispose_run this w Hraw) as [Hok Hw].
  assert (Hlen : length (snd (dispose this w)) = length w).
  { destruct (Nat.lt_trichotomy (length (snd (dispose this w))) (length w)) as [H|[H|H]];
      [exfalso | exact H | exfalso].
    - apply lookup_lt_is_Some in H. destruct H as [o Ho].
      pose proof (Hw (length (snd (dispose this w)))) as E.
      rewrite lookup_ge_None_2 in E by lia. rewrite Ho in E.
      destruct (decide _); discriminate E.
    - apply lookup_lt_is_Some in H. destruct H as [o Ho].
      pose proof (Hw (length w)) as E.
      rewrite Ho, lookup_ge_None_2 in E by lia.
      destruct (decide _); discriminate E. }
  split; [exact Hok|]. split; [exact Hlen|]. split; [|split].
  - intros name r Hr. rewrite Hw.
    destruct (decide _) as [_|H]; [reflexivity|].
    destruct H. apply named_in_rawVars. by exists name.
  - intros r Hr. rewrite Hw.
    destruct (decide _) as [H|_]; [|reflexivity].
    apply named_in_rawVars in H. destruct H as [name H]. by destruct (Hr name).
  - apply list_eq. intros r.
    destruct (dispose_run this (snd (dispose this w)) Hraw) as [_ Hw'].
    rewrite Hw', Hw. destruct (decide _); [apply disposed_obj_twice | reflexivity].
Qed.

(** X9. A call disposes of nothing: every tensor it creates, intermediate
    results included, is still live when the call ends, whether it returns
    or throws; and a call that returns has created at least six tensors and
    two more for every iteration of its loop. *)
Theorem continueSequence_releases_nothing (env : Env F) this sequence steps temperature :
  retains (continueSequence env this sequence steps temperature) /\
  forall inputs L rest,
    toTensor env
      (mkMelodyConverter (totalQuantizedSteps sequence) DEFAULT_MIN_NOTE DEFAULT_MAX_NOTE)
      sequence = inr inputs ->
    shape inputs = L :: rest ->
    allocates (continueSequence env this sequence steps temperature)
      (6 + 2 * Z.to_nat (Z.of_nat L + steps)).
Proof.
  split; [apply retains_continueSequence|].
  intros inputs L rest Hin HS w l w' H.
  rewrite continueSequence_after_conversion in H. unfold converter_toTensor in H.
  rewrite Hin in H. unfold bind at 1 in H. cbn [alloc] in H.
  apply allocates_after_conversion with (o := mkObj inputs false) (L := L) (rest := rest) in H.
  - rewrite length_app in H. simpl in H. lia.
  - by rewrite lookup_app_r, Nat.sub_diag by lia.
  - exact HS.
Qed.

(** X10. Asking for fewer steps gives a prefix: when a call with [n] steps
    returns [l], the call with [k <= n] steps on the same melody, model and
    random numbers returns the first [k] elements of [l]. *)
Theorem fewer_steps_return_a_prefix (env : Env F) this P (w : Heap) sequence n k
    temperature l :
  holds w this P ->
  (k <= n)%Z ->
  fst (continueSequence env this sequence n temperature w) = Ok l ->
  fst (continueSequence env this sequence k temperature w) = Ok (take (Z.to_nat k) l).
Proof.
  intros HP Hk.
  rewrite (continueSequence_result env sequence n temperature HP).
  rewrite (continueSequence_result env sequence k temperature HP).
  unfold continueSequence_val. destruct (toTensor env _ sequence) as [msg|inputs].
  - intros H. discriminate H.
  - by apply continue_from_prefix.
Qed.

(** X11. A call draws one random number for each sample and none while it
    replays the melody: two sources of random numbers that agree on the
    first [steps] draws give the same call, result and heap. *)
Theorem draws_beyond_steps_are_unused (env1 env2 : Env F) this sequence steps temperature
    (w : Heap) :
  toTensor env1 = toTensor env2 ->
  (forall k, k < Z.to_nat steps -> random env1 k = random env2 k) ->
  continueSequence env1 this sequence steps temperature w
  = continueSequence env2 this sequence steps temperature w.
Proof.
  intros Hconv Hr. unfold continueSequence, converter_toTensor. cbv zeta. rewrite Hconv.
  do 16 (apply bind_ext; [reflexivity | intros ? ?]).
  apply bind_ext; [| reflexivity].
  apply generate_draws. intros j Hj HL. apply Hr. lia.
Qed.

(** X12. A call reads the six parameter fields of the instance and nothing
    else of it: instances that agree on them, whatever their [checkpointURL]
    and [rawVars], give the same call. *)
Theorem call_reads_parameter_fields_only (env : Env F) this1 this2 sequence steps
    temperature (w : Heap) :
  lstmKernel1 this1 = lstmKernel1 this2 -> lstmBias1 this1 = lstmBias1 this2 ->
  lstmKernel2 this1 = lstmKernel2 this2 -> lstmBias2 this1 = lstmBias2 this2 ->
  lstmFcB this1 = lstmFcB this2 -> lstmFcW this1 = lstmFcW this2 ->
  continueSequence env this1 sequence steps temperature w
  = continueSequence env this2 sequence steps temperature w.
Proof.
  intros EK1 Eb1 EK2 Eb2 EB EW. unfold continueSequence. cbv zeta. rewrite Eb1, Eb2.
  do 16 (apply bind_ext; [reflexivity | intros ? ?]).
  apply bind_ext; [| reflexivity]. by apply generate_fields.
Qed.

(** X13. On a model whose parameter tensors are live a call never finds a
    disposed tensor: if it fails, then with the error of the converter, with
    a [TypeError] or with a [ShapeError]. *)
Theorem live_model_fails_plainly (env : Env F) this P (w : Heap) sequence steps
    temperature e :
  holds w this P ->
  fst (continueSequence env this sequence steps temperature w) = Throw e ->
  e = TypeError \/ e = ShapeError \/
  exists msg,
    e = ConversionError msg /\
    toTensor env
      (mkMelodyConverter (totalQuantizedSteps sequence) DEFAULT_MIN_NOTE DEFAULT_MAX_NOTE)
      sequence = inl msg.
Proof.
  intros HP. rewrite (continueSequence_result env sequence steps temperature HP).
  unfold continueSequence_val. destruct (toTensor env _ sequence) as [msg|inputs].
  - intros [= <-]. right. right. by exists msg.
  - intros H. apply plain_continue_from in H. tauto.
Qed.

(** X14. A continuation can be resumed.  When a call with [n] steps returns
    [l], take a melody whose encoding is that of the first one followed by the
    one-hot rows of the first [k] elements of [l], and the random numbers
    after the first [k]: the call on it with [n - k] steps returns the rest of
    [l].  Replaying a sample as a row of the melody is feeding it back. *)
Theorem continuation_can_be_resumed (env env' : Env F) this P (w : Heap)
    sequence sequence' (inputs inputs' : Tensor) L V n k temperature l :
  holds w this P ->
  toTensor env
    (mkMelodyConverter (totalQuantizedSteps sequence) DEFAULT_MIN_NOTE DEFAULT_MAX_NOTE)
    sequence = inr inputs ->
  shape inputs = [L; V] ->
  toTensor env'
    (mkMelodyConverter (totalQuantizedSteps sequence') DEFAULT_MIN_NOTE DEFAULT_MAX_NOTE)
    sequence' = inr inputs' ->
  shape inputs' = [L + k; V] ->
  (forall p, p < L * V -> at_ inputs' p = at_ inputs p) ->
  (forall idx j,
     idx < k -> j < V ->
     at_ inputs' ((L + idx) * V + j)
     = if (Z.of_nat j =? nth idx l 0%Z)%Z then of_int 1 else of_int 0) ->
  (forall j, random env' j = random env (j + k)) ->
  fst (continueSequence env this sequence n temperature w) = Ok l ->
  fst (continueSequence env' this sequence' (n - Z.of_nat k) temperature w)
  = Ok (drop k l).
Proof.
  intros HP Hin HS Hin' HS' Hmelody Hrows Hrnd.
  rewrite (continueSequence_result env sequence n temperature HP).
  rewrite (continueSequence_result env' sequence' (n - Z.of_nat k) temperature HP).
  unfold continueSequence_val. rewrite Hin, Hin'.
  by apply continue_from_resume with (L := L) (V := V).
Qed.

End FurtherProperties.

(** * The further properties on a concrete model *)

Lemma calls_are_independent_witness :
  fst (continueSequence TestBackend.env TestBackend.model TestBackend.melody 3 (Some 1%float)
         (snd (continueSequence TestBackend.env_other_draws TestBackend.model
                 TestBackend.melody 2 (Some 1%float) TestBackend.loaded)))
  = fst (continueSequence TestBackend.env TestBackend.model TestBackend.melody 3
           (Some 1%float) TestBackend.loaded).
Proof.
  apply (@calls_are_independent float _ TestBackend.env TestBackend.env_other_draws
           TestBackend.model TestBackend.weights TestBackend.loaded
           TestBackend.melody 3 (Some 1%float) TestBackend.melody 2 (Some 1%float)).
  unfold holds. by_evaluation.
Defined.

Lemma samples_range_over_the_logits_witness :
  exists l,
    fst (continueSequence TestBackend.env TestBackend.model TestBackend.melody 3 None
           TestModels.loaded_wide) = Ok l /\
    Forall (fun z => (0 <= z < Z.of_nat 3)%Z) l.
Proof.
  apply (@samples_range_over_the_logits float _ TestBackend.env TestBackend.model
           TestModels.weights_wide TestModels.loaded_wide TestBackend.melody
           TestBackend.encoded 2 2 1 1 3 3 None).
  - unfold holds. by_evaluation.
  - shapes_by_evaluation.
  - reflexivity.
  - reflexivity.
Defined.

Lemma no_step_needs_no_projection_witness :
  fst (continueSequence TestBackend.env TestModels.model_no_projection TestBackend.melody
         (-1) None TestBackend.loaded)
  = Ok [].
Proof.
  apply (@no_step_needs_no_projection float _ TestBackend.env TestModels.model_no_projection
           TestModels.weights_no_projection TestBackend.loaded TestBackend.melody
           TestBackend.encoded 2 2 1 1 (-1) None).
  - unfold holds. by_evaluation.
  - shapes_by_evaluation.
  - reflexivity.
  - reflexivity.
  - lia.
Defined.

Lemma missing_projection_throws_witness :
  fst (continueSequence TestBackend.env TestModels.model_no_projection TestBackend.melody
         2 None TestBackend.loaded)
  = Throw TypeError.
Proof.
  apply (@missing_projection_throws float _ TestBackend.env TestModels.model_no_projection
           TestModels.weights_no_projection TestBackend.loaded TestBackend.melody
           TestBackend.encoded 2 2 1 1 2 2 None).
  - unfold holds. by_evaluation.
  - shapes_by_evaluation.
  - reflexivity.
  - reflexivity.
  - left. reflexivity.
  - lia.
Defined.

Lemma kernel_of_other_width_is_rejected_witness :
  fst (continueSequence TestBackend.env TestBackend.model TestBackend.melody 2 None
         TestModels.loaded_other)
  = Throw ShapeError.
Proof.
  apply (@kernel_of_other_width_is_rejected float _ TestBackend.env TestBackend.model
           TestModels.weights_other TestModels.loaded_other TestBackend.melody
           TestBackend.encoded TestModels.kernel1_other 2 2 1 1 2 None).
  - unfold holds. by_evaluation.
  - reflexivity.
  - reflexivity.
  - eexists. split; reflexivity.
  - eexists. split; reflexivity.
  - reflexivity.
  - intros C H. discriminate H.
  - lia.
  - lia.
Defined.

Lemma dispose_releases_rawVars_witness :
  fst (dispose TestModels.stored TestBackend.loaded) = Ok tt /\
  length (snd (dispose TestModels.stored TestBackend.loaded)) = length TestBackend.loaded /\
  snd (dispose TestModels.stored (snd (dispose TestModels.stored TestBackend.loaded)))
  = snd (dispose TestModels.stored TestBackend.loaded).
Proof.
  destruct (@dispose_releases_rawVars float TestModels.stored TestBackend.vars
              TestBackend.loaded eq_refl)
    as (Hok & Hlen & _ & _ & Htwice).
  exact (conj Hok (conj Hlen Htwice)).
Defined.

Lemma continueSequence_releases_nothing_witness :
  allocates
    (continueSequence TestBackend.env TestBackend.model TestBackend.melody 3 None)
    (6 + 2 * Z.to_nat (Z.of_nat 2 + 3)).
Proof.
  apply (proj2 (@continueSequence_releases_nothing float _ TestBackend.env TestBackend.model
                  TestBackend.melody 3 None) TestBackend.encoded 2 [2]); reflexivity.
Defined.

Lemma fewer_steps_return_a_prefix_witness :
  fst (continueSequence TestBackend.env TestBackend.model TestBackend.melody 2 (Some 1%float)
         TestBackend.loaded)
  = Ok (take (Z.to_nat 2) [0; 1; 0; 1; 0]%Z).
Proof.
  apply (@fewer_steps_return_a_prefix float _ TestBackend.env TestBackend.model
           TestBackend.weights TestBackend.loaded TestBackend.melody 5 2 (Some 1%float)).
  - unfold holds. by_evaluation.
  - lia.
  - vm_compute. reflexivity.
Defined.

Lemma draws_beyond_steps_are_unused_witness :
  continueSequence TestBackend.env TestBackend.model TestBackend.melody 3 (Some 1%float)
    TestBackend.loaded
  = continueSequence TestModels.env_late_draws TestBackend.model TestBackend.melody 3
      (Some 1%float) TestBackend.loaded.
Proof.
  apply (@draws_beyond_steps_are_unused float _ TestBackend.env TestModels.env_late_draws).
  - reflexivity.
  - intros k Hk. do 3 (destruct k as [|k]; [reflexivity|]). simpl in Hk. lia.
Defined.

Lemma call_reads_parameter_fields_only_witness :
  continueSequence TestBackend.env TestBackend.model TestBackend.melody 3 None
    TestBackend.loaded
  = continueSequence TestBackend.env TestModels.stored TestBackend.melody 3 None
      TestBackend.loaded.
Proof.
  apply call_reads_parameter_fields_only; reflexivity.
Defined.

Lemma live_model_fails_plainly_witness :
  ShapeError = TypeError \/ ShapeError = ShapeError \/
  exists msg,
    ShapeError = ConversionError msg /\
    toTensor TestBackend.env
      (mkMelodyConverter (totalQuantizedSteps TestBackend.melody)
         DEFAULT_MIN_NOTE DEFAULT_MAX_NOTE)
      TestBackend.melody = inl msg.
Proof.
  apply (@live_model_fails_plainly float _ TestBackend.env TestBackend.model
           TestModels.weights_other TestModels.loaded_other TestBackend.melody 2 None).
  - unfold holds. by_evaluation.
  - vm_compute. reflexivity.
Defined.

Lemma continuation_can_be_resumed_witness :
  fst (continueSequence TestModels.env_resumed TestBackend.model TestModels.melody_resumed
         (3 - Z.of_nat 1) (Some 1%float) TestBackend.loaded)
  = Ok (drop 1 [0; 1; 0]%Z).
Proof.
  apply (@continuation_can_be_resumed float _ TestBackend.env TestModels.env_resumed
           TestBackend.model TestBackend.weights TestBackend.loaded
           TestBackend.melody TestModels.melody_resumed
           TestBackend.encoded TestModels.encoded_resumed 2 2 3 1 (Some 1%float)).
  - unfold holds. by_evaluation.
  - reflexivity.
  - reflexivity.
  - reflexivity.
  - reflexivity.
  - intros p Hp. do 4 (destruct p as [|p]; [vm_compute; reflexivity|]). simpl in Hp. lia.
  - intros idx j Hidx Hj. destruct idx as [|idx]; [|lia].
    do 2 (destruct j as [|j]; [vm_compute; reflexivity|]). lia.
  - reflexivity.
  - vm_compute. reflexivity.
Defined.

(** * A call and the recurrence of the spec *)

(** ** A call computes the recurrence of the spec *)
Section Decoding.
Context {F : Type} {NF : Numeric F}.

#[local] Abbreviation Tensor := (Tensor (F := F)).
#[local] Abbreviation sample_tensor := (sample_tensor (F := F)).

Lemma row_of_is_row (t : Tensor) n : is_row t n -> row t n 0 = floats t.
Proof.
  intros [_ Hl]. unfold row, at_. subst n. cbn [Nat.mul Nat.add].
  apply tabulate_nth.
Qed.

Lemma greedy_val_choice (logits : Tensor) V' :
  is_row logits V' ->
  greedy_val logits = Ok (mkTensor [1] (I32 [Z.of_nat (argmax_row (floats logits))])).
Proof.
  intros HL. unfold greedy_val, t_argMax. rewrite (proj1 HL).
  cbn [bindR]. rewrite <- (row_of_is_row HL). reflexivity.
Qed.

Lemma stochastic_val_choice (logits : Tensor) V' u t :
  is_row logits V' -> 2 <= V' ->
  stochastic_val u t logits
  = Ok (mkTensor [1]
          (I32 [Z.of_nat (draw (map (fun x => fdiv x (of_number t)) (floats logits)) u)])).
Proof.
  intros HL HV. unfold stochastic_val, t_div.
  rewrite (broadcast_row_scalar fdiv (of_number t) HL). cbn [bindR].
  set (scaled := row_tensor _).
  assert (Hs : is_row scaled V').
  { apply is_row_row_tensor. rewrite length_map. apply HL. }
  unfold t_multinomial. rewrite (is_row_size Hs).
  replace (V' <? 2) with false by (symmetry; apply Nat.ltb_ge; lia).
  rewrite (proj1 Hs).
  transitivity (Ok (mkTensor (F := F) [1] (I32 [Z.of_nat (draw (row scaled V' 0) u)])));
    [reflexivity | by rewrite (row_of_is_row Hs)].
Qed.

Lemma sampledOutput_val_choice (logits : Tensor) V' u temperature :
  is_row logits V' -> 2 <= V' ->
  sampledOutput_val u temperature logits
  = Ok (mkTensor [1] (I32 [Z.of_nat (chosen_index u temperature (floats logits))])).
Proof.
  intros HL HV. unfold sampledOutput_val, chosen_index.
  destruct (truthy temperature); [destruct temperature|];
    eauto using stochastic_val_choice, greedy_val_choice.
Qed.

(** A self-feeding step: the index chosen from the logits of the top hidden
    state is recorded, and its one-hot row is the next frame. *)
Lemma nextInput_val_choice (rnd : nat -> F) P temperature (inputs fcW fcB h1 h2 : Tensor)
    L V H2 V' i samples :
  fcW_val P = Some fcW -> shape fcW = [H2; V'] ->
  fcB_val P = Some fcB -> shape fcB = [V'] -> 2 <= V' ->
  is_row h2 H2 -> L <= i ->
  let k := chosen_index (rnd (i - L)) temperature (spec_logits fcW fcB H2 V' (floats h2)) in
  nextInput_val rnd P temperature inputs L V i [h1; h2] samples
  = Ok (mkTensor [1; V] (F32 (spec_one_hot V k)), samples ++ [sample_tensor k]).
Proof.
  intros EW SW EB SB HV Hh2 Hi k. unfold nextInput_val.
  replace (i <? L) with false by (symmetry; apply Nat.ltb_ge; lia).
  rewrite EW, EB. cbn [lookup list_lookup fieldR bindR].
  rewrite (matMul_row fcW Hh2 SW). cbn [bindR].
  rewrite (add_row_bias fcB (n := V'))
    by (done || apply is_row_row_tensor, length_tabulate).
  cbn [bindR].
  match goal with |- context [sampledOutput_val _ _ (row_tensor ?l)] =>
    assert (El : l = spec_logits fcW fcB H2 V' (floats h2))
  end.
  { unfold spec_logits. apply tabulate_ext. intros j Hj.
    by rewrite at_row_tensor, nth_tabulate by done. }
  rewrite El.
  rewrite (@sampledOutput_val_choice _ V') by (done || apply is_row_row_tensor, length_tabulate).
  cbn [bindR]. rewrite floats_row_tensor. fold k.
  unfold t_oneHot, t_asScalar, t_reshape, size. cbn [shape bindR ints tdata].
  change (sizeFromShape [] =? sizeFromShape [1]) with true. cbn [bindR].
  unfold t_toFloat, floats, sample_tensor. cbn [shape tdata]. rewrite tabulate2_one.
  do 4 f_equal. apply tabulate_ext. intros j _. cbn [nth].
  destruct (Nat.eqb_spec j k) as [->|Hne]; [by rewrite Z.eqb_refl|].
  destruct (Z.eqb_spec (Z.of_nat j) (Z.of_nat k)) as [E|_]; [lia | reflexivity].
Qed.

(** The loop on tensor values goes through the states of the recurrence and
    yields its samples. *)
Lemma generate_val_spec (rnd : nat -> F) P temperature (inputs K1 b1 K2 b2 fcW fcB : Tensor)
    L V H1 H2 V' pick n :
  kernel1_val P = Some K1 -> shape K1 = [V + H1; 4 * H1] ->
  bias1_val P = Some b1 -> shape b1 = [4 * H1] ->
  kernel2_val P = Some K2 -> shape K2 = [H1 + H2; 4 * H2] ->
  bias2_val P = Some b2 -> shape b2 = [4 * H2] ->
  fcW_val P = Some fcW -> shape fcW = [H2; V'] ->
  fcB_val P = Some fcB -> shape fcB = [V'] -> 2 <= V' ->
  shape inputs = [L; V] ->
  (forall k logits, pick k logits = chosen_index (rnd k) temperature logits) ->
  forall i (c1 c2 h1 h2 : Tensor) samples,
    is_row c1 H1 -> is_row c2 H2 -> is_row h1 H1 -> is_row h2 H2 ->
    generate_val rnd P temperature (t_scalar (of_number 1%float)) inputs L V n i
      [c1; c2] [h1; h2] (map sample_tensor samples)
    = Ok (map sample_tensor
            (spec_loop (of_number 1%float) K1 b1 K2 b2 fcW fcB inputs H1 H2 V V' L pick n i
               ((floats c1, floats h1), (floats c2, floats h2)) samples)).
Proof.
  intros EK1 SK1 Eb1 Sb1 EK2 SK2 Eb2 Sb2 EW SW EB SB HV HS Hpick.
  induction n as [|n IH]; intros i c1 c2 h1 h2 samples Hc1 Hc2 Hh1 Hh2;
    cbn [generate_val spec_loop]; [reflexivity|].
  assert (Hstep : forall x : Tensor, is_row x V ->
            exists c1' c2' h1' h2' : Tensor,
              is_row c1' H1 /\ is_row c2' H2 /\ is_row h1' H1 /\ is_row h2' H2 /\
              multiRNNCell_val
                [lstm1_val P (t_scalar (of_number 1%float));
                 lstm2_val P (t_scalar (of_number 1%float))] x [c1; c2] [h1; h2]
              = Ok ([c1'; c2'], [h1'; h2']) /\
              spec_step (of_number 1%float) K1 b1 K2 b2 H1 H2 (floats x)
                ((floats c1, floats h1), (floats c2, floats h2))
              = ((floats c1', floats h1'), (floats c2', floats h2'))).
  { intros x Hx.
    pose proof (multiRNNCell_val_stacked (of_number 1%float) P EK1 SK1 Eb1 Sb1 EK2 SK2 Eb2 Sb2
                  Hx Hc1 Hc2 Hh1 Hh2) as E.
    cbv zeta in E. rewrite E. unfold spec_step. cbn [fst snd].
    set (s := stacked_transition _ _ _ _ _ _ _ _ _ _ _ _).
    assert (Hs : (length s.1.1 = H1 /\ length s.1.2 = H1) /\
                 (length s.2.1 = H2 /\ length s.2.2 = H2)).
    { unfold s, stacked_transition. cbn [fst snd]. split.
      - apply length_lstm_transition, Hc1.
      - apply length_lstm_transition, Hc2. }
    destruct Hs as [[L1 L2] [L3 L4]].
    exists (row_tensor s.1.1), (row_tensor s.2.1), (row_tensor s.1.2), (row_tensor s.2.2).
    split_and!; try (by apply is_row_row_tensor); [reflexivity|].
    rewrite !floats_row_tensor. by destruct s as [[? ?] [? ?]]. }
  destruct (Nat.ltb_spec i L) as [Hi|Hi].
  - rewrite (@nextInput_val_row F NF rnd P temperature inputs L V i [h1; h2]
               (map sample_tensor samples) HS Hi).
    cbn [bindR].
    set (x := mkTensor [1; V] (F32 (tabulate V (fun j => at_ inputs (i * V + j))))).
    assert (Hx : is_row x V) by (split; [reflexivity | apply length_tabulate]).
    destruct (Hstep x Hx) as (c1' & c2' & h1' & h2' & R1 & R2 & R3 & R4 & -> & Est).
    cbn [bindR]. change (floats x) with (spec_frame inputs V i) in Est. rewrite Est.
    by apply IH.
  - cbn [fst snd]. cbv zeta. rewrite Hpick.
    rewrite (@nextInput_val_choice rnd P temperature inputs fcW fcB h1 h2 L V H2 V' i
               (map sample_tensor samples) EW SW EB SB HV Hh2 Hi).
    cbn [bindR].
    set (k := chosen_index _ _ _).
    set (x := mkTensor [1; V] (F32 (spec_one_hot V k))).
    assert (Hx : is_row x V) by (split; [reflexivity | apply length_tabulate]).
    destruct (Hstep x Hx) as (c1' & c2' & h1' & h2' & R1 & R2 & R3 & R4 & -> & Est).
    cbn [bindR]. change (floats x) with (spec_one_hot V k) in Est. rewrite Est.
    replace (map sample_tensor samples ++ [sample_tensor k])
      with (map sample_tensor (samples ++ [k])) by (by rewrite map_app).
    by apply IH.
Qed.

Lemma forR_sample_tensors (samples : list nat) :
  forR (map sample_tensor samples) first_value_val = Ok (map Z.of_nat samples).
Proof.
  induction samples as [|k l IH]; [reflexivity|].
  cbn [map forR]. rewrite IH. reflexivity.
Qed.

Lemma floats_zeros_row H : floats (t_zeros (F := F) [1; H]) = repeat (of_int 0) H.
Proof. unfold floats. cbn [tdata t_zeros]. by rewrite sizeFromShape_row. Qed.

(** On a model of consistent shapes a call on values returns the samples of
    the recurrence, run with the forget bias [1.0] from the all-zero state. *)
Lemma continue_from_spec (env : Env F) P (inputs K1 b1 K2 b2 fcW fcB : Tensor) L V H1 H2 V'
    pick steps temperature :
  kernel1_val P = Some K1 -> bias1_val P = Some b1 ->
  kernel2_val P = Some K2 -> bias2_val P = Some b2 ->
  fcB_val P = Some fcB -> fcW_val P = Some fcW ->
  WellShaped P V H1 H2 V' ->
  shape inputs = [L; V] ->
  (forall k logits, pick k logits = chosen_index (random env k) temperature logits) ->
  continue_from env P inputs steps temperature
  = Ok (map Z.of_nat
          (spec_continue (of_number 1%float) K1 b1 K2 b2 fcW fcB inputs H1 H2 V V' L pick
             steps)).
Proof.
  intros EK1 Eb1 EK2 Eb2 EB EW HW HS Hpick.
  pose proof HW as (((K1' & EK1' & SK1) & (b1' & Eb1' & Sb1) & (K2' & EK2' & SK2) &
                     (b2' & Eb2' & Sb2)) &
                    (fcW' & EW' & SW) & (fcB' & EB' & SB) & HV).
  assert (K1' = K1) as -> by congruence. assert (b1' = b1) as -> by congruence.
  assert (K2' = K2) as -> by congruence. assert (b2' = b2) as -> by congruence.
  assert (fcW' = fcW) as -> by congruence. assert (fcB' = fcB) as -> by congruence.
  pose proof HW as ((_ & Hb1 & _ & Hb2) & _).
  destruct (@continue_from_start F NF env P inputs L V H1 H2 steps temperature HS Hb1 Hb2)
    as [-> _].
  destruct (zeros_row_quarterR_ok (F := F) H1) as [_ R1].
  destruct (zeros_row_quarterR_ok (F := F) H2) as [_ R2].
  pose proof (@generate_val_spec (random env) P temperature inputs K1 b1 K2 b2 fcW fcB
                L V H1 H2 V' pick (Z.to_nat (Z.of_nat L + steps))
                EK1 SK1 Eb1 Sb1 EK2 SK2 Eb2 Sb2 EW SW EB SB HV HS Hpick
                0 _ _ _ _ [] R1 R2 R1 R2) as E.
  cbn [map] in E. rewrite E. cbn [bindR]. rewrite !floats_zeros_row.
  apply forR_sample_tensors.
Qed.

End Decoding.

(** ** The choice of the index and the layers, in a call *)
Section CallProperties.
Context {F : Type} {NF : Numeric F}.

#[local] Abbreviation Tensor := (Tensor (F := F)).
#[local] Abbreviation Heap := (list (TensorObj (F := F))).

Lemma bind_assoc {A B C} (m : M (F := F) A) (k1 : A -> M B) (k2 : B -> M C) (w : Heap) :
  bind (bind m k1) k2 w = bind m (fun a => bind (k1 a) k2) w.
Proof. unfold bind. by destruct (m w) as [[a|e] w1]. Qed.

(** C2. A call advances two stacked gated layers with the forget bias [1.0]
    that it creates itself: on a model of consistent shapes the sequence it
    returns is the one of the recurrence of the spec, run from the all-zero
    state for [length + steps] time steps, in which every step is the gated
    transition of layer 1 on the input frame and its own [(c, h)], followed
    by the gated transition of layer 2 on the new hidden state of layer 1 and
    its own [(c, h)], and the new state pairs of both layers are the state of
    the next step. *)
Theorem continueSequence_applies_stacked_lstm (env : Env F) this P (w : Heap) sequence
    (inputs K1 b1 K2 b2 fcW fcB : Tensor) L V H1 H2 V' steps temperature :
  holds w this P ->
  kernel1_val P = Some K1 -> bias1_val P = Some b1 ->
  kernel2_val P = Some K2 -> bias2_val P = Some b2 ->
  fcB_val P = Some fcB -> fcW_val P = Some fcW ->
  WellShaped P V H1 H2 V' ->
  toTensor env
    (mkMelodyConverter (totalQuantizedSteps sequence) DEFAULT_MIN_NOTE DEFAULT_MAX_NOTE)
    sequence = inr inputs ->
  shape inputs = [L; V] ->
  fst (continueSequence env this sequence steps temperature w)
  = Ok (map Z.of_nat
          (spec_continue (of_number 1%float) K1 b1 K2 b2 fcW fcB inputs H1 H2 V V' L
             (fun k logits => chosen_index (random env k) temperature logits) steps)).
Proof.
  intros HP EK1 Eb1 EK2 Eb2 EB EW HW Hin HS.
  rewrite (continueSequence_result env sequence steps temperature HP).
  unfold continueSequence_val. rewrite Hin.
  by apply continue_from_spec.
Qed.

(** C3. With a temperature that is [undefined] or zero, every self-feeding
    step of a call chooses the next index as the arg-max of the logits of the
    top hidden state, which are not divided by anything: the step is the
    arg-max program, without the division and the draw, and on a model of
    consistent shapes the call returns the sequence of the recurrence in
    which every index is the arg-max of [h * W_fc + b_fc]. *)
Theorem falsy_temperature_selects_argmax (env : Env F) this P (w : Heap) sequence
    (inputs K1 b1 K2 b2 fcW fcB : Tensor) L V H1 H2 V' steps temperature :
  temperature = None \/ (exists t, temperature = Some t /\ is_zero t = true) ->
  holds w this P ->
  kernel1_val P = Some K1 -> bias1_val P = Some b1 ->
  kernel2_val P = Some K2 -> bias2_val P = Some b2 ->
  fcB_val P = Some fcB -> fcW_val P = Some fcW ->
  WellShaped P V H1 H2 V' ->
  toTensor env
    (mkMelodyConverter (totalQuantizedSteps sequence) DEFAULT_MIN_NOTE DEFAULT_MAX_NOTE)
    sequence = inr inputs ->
  shape inputs = [L; V] ->
  fst (continueSequence env this sequence steps temperature w)
  = Ok (map Z.of_nat
          (spec_continue (of_number 1%float) K1 b1 K2 b2 fcW fcB inputs H1 H2 V V' L
             (fun _ logits => argmax_row logits) steps)) /\
  forall (rnd : nat -> F) (melody : ref) length outputSize i h samples (w' : Heap),
    length <= i ->
    nextInput rnd this temperature melody length outputSize i h samples w'
    = (top <- index h 1;;
       fcW <- field (lstmFcW this);;
       projected <- matMul top fcW;;
       fcB <- field (lstmFcB this);;
       logits <- add projected fcB;;
       best <- argMax logits;;
       sampled <- as1D best;;
       hot <- oneHot sampled outputSize;;
       x <- toFloat hot;;
       sample <- asScalar sampled;;
       ret (x, samples ++ [sample])) w'.
Proof.
  intros Ht HP EK1 Eb1 EK2 Eb2 EB EW HW Hin HS.
  assert (Hfalsy : truthy temperature = false).
  { destruct Ht as [->|(t & -> & Hz)]; [reflexivity|]. simpl. by rewrite Hz. }
  split.
  - rewrite (continueSequence_result env sequence steps temperature HP).
    unfold continueSequence_val. rewrite Hin.
    apply continue_from_spec; try assumption.
    intros k logits. unfold chosen_index. by rewrite Hfalsy.
  - intros rnd melody length outputSize i h samples w' Hi. unfold nextInput.
    replace (i <? length) with false by (symmetry; apply Nat.ltb_ge; lia).
    do 5 (apply bind_ext; [reflexivity | intros ? ?]).
    rewrite sampledOutput_falsy by exact Hfalsy. unfold greedy. apply bind_assoc.
Qed.

(** C9, as amended. A call makes no check that the temperature is positive
    and passes it on as it is: with every temperature that is neither zero
    nor NaN, negative ones included, each index is drawn from the logits
    divided by that temperature, with the random number of its draw; with a
    temperature that is zero or NaN, as with none, each index is the arg-max
    of the logits. *)
Theorem temperature_truthiness_selects_branch (env : Env F) this P (w : Heap) sequence
    (inputs K1 b1 K2 b2 fcW fcB : Tensor) L V H1 H2 V' steps (t : number) :
  holds w this P ->
  kernel1_val P = Some K1 -> bias1_val P = Some b1 ->
  kernel2_val P = Some K2 -> bias2_val P = Some b2 ->
  fcB_val P = Some fcB -> fcW_val P = Some fcW ->
  WellShaped P V H1 H2 V' ->
  toTensor env
    (mkMelodyConverter (totalQuantizedSteps sequence) DEFAULT_MIN_NOTE DEFAULT_MAX_NOTE)
    sequence = inr inputs ->
  shape inputs = [L; V] ->
  (is_zero t = false -> is_nan t = false ->
   fst (continueSequence env this sequence steps (Some t) w)
   = Ok (map Z.of_nat
           (spec_continue (of_number 1%float) K1 b1 K2 b2 fcW fcB inputs H1 H2 V V' L
              (fun k logits =>
                 draw (map (fun x => fdiv x (of_number t)) logits) (random env k))
              steps))) /\
  (is_zero t = true \/ is_nan t = true ->
   fst (continueSequence env this sequence steps (Some t) w)
   = Ok (map Z.of_nat
           (spec_continue (of_number 1%float) K1 b1 K2 b2 fcW fcB inputs H1 H2 V V' L
              (fun _ logits => argmax_row logits) steps))) /\
  fst (continueSequence env this sequence steps None w)
  = Ok (map Z.of_nat
          (spec_continue (of_number 1%float) K1 b1 K2 b2 fcW fcB inputs H1 H2 V V' L
             (fun _ logits => argmax_row logits) steps)).
Proof.
  intros HP EK1 Eb1 EK2 Eb2 EB EW HW Hin HS.
  rewrite (continueSequence_result env sequence steps (Some t) HP).
  rewrite (continueSequence_result env sequence steps None HP).
  unfold continueSequence_val. rewrite Hin. split; [|split].
  - intros Hz Hn. apply continue_from_spec; try assumption.
    intros k logits. unfold chosen_index, truthy. by rewrite Hz, Hn.
  - intros Hf. apply continue_from_spec; try assumption.
    intros k logits. unfold chosen_index, truthy.
    by destruct Hf as [-> | ->]; rewrite ?orb_true_r.
  - by apply continue_from_spec.
Qed.

End CallProperties.

(** * The recurrence on a concrete model *)

Lemma continueSequence_applies_stacked_lstm_witness :
  fst (continueSequence TestBackend.env TestBackend.model TestBackend.melody 3 (Some 1%float)
         TestBackend.loaded)
  = Ok (map Z.of_nat
          (spec_continue (of_number 1%float) TestBackend.kernel1 TestBackend.bias1
             TestBackend.kernel2 TestBackend.bias2 TestBackend.fcW TestBackend.fcB
             TestBackend.encoded 1 1 2 2 2
             (fun k logits => chosen_index (random TestBackend.env k) (Some 1%float) logits)
             3)).
Proof.
  apply (@continueSequence_applies_stacked_lstm float _ TestBackend.env TestBackend.model
           TestBackend.weights TestBackend.loaded TestBackend.melody TestBackend.encoded
           TestBackend.kernel1 TestBackend.bias1 TestBackend.kernel2 TestBackend.bias2
           TestBackend.fcW TestBackend.fcB 2 2 1 1 2 3 (Some 1%float));
    try reflexivity.
  - unfold holds. by_evaluation.
  - shapes_by_evaluation.
Defined.

Lemma falsy_temperature_selects_argmax_witness :
  fst (continueSequence TestBackend.env TestBackend.model TestBackend.melody 3 (Some 0%float)
         TestBackend.loaded)
  = Ok (map Z.of_nat
          (spec_continue (of_number 1%float) TestBackend.kernel1 TestBackend.bias1
             TestBackend.kernel2 TestBackend.bias2 TestBackend.fcW TestBackend.fcB
             TestBackend.encoded 1 1 2 2 2 (fun _ logits => argmax_row logits) 3)).
Proof.
  apply (@falsy_temperature_selects_argmax float _ TestBackend.env TestBackend.model
           TestBackend.weights TestBackend.loaded TestBackend.melody TestBackend.encoded
           TestBackend.kernel1 TestBackend.bias1 TestBackend.kernel2 TestBackend.bias2
           TestBackend.fcW TestBackend.fcB 2 2 1 1 2 3 (Some 0%float));
    try reflexivity.
  - right. exists 0%float. split; reflexivity.
  - unfold holds. by_evaluation.
  - shapes_by_evaluation.
Defined.

Lemma temperature_truthiness_selects_branch_witness :
  fst (continueSequence TestBackend.env TestBackend.model TestBackend.melody 3
         (Some (-1)%float) TestBackend.loaded)
  = Ok (map Z.of_nat
          (spec_continue (of_number 1%float) TestBackend.kernel1 TestBackend.bias1
             TestBackend.kernel2 TestBackend.bias2 TestBackend.fcW TestBackend.fcB
             TestBackend.encoded 1 1 2 2 2
             (fun k logits =>
                draw (map (fun x => fdiv x (of_number (-1)%float)) logits)
                  (random TestBackend.env k))
             3)).
Proof.
  apply (proj1 (@temperature_truthiness_selects_branch float _ TestBackend.env
                  TestBackend.model TestBackend.weights TestBackend.loaded TestBackend.melody
                  TestBackend.encoded TestBackend.kernel1 TestBackend.bias1
                  TestBackend.kernel2 TestBackend.bias2 TestBackend.fcW TestBackend.fcB
                  2 2 1 1 2 3 (-1)%float
                  ltac:(unfold holds; by_evaluation) eq_refl eq_refl eq_refl eq_refl eq_refl
                  eq_refl ltac:(shapes_by_evaluation) eq_refl eq_refl));
    reflexivity.
Defined.
